(** * MultiView rig_calibrator: a shallow embedding of the calibration driver

    The development follows [src/tools/rig_calibrator.cc] and
    [src/rig_calibrator/src/interest_point.cc].  Doubles are IEEE binary64
    values ([spec_float] with precision 53 and maximal exponent 1024),
    [std::map<int, ...>] is a [gmap Z ...] traversed in increasing key order,
    [std::vector] is a [list], and [LOG(FATAL)] is the [Fatal] outcome of the
    [Result] monad.  Calls into Eigen, openMVG, OpenCV and Ceres are
    parameters of the sections that need them. *)

From Stdlib Require Import ZArith Floats.SpecFloat.
From stdpp Require Import gmap strings list sorting.

Open Scope Z_scope.

(** ** Outcomes *)

(** What a call can do: return, abort the process through [LOG(FATAL)], a
    failed [CHECK] or an uncaught exception, or step outside what C++ defines
    (an index past the end of a [std::vector], a [double] that does not fit
    the [int] it is converted to). *)
Inductive Result (A : Type) : Type :=
| Ok (a : A)
| Fatal (msg : string)
| Undefined.
Arguments Ok {A} a.
Arguments Fatal {A} msg.
Arguments Undefined {A}.

#[export] Instance Result_ret : MRet Result := @Ok.
#[export] Instance Result_bind : MBind Result := λ A B f m,
  match m with
  | Ok a => f a
  | Fatal msg => Fatal msg
  | Undefined => Undefined
  end.

Definition is_Ok {A} (r : Result A) : bool :=
  match r with Ok _ => true | _ => false end.

Definition is_Fatal {A} (r : Result A) : bool :=
  match r with Fatal _ => true | _ => false end.

(** [v[i]] on a [std::vector]: undefined past the end. *)
Definition vec_at {A} (v : list A) (i : Z) : Result A :=
  if i <? 0 then Undefined
  else match v !! Z.to_nat i with
       | Some a => Ok a
       | None => Undefined
       end.

(** [LOG(FATAL)] guarded by a condition. *)
Definition fatal_if (c : bool) (msg : string) : Result unit :=
  if c then Fatal msg else Ok tt.

(** ** Doubles *)

Definition double : Type := spec_float.

Module Fp.

Definition prec : Z := 53.
Definition emax : Z := 1024.

Definition add : double → double → double := SFadd prec emax.
Definition sub : double → double → double := SFsub prec emax.
Definition mul : double → double → double := SFmul prec emax.
Definition div : double → double → double := SFdiv prec emax.

Definition ltb : double → double → bool := SFltb.
Definition leb : double → double → bool := SFleb.
Definition eqb : double → double → bool := SFeqb.
Definition gtb (x y : double) : bool := SFltb y x.
Definition geb (x y : double) : bool := SFleb y x.

Definition zero : double := S754_zero false.
Definition one : double := S754_finite false 4503599627370496 (-52).

Definition isnan (x : double) : bool :=
  match x with S754_nan => true | _ => false end.

Definition isinf (x : double) : bool :=
  match x with S754_infinity _ => true | _ => false end.

(** An [int] converted to [double] (exact: 32 bits fit in 53). *)
Definition of_int (n : Z) : double := binary_normalize prec emax n 0 false.

(** [round]: to the nearest integer, halfway cases away from zero. *)
Definition round_magnitude (m : positive) (e : Z) : Z :=
  if 0 <=? e then Zpos m * 2 ^ e
  else
    let d := 2 ^ (- e) in
    let q := Zpos m / d in
    let r := Zpos m mod d in
    if d <=? 2 * r then q + 1 else q.

Definition round (x : double) : option Z :=
  match x with
  | S754_zero _ => Some 0
  | S754_finite s m e =>
      let n := round_magnitude m e in Some (if s then - n else n)
  | _ => None
  end.

Definition int_min : Z := - 2 ^ 31.
Definition int_max : Z := 2 ^ 31 - 1.

(** [int n = round(x)]: the conversion is defined only when the rounded value
    is an [int]. *)
Definition round_to_int (x : double) : Result Z :=
  match round x with
  | Some n => if (int_min <=? n) && (n <=? int_max) then Ok n else Undefined
  | None => Undefined
  end.

(** [std::max(a, b)] is [(a < b) ? b : a]. *)
Definition max (a b : double) : double := if ltb a b then b else a.

End Fp.

Definition Vector2d : Type := double * double.
Definition Vector3d : Type := double * double * double.

(** ** Data model *)

(** Modelled from the spec: [camera::CameraParameters] (camera_params.h is
    not part of the sources at hand).  Section 4.2 of the specification: the
    camera model is fully defined by the focal length, the principal point,
    the distortion vector and the distorted and undistorted image sizes.  The
    focal length is kept as the pair the driver passes to [SetFocalLength]. *)
Record CameraParameters : Type := {
  focal_length : Vector2d;
  optical_offset : Vector2d;
  distortion : list double;
  distorted_size : Z * Z;
  undistorted_size : Z * Z;
}.

Definition SetFocalLength (cp : CameraParameters) (f : Vector2d) : CameraParameters :=
  {| focal_length := f; optical_offset := optical_offset cp;
     distortion := distortion cp; distorted_size := distorted_size cp;
     undistorted_size := undistorted_size cp |}.

Definition SetOpticalOffset (cp : CameraParameters) (c : Vector2d) : CameraParameters :=
  {| focal_length := focal_length cp; optical_offset := c;
     distortion := distortion cp; distorted_size := distorted_size cp;
     undistorted_size := undistorted_size cp |}.

Definition SetDistortion (cp : CameraParameters) (d : list double) : CameraParameters :=
  {| focal_length := focal_length cp; optical_offset := optical_offset cp;
     distortion := d; distorted_size := distorted_size cp;
     undistorted_size := undistorted_size cp |}.

Definition GetOpticalOffset (cp : CameraParameters) : Vector2d := optical_offset cp.
Definition GetDistortedSize (cp : CameraParameters) : Z * Z := distorted_size cp.
Definition GetDistortion (cp : CameraParameters) : list double := distortion cp.

(** Modelled from the spec: [dense_map::cameraImage] (camera_image.h is not
    part of the sources at hand); the fields are the ones the driver reads. *)
Record cameraImage : Type := {
  camera_type : Z;
  timestamp : double;
  beg_ref_index : Z;
  end_ref_index : Z;
  image_name : string;
}.

(** What the driver takes from Eigen, openMVG and the camera model. *)
Class Externals : Type := {
  (** [Eigen::Affine3d] *)
  Affine3d : Type;
  (** [dense_map::array_to_rigid_transform] on a block of
      [NUM_RIGID_PARAMS] doubles *)
  array_to_rigid_transform : list double → Affine3d;
  (** [dense_map::rigid_transform_to_array] *)
  rigid_transform_to_array : Affine3d → list double;
  (** [dense_map::linearInterp(alpha, beg, end)] *)
  linearInterp : double → Affine3d → Affine3d → Affine3d;
  (** [operator*] on [Eigen::Affine3d] *)
  affine_mul : Affine3d → Affine3d → Affine3d;
  (** [openMVG::Triangulation::compute] on the rays added through
      [P_From_KRt]: focal length, world-to-camera transform, pixel *)
  tri_compute : list (double * Affine3d * Vector2d) → Vector3d;
  (** [CameraParameters::Convert<DISTORTED, UNDISTORTED_C>] *)
  Convert_DISTORTED_UNDISTORTED_C : CameraParameters → Vector2d → Vector2d;
  (** [CameraParameters::GetFocalLength] *)
  GetFocalLength : CameraParameters → double;
  (** [(180.0 / M_PI) * acos(ray1.dot(ray2))] for the normalized rays from
      the centres of two cameras to a point *)
  rays_angle : Affine3d → Affine3d → Vector3d → double;
  (** [Eigen::Vector2d(x, y).norm()] *)
  norm2 : double → double → double;
  (** the coefficients of a default-constructed [Eigen::Vector3d] *)
  uninit_xyz : Vector3d;
  (** the coefficients of a freshly sized [Eigen::MatrixXd] column *)
  uninit_pix : Vector2d;
}.

Definition NUM_RIGID_PARAMS : Z := 7.

(** [&vec[NUM_RIGID_PARAMS * index]] read as a block of seven doubles. *)
Definition rigid_block (vec : list double) (index : Z) : Result (list double) :=
  if index <? 0 then Undefined
  else
    let blk := take 7 (drop (Z.to_nat (NUM_RIGID_PARAMS * index)) vec) in
    if (length blk =? 7)%nat then Ok blk else Undefined.

(** A block of seven doubles written at [&vec[NUM_RIGID_PARAMS * index]]. *)
Definition write_rigid_block (vec : list double) (index : Z) (blk : list double)
  : Result (list double) :=
  if index <? 0 then Undefined
  else
    let start := Z.to_nat (NUM_RIGID_PARAMS * index) in
    if (length blk =? 7)%nat && (start + 7 <=? length vec)%nat
    then Ok (take start vec ++ blk ++ drop (start + 7) vec)
    else Undefined.

(** ** Maps indexed by track, image and feature *)

(** [std::vector<std::map<int, std::map<int, T>>>] *)
Definition PidCidFid (T : Type) : Type := list (gmap Z (gmap Z T)).

(** Iteration over a [std::map<int, int>] visits the keys in increasing
    order. *)
Definition key_le : relation (Z * Z) := λ a b, a.1 ≤ b.1.

#[export] Instance key_le_dec : RelDecision key_le.
Proof. intros a b. unfold key_le. apply _. Defined.

Definition map_items (m : gmap Z Z) : list (Z * Z) :=
  merge_sort key_le (map_to_list m).

Definition lookup3 {T} (m : PidCidFid T) (pid : nat) (cid fid : Z) : option T :=
  m !! pid ≫= λ cid_fid_map, cid_fid_map !! cid ≫= λ fid_map, fid_map !! fid.

Definition getMapValue {T} (pid_cid_fid : PidCidFid T) (pid : nat) (cid fid : Z)
  : Result T :=
  match pid_cid_fid !! pid with
  | None => Fatal "Current pid is out of range."
  | Some cid_fid_map =>
      match cid_fid_map !! cid with
      | None => Fatal "Current cid it out of range."
      | Some fid_map =>
          match fid_map !! fid with
          | None => Fatal "Current fid is out of range."
          | Some v => Ok v
          end
      end
  end.

Definition setMapValue (pid_cid_fid : PidCidFid Z) (pid : nat) (cid fid : Z) (val : Z)
  : Result (PidCidFid Z) :=
  match pid_cid_fid !! pid with
  | None => Fatal "Current pid is out of range."
  | Some cid_fid_map =>
      match cid_fid_map !! cid with
      | None => Fatal "Current cid it out of range."
      | Some fid_map =>
          match fid_map !! fid with
          | None => Fatal "Current fid is out of range."
          | Some _ =>
              Ok (<[pid := <[cid := <[fid := val]> fid_map]> cid_fid_map]> pid_cid_fid)
          end
      end
  end.

(** [pid_cid_fid[pid][cid][fid] = val] through [operator[]], which creates
    the inner maps that are missing; [pid] past the end is undefined. *)
Definition assignMapValue (pid_cid_fid : PidCidFid Z) (pid : nat) (cid fid : Z) (val : Z)
  : Result (PidCidFid Z) :=
  match pid_cid_fid !! pid with
  | None => Undefined
  | Some cid_fid_map =>
      let fid_map := default ∅ (cid_fid_map !! cid) in
      Ok (<[pid := <[cid := <[fid := val]> fid_map]> cid_fid_map]> pid_cid_fid)
  end.

(** [v.resize(n)] with value-initialized new elements. *)
Definition resize {A} (n : nat) (d : A) (v : list A) : list A :=
  take n v ++ replicate (n - length v) d.

(** A loop over the entries of a list with a state that each step may
    abandon. *)
Fixpoint foldM {A S} (f : S → A → Result S) (s : S) (l : list A) : Result S :=
  match l with
  | [] => Ok s
  | a :: l' => f s a ≫= λ s', foldM f s' l'
  end.

(** [keypoint_vec[cid][fid]] as an [Eigen::Vector2d]. *)
Definition keypoint_at (keypoint_vec : list (list Vector2d)) (cid fid : Z)
  : Result Vector2d :=
  vec_at keypoint_vec cid ≫= λ kps, vec_at kps fid.

(** [cam_params[cams[cid].camera_type]] *)
Definition cam_params_of (cam_params : list CameraParameters)
    (cams : list cameraImage) (cid : Z) : Result CameraParameters :=
  vec_at cams cid ≫= λ cam, vec_at cam_params (camera_type cam).

(** [v[i] = a] on a [std::vector]: undefined past the end. *)
Definition vec_set {A} (v : list A) (i : Z) (a : A) : Result (list A) :=
  if i <? 0 then Undefined
  else if (Z.to_nat i <? length v)%nat then Ok (<[Z.to_nat i := a]> v)
  else Undefined.

(** The tracks with their indices, as the loops over [pid] meet them. *)
Definition indexed {A} (v : list A) : list (nat * A) := zip (seq 0 (length v)) v.

(** Every feature of track [pid] becomes an outlier. *)
Definition set_track_outliers (pid_cid_fid_inlier : PidCidFid Z) (pid : nat)
    (track : gmap Z Z) : Result (PidCidFid Z) :=
  foldM (λ mask '(cid, fid), setMapValue mask pid cid fid 0)
        pid_cid_fid_inlier (map_items track).

(** ** interest_point.cc *)

Module InterestPoint.
Section WithExternals.
Context `{Externals}.

(** Triangulate n rays emanating from given undistorted and centered
    pixels. *)
Definition Triangulate (focal_length_vec : list double)
    (world_to_cam_vec : list Affine3d) (pix_vec : list Vector2d) : Result Vector3d :=
  if negb (length focal_length_vec =? length world_to_cam_vec)%nat
     || negb (length focal_length_vec =? length pix_vec)%nat
  then Fatal "All inputs to Triangulate() must have the same size."
  else if (length focal_length_vec <=? 1)%nat
  then Fatal "At least two rays must be passed to Triangulate()."
  else Ok (tri_compute (zip (zip focal_length_vec world_to_cam_vec) pix_vec)).

(** The body of the loop that gathers the rays of the inliers of a track. *)
Definition add_ray (cam_params : list CameraParameters) (cams : list cameraImage)
    (world_to_cam : list Affine3d) (keypoint_vec : list (list Vector2d))
    (pid_cid_fid_inlier : PidCidFid Z) (pid : nat)
    (acc : list double * list Affine3d * list Vector2d) (cid_fid : Z * Z)
  : Result (list double * list Affine3d * list Vector2d) :=
  let '(cid, fid) := cid_fid in
  getMapValue pid_cid_fid_inlier pid cid fid ≫= λ inlier,
  if inlier =? 0 then Ok acc
  else
    keypoint_at keypoint_vec cid fid ≫= λ dist_ip,
    cam_params_of cam_params cams cid ≫= λ cp,
    let undist_ip := Convert_DISTORTED_UNDISTORTED_C cp dist_ip in
    vec_at world_to_cam cid ≫= λ w,
    let '(focal_length_vec, world_to_cam_aff_vec, pix_vec) := acc in
    Ok (focal_length_vec ++ [GetFocalLength cp], world_to_cam_aff_vec ++ [w],
        pix_vec ++ [undist_ip]).

Definition bad_xyz (xyz : Vector3d) : bool :=
  let '(x, y, z) := xyz in
  (Fp.isinf x || Fp.isnan x) || (Fp.isinf y || Fp.isnan y) || (Fp.isinf z || Fp.isnan z).

(** One iteration of the loop over [pid]. *)
Definition triangulate_track (cam_params : list CameraParameters)
    (cams : list cameraImage) (world_to_cam : list Affine3d)
    (keypoint_vec : list (list Vector2d))
    (st : PidCidFid Z * list Vector3d) (pid_track : nat * gmap Z Z)
  : Result (PidCidFid Z * list Vector3d) :=
  let '(pid_cid_fid_inlier, xyz_vec) := st in
  let '(pid, track) := pid_track in
  foldM (add_ray cam_params cams world_to_cam keypoint_vec pid_cid_fid_inlier pid)
        ([], [], []) (map_items track) ≫= λ '(focal_length_vec, world_to_cam_aff_vec, pix_vec),
  if (length pix_vec <? 2)%nat then
    set_track_outliers pid_cid_fid_inlier pid track ≫= λ mask, Ok (mask, xyz_vec)
  else
    Triangulate focal_length_vec world_to_cam_aff_vec pix_vec ≫= λ xyz,
    let xyz_vec := <[pid := xyz]> xyz_vec in
    if bad_xyz xyz then
      set_track_outliers pid_cid_fid_inlier pid track ≫= λ mask, Ok (mask, xyz_vec)
    else Ok (pid_cid_fid_inlier, xyz_vec).

Definition multiViewTriangulation (cam_params : list CameraParameters)
    (cams : list cameraImage) (world_to_cam : list Affine3d)
    (pid_to_cid_fid : list (gmap Z Z)) (keypoint_vec : list (list Vector2d))
    (pid_cid_fid_inlier : PidCidFid Z)
  : Result (PidCidFid Z * list Vector3d) :=
  let xyz_vec := resize (length pid_to_cid_fid) uninit_xyz [] in
  foldM (triangulate_track cam_params cams world_to_cam keypoint_vec)
        (pid_cid_fid_inlier, xyz_vec) (indexed pid_to_cid_fid).

(** The content of an NVM file.  A camera line holds the file name, the
    focal length, and the rotation quaternion and camera centre that Eigen
    derives from the world-to-camera transform kept here. *)
Record NvmCamera : Type := {
  nvm_filename : string;
  nvm_focal : double;
  nvm_cam_t_global : Affine3d;
}.

Record NvmMeasure : Type := {
  m_cid : Z;
  m_fid : Z;
  m_pix : Vector2d;
}.

Record NvmPoint : Type := {
  pt_xyz : Vector3d;
  pt_measures : list NvmMeasure;
}.

Record NvmFile : Type := {
  nvm_cameras : list NvmCamera;
  nvm_points : list NvmPoint;
}.

(** [CHECK(cond) << msg] *)
Definition CHECK (cond : bool) (msg : string) : Result unit :=
  fatal_if (negb cond) msg.

(** Write an nvm file. *)
Definition WriteNVM (cid_to_keypoint_map : list (list Vector2d))
    (cid_to_filename : list string) (focal_lengths : list double)
    (pid_to_cid_fid : list (gmap Z Z)) (pid_to_xyz : list Vector3d)
    (cid_to_cam_t_global : list Affine3d) : Result NvmFile :=
  CHECK (length cid_to_filename =? length cid_to_keypoint_map)%nat
    "Unequal number of filenames and keypoints" ≫= λ _,
  CHECK (length pid_to_cid_fid =? length pid_to_xyz)%nat
    "Unequal number of pid_to_cid_fid and xyz measurements" ≫= λ _,
  CHECK (length cid_to_filename =? length cid_to_cam_t_global)%nat
    "Unequal number of filename and camera transforms" ≫= λ _,
  foldM (λ cameras '(cid, filename),
           vec_at focal_lengths (Z.of_nat cid) ≫= λ focal,
           vec_at cid_to_cam_t_global (Z.of_nat cid) ≫= λ t,
           Ok (cameras ++ [ {| nvm_filename := filename; nvm_focal := focal;
                               nvm_cam_t_global := t |} ]))
        [] (indexed cid_to_filename) ≫= λ cameras,
  foldM (λ points '(pid, track),
           vec_at pid_to_xyz (Z.of_nat pid) ≫= λ xyz,
           CHECK (1 <? size track)%nat "PID has too few measurements" ≫= λ _,
           foldM (λ measures '(cid, fid),
                    vec_at cid_to_keypoint_map cid ≫= λ kps,
                    vec_at kps fid ≫= λ pix,
                    Ok (measures ++ [ {| m_cid := cid; m_fid := fid; m_pix := pix |} ]))
                 [] (map_items track) ≫= λ measures,
           Ok (points ++ [ {| pt_xyz := xyz; pt_measures := measures |} ]))
        [] (indexed pid_to_cid_fid) ≫= λ points,
  Ok {| nvm_cameras := cameras; nvm_points := points |}.

(** [v.at(i)]: throws [std::out_of_range], which nothing catches. *)
Definition vec_at_checked {A} (v : list A) (i : Z) : Result A :=
  if i <? 0 then Fatal "std::out_of_range"
  else match v !! Z.to_nat i with
       | Some a => Ok a
       | None => Fatal "std::out_of_range"
       end.

(** What [writeNvm] gathers while it copies the inliers: the keypoints per
    image, the number of features kept per image, and the feature of each
    image in the track at hand. *)
Definition NvmAcc : Type := list (list Vector2d) * list Z * gmap Z Z.

(** The body of the loop over the features of one track. *)
Definition nvm_add_inlier (cam_params : list CameraParameters)
    (cams : list cameraImage) (keypoint_vec : list (list Vector2d))
    (pid_cid_fid_inlier : PidCidFid Z) (pid : nat)
    (acc : NvmAcc) (cid_fid : Z * Z) : Result NvmAcc :=
  let '(cid_to_keypoint_map, fid_count, nvm_cid_fid) := acc in
  let '(cid, fid) := cid_fid in
  getMapValue pid_cid_fid_inlier pid cid fid ≫= λ inlier,
  if inlier =? 0 then Ok acc
  else
    keypoint_at keypoint_vec cid fid ≫= λ dist_ip,
    cam_params_of cam_params cams cid ≫= λ cp,
    let offset := GetOpticalOffset cp in
    let dist_ip := (Fp.sub dist_ip.1 offset.1, Fp.sub dist_ip.2 offset.2) in
    vec_at_checked cid_to_keypoint_map cid ≫= λ kps,
    vec_at fid_count cid ≫= λ count,
    vec_set kps count dist_ip ≫= λ kps,
    vec_set cid_to_keypoint_map cid kps ≫= λ cid_to_keypoint_map,
    let nvm_cid_fid := <[cid := count]> nvm_cid_fid in
    (if count + 1 <=? Fp.int_max then vec_set fid_count cid (count + 1)
     else Undefined) ≫= λ fid_count,
    Ok (cid_to_keypoint_map, fid_count, nvm_cid_fid).

(** The body of the loop over the tracks. *)
Definition nvm_add_track (cam_params : list CameraParameters)
    (cams : list cameraImage) (keypoint_vec : list (list Vector2d))
    (pid_cid_fid_inlier : PidCidFid Z) (xyz_vec : list Vector3d)
    (acc : list (list Vector2d) * list Z * list (gmap Z Z) * list Vector3d)
    (pid_track : nat * gmap Z Z)
  : Result (list (list Vector2d) * list Z * list (gmap Z Z) * list Vector3d) :=
  let '(cid_to_keypoint_map, fid_count, nvm_pid_to_cid_fid, nvm_pid_to_xyz) := acc in
  let '(pid, track) := pid_track in
  foldM (nvm_add_inlier cam_params cams keypoint_vec pid_cid_fid_inlier pid)
        (cid_to_keypoint_map, fid_count, ∅) (map_items track)
    ≫= λ '(cid_to_keypoint_map, fid_count, nvm_cid_fid),
  if (2 <? size nvm_cid_fid)%nat then
    vec_at xyz_vec (Z.of_nat pid) ≫= λ xyz,
    Ok (cid_to_keypoint_map, fid_count, nvm_pid_to_cid_fid ++ [nvm_cid_fid],
        nvm_pid_to_xyz ++ [xyz])
  else Ok (cid_to_keypoint_map, fid_count, nvm_pid_to_cid_fid, nvm_pid_to_xyz).

(** The tracks and triangulated points that [writeNvm] hands to
    [WriteNVM], with the keypoint table and feature counts. *)
Definition writeNvm_inliers (cam_params : list CameraParameters)
    (cams : list cameraImage) (keypoint_vec : list (list Vector2d))
    (pid_to_cid_fid : list (gmap Z Z)) (pid_cid_fid_inlier : PidCidFid Z)
    (xyz_vec : list Vector3d)
  : Result (list (list Vector2d) * list Z * list (gmap Z Z) * list Vector3d) :=
  let cid_to_keypoint_map :=
    map (λ kps : list Vector2d, replicate (length kps) uninit_pix) keypoint_vec in
  let fid_count := replicate (length keypoint_vec) 0 in
  foldM (nvm_add_track cam_params cams keypoint_vec pid_cid_fid_inlier xyz_vec)
        (cid_to_keypoint_map, fid_count, [], []) (indexed pid_to_cid_fid).

(** Write the inliers in nvm format. The keypoints are shifted relative to
    the optical center. *)
Definition writeNvm (cam_params : list CameraParameters)
    (cams : list cameraImage) (world_to_cam : list Affine3d)
    (keypoint_vec : list (list Vector2d)) (pid_to_cid_fid : list (gmap Z Z))
    (pid_cid_fid_inlier : PidCidFid Z) (xyz_vec : list Vector3d) : Result NvmFile :=
  fatal_if (negb (length world_to_cam =? length cams)%nat)
    "Expecting as many world-to-camera transforms as cameras." ≫= λ _,
  fatal_if (negb (length world_to_cam =? length keypoint_vec)%nat)
    "Expecting as many sets of keypoints as cameras." ≫= λ _,
  fatal_if (negb (length pid_to_cid_fid =? length pid_cid_fid_inlier)%nat)
    "Expecting as many inlier flags as there are tracks." ≫= λ _,
  fatal_if (negb (length pid_to_cid_fid =? length xyz_vec)%nat)
    "Expecting as many tracks as there are triangulated points." ≫= λ _,
  let cid_to_filename := map image_name cams in
  foldM (λ focal_lengths cid,
           cam_params_of cam_params cams (Z.of_nat cid) ≫= λ cp,
           Ok (focal_lengths ++ [GetFocalLength cp]))
        [] (seq 0 (length cams)) ≫= λ focal_lengths,
  writeNvm_inliers cam_params cams keypoint_vec pid_to_cid_fid pid_cid_fid_inlier
    xyz_vec ≫= λ '(cid_to_keypoint_map, fid_count, nvm_pid_to_cid_fid, nvm_pid_to_xyz),
  let cid_to_keypoint_map :=
    zip_with (λ (kps : list Vector2d) (count : Z), take (Z.to_nat count) kps)
      cid_to_keypoint_map fid_count in
  WriteNVM cid_to_keypoint_map cid_to_filename focal_lengths nvm_pid_to_cid_fid
    nvm_pid_to_xyz world_to_cam.

(** [int32_t(x)] on a [float]: the value truncated toward zero; the
    conversion is defined only when that value is an [int32_t]. *)
Definition float_to_int32 (x : double) : Result Z :=
  match x with
  | S754_zero _ => Ok 0
  | S754_finite s m e =>
      let n := if 0 <=? e then Zpos m * 2 ^ e else Zpos m / 2 ^ (- e) in
      let n := if s then - n else n in
      if (Fp.int_min <=? n) && (n <=? Fp.int_max) then Ok n else Undefined
  | _ => Undefined
  end.

(** [struct InterestPoint] as [InterestPoint(x, y)] builds it: the subpixel
    location and its integer part; the other members take their default
    values. *)
Record InterestPoint : Type := {
  ip_x : double;
  ip_y : double;
  ip_ix : Z;
  ip_iy : Z;
}.

Definition make_InterestPoint (x y : double) : Result InterestPoint :=
  float_to_int32 x ≫= λ ix,
  float_to_int32 y ≫= λ iy,
  Ok {| ip_x := x; ip_y := y; ip_ix := ix; ip_iy := iy |}.

Definition MATCH_PAIR : Type := list InterestPoint * list InterestPoint.

(** [std::map<std::pair<int, int>, MATCH_PAIR>] *)
Definition MATCH_MAP : Type := gmap (Z * Z) MATCH_PAIR.

(** Iteration over a [MATCH_MAP] visits the pairs of images in
    lexicographic order. *)
Definition pair_le : relation ((Z * Z) * MATCH_PAIR) :=
  λ a b, a.1.1 < b.1.1 ∨ (a.1.1 = b.1.1 ∧ a.1.2 ≤ b.1.2).

#[export] Instance pair_le_dec : RelDecision pair_le.
Proof. intros a b. unfold pair_le. apply _. Defined.

Definition match_items (m : MATCH_MAP) : list ((Z * Z) * MATCH_PAIR) :=
  merge_sort pair_le (map_to_list m).

(** [a + b] on [int]: undefined when it overflows. *)
Definition int_add (a b : Z) : Result Z :=
  if (Fp.int_min <=? a + b) && (a + b <=? Fp.int_max) then Ok (a + b) else Undefined.

(** The body of the innermost loop of [saveInlinerMatchPairs], which is the
    same text in interest_point.cc and in rig_calibrator.cc but for the test
    [is_good]. *)
Definition add_match (is_good : Z → Z → Result bool)
    (keypoint_vec : list (list Vector2d)) (pid_cid_fid_inlier : PidCidFid Z)
    (pid : nat) (cid_fid1 : Z * Z) (matches : MATCH_MAP) (cid_fid2 : Z * Z)
  : Result MATCH_MAP :=
  let '(cid1, fid1) := cid_fid1 in
  let '(cid2, fid2) := cid_fid2 in
  is_good cid1 cid2 ≫= λ good,
  if negb good then Ok matches
  else
    getMapValue pid_cid_fid_inlier pid cid1 fid1 ≫= λ inlier1,
    (if inlier1 =? 0 then Ok true
     else getMapValue pid_cid_fid_inlier pid cid2 fid2 ≫= λ inlier2,
          Ok (inlier2 =? 0)) ≫= λ skip,
    if skip : bool then Ok matches
    else
      keypoint_at keypoint_vec cid1 fid1 ≫= λ kp1,
      make_InterestPoint kp1.1 kp1.2 ≫= λ ip1,
      keypoint_at keypoint_vec cid2 fid2 ≫= λ kp2,
      make_InterestPoint kp2.1 kp2.2 ≫= λ ip2,
      let match_pair := default ([], []) (matches !! (cid1, cid2)) in
      Ok (<[(cid1, cid2) := (match_pair.1 ++ [ip1], match_pair.2 ++ [ip2])]> matches).

(** The first loop of [saveInlinerMatchPairs]: the matches between inlier
    features of a track, per pair of images. *)
Definition gather_matches (is_good : Z → Z → Result bool)
    (pid_to_cid_fid : list (gmap Z Z)) (keypoint_vec : list (list Vector2d))
    (pid_cid_fid_inlier : PidCidFid Z) : Result MATCH_MAP :=
  foldM (λ matches '(pid, track),
           foldM (λ matches cid_fid1,
                    foldM (add_match is_good keypoint_vec pid_cid_fid_inlier pid cid_fid1)
                          matches (map_items track))
                 matches (map_items track))
        ∅ (indexed pid_to_cid_fid).

(** What [boost::filesystem::path(image).parent_path().stem().string()] and
    [boost::filesystem::path(image).stem().string()] return. *)
Context (path_parent_stem path_stem : string → string).

(** Form the match file name. Assume the input images are of the form
    cam_name/image.jpg. *)
Definition matchFileName (match_dir left_image right_image suffix : string)
  : Result string :=
  let left_cam_name := path_parent_stem left_image in
  let right_cam_name := path_parent_stem right_image in
  fatal_if (String.eqb left_cam_name "" || String.eqb right_cam_name "")
    "The image name must have the form cam_name/image." ≫= λ _,
  let left_stem := path_stem left_image in
  let right_stem := path_stem right_image in
  Ok (match_dir +:+ "/" +:+ left_cam_name +:+ "-" +:+ left_stem +:+ "__"
      +:+ right_cam_name +:+ "-" +:+ right_stem +:+ suffix +:+ ".match").

(** The test of the copy in interest_point.cc: when [num_overlaps] is 0
    every pair of images of a track is taken. *)
Definition is_good (num_overlaps cid1 cid2 : Z) : Result bool :=
  if cid1 <? cid2 then
    if num_overlaps =? 0 then Ok true
    else
      int_add cid1 num_overlaps ≫= λ s,
      int_add s 1 ≫= λ bound,
      Ok (cid2 <? bound)
  else Ok false.

(** Given all the merged and filtered tracks, for each image pair save the
    matches of this pair which occur in the set of tracks.  The result is
    the sequence of calls to [writeMatchFile]: the file name and the two
    vectors of interest points. *)
Definition saveInlinerMatchPairs (cams : list cameraImage) (num_overlaps : Z)
    (pid_to_cid_fid : list (gmap Z Z)) (keypoint_vec : list (list Vector2d))
    (pid_cid_fid_inlier : PidCidFid Z) (out_dir : string)
  : Result (list (string * MATCH_PAIR)) :=
  gather_matches (is_good num_overlaps) pid_to_cid_fid keypoint_vec
    pid_cid_fid_inlier ≫= λ matches,
  foldM (λ files '((left_index, right_index), match_pair),
           let match_dir := out_dir +:+ "/matches" in
           vec_at cams left_index ≫= λ left,
           vec_at cams right_index ≫= λ right,
           matchFileName match_dir (image_name left) (image_name right) "-inliers"
             ≫= λ match_file,
           Ok (files ++ [(match_file, match_pair)]))
        [] (match_items matches).

(** [size_t] arithmetic wraps, and so does the conversion of a [size_t] to
    an [int]. *)
Definition size_t_wrap (n : Z) : Z := n mod 2 ^ 64.
Definition int_wrap (n : Z) : Z := (n + 2 ^ 31) mod 2 ^ 32 - 2 ^ 31.

(** The pairs of images that [detectMatchFeatures] hands to the matcher:
    [for (size_t it1 = 0; it1 < cams.size(); it1++)
       for (size_t it2 = it1 + 1;
            it2 < std::min(cams.size(), it1 + num_overlaps + 1); it2++)
         image_pairs.push_back(std::make_pair(it1, it2));] *)
Definition image_pairs (num_cams : nat) (num_overlaps : Z) : list (Z * Z) :=
  flat_map (λ it1 : nat,
              let first := Z.of_nat it1 + 1 in
              let bound :=
                Z.min (Z.of_nat num_cams)
                      (size_t_wrap (size_t_wrap (Z.of_nat it1 + size_t_wrap num_overlaps) + 1)) in
              map (λ it2, (int_wrap (Z.of_nat it1), int_wrap it2))
                  (seqZ first (bound - first)))
           (seq 0 num_cams).

(** What [openMVG::Triangulation::minDepth] returns after [compute] on the
    rays added. *)
Context (tri_minDepth : list (double * Affine3d * Vector2d) → double).

(** The rays of a track: [tri.add(cid_to_p[cid], cid_to_keypoint_map[cid].col(fid))]
    for each of its features, with the one focal length of the map. *)
Definition track_rays (focal_length : double) (cid_to_cam_t_global : list Affine3d)
    (cid_to_keypoint_map : list (list Vector2d)) (track : gmap Z Z)
  : Result (list (double * Affine3d * Vector2d)) :=
  foldM (λ rays '(cid, fid),
           vec_at cid_to_cam_t_global cid ≫= λ t,
           keypoint_at cid_to_keypoint_map cid fid ≫= λ pix,
           Ok (rays ++ [(focal_length, t, pix)]))
        [] (map_items track).

(** [v.at(i) = a] *)
Definition vec_set_checked {A} (v : list A) (i : Z) (a : A) : Result (list A) :=
  if i <? 0 then Fatal "std::out_of_range"
  else if (Z.to_nat i <? length v)%nat then Ok (<[Z.to_nat i := a]> v)
  else Fatal "std::out_of_range".

(** [Triangulate(rm_invalid_xyz, focal_length, cid_to_cam_t_global,
    cid_to_keypoint_map, pid_to_cid_fid, pid_to_xyz)]: triangulate every
    track, from the last to the first, and with [rm_invalid_xyz] erase the
    tracks whose point is invalid. *)
Definition Triangulate_tracks (rm_invalid_xyz : bool) (focal_length : double)
    (cid_to_cam_t_global : list Affine3d) (cid_to_keypoint_map : list (list Vector2d))
    (pid_to_cid_fid : list (gmap Z Z)) (pid_to_xyz : list Vector3d)
  : Result (list (gmap Z Z) * list Vector3d) :=
  let pid_to_xyz := resize (length pid_to_cid_fid) uninit_xyz pid_to_xyz in
  foldM (λ '(pid_to_cid_fid, pid_to_xyz) pid,
           vec_at_checked pid_to_cid_fid (Z.of_nat pid) ≫= λ track,
           track_rays focal_length cid_to_cam_t_global cid_to_keypoint_map track
             ≫= λ rays,
           let solution := tri_compute rays in
           if rm_invalid_xyz
              && (Fp.isnan solution.1.1 || Fp.ltb (tri_minDepth rays) (Fp.of_int 0))
           then Ok (delete pid pid_to_cid_fid, delete pid pid_to_xyz)
           else
             vec_set_checked pid_to_xyz (Z.of_nat pid) solution ≫= λ pid_to_xyz,
             Ok (pid_to_cid_fid, pid_to_xyz))
        (pid_to_cid_fid, pid_to_xyz) (reverse (seq 0 (length pid_to_cid_fid))).

End WithExternals.
End InterestPoint.

(** ** rig_calibrator.cc *)

Module RigCalibrator.
Section WithExternals.
Context `{Externals}.

(** A [const double*] into a parameter vector: the vector and the index of
    the block of [NUM_RIGID_PARAMS] doubles it points to. *)
Definition rigid_ptr : Type := list double * Z.

Definition read_rigid (p : rigid_ptr) : Result Affine3d :=
  rigid_block p.1 p.2 ≫= λ blk, Ok (array_to_rigid_transform blk).

(** The interpolation parameter, with the timestamps subtracted from each
    other first. *)
Definition interp_alpha (beg_ref_stamp end_ref_stamp ref_to_cam_offset cam_stamp : double)
  : double :=
  Fp.div (Fp.sub (Fp.sub cam_stamp beg_ref_stamp) ref_to_cam_offset)
         (Fp.sub end_ref_stamp beg_ref_stamp).

(** Calculate interpolated world to camera transform. *)
Definition calc_world_to_cam_trans (beg_world_to_ref_t end_world_to_ref_t
    ref_to_cam_trans : rigid_ptr)
    (beg_ref_stamp end_ref_stamp ref_to_cam_offset cam_stamp : double)
  : Result Affine3d :=
  read_rigid beg_world_to_ref_t ≫= λ beg_world_to_ref_aff,
  if Fp.eqb beg_ref_stamp end_ref_stamp then Ok beg_world_to_ref_aff
  else
    read_rigid end_world_to_ref_t ≫= λ end_world_to_ref_aff,
    read_rigid ref_to_cam_trans ≫= λ ref_to_cam_aff,
    let alpha := interp_alpha beg_ref_stamp end_ref_stamp ref_to_cam_offset cam_stamp in
    if Fp.ltb alpha Fp.zero || Fp.gtb alpha Fp.one
    then Fatal "Out of bounds in interpolation."
    else
      let interp_world_to_ref_aff :=
        linearInterp alpha beg_world_to_ref_aff end_world_to_ref_aff in
      Ok (affine_mul ref_to_cam_aff interp_world_to_ref_aff).

(** Compute the transforms from the world to every camera, using pose
    interpolation if necessary.  The output is resized to [cams.size()] and
    each of its slots is assigned in turn, so it is built here in that
    order. *)
Definition calc_world_to_cam_transforms_rig (cams : list cameraImage)
    (world_to_ref_vec ref_timestamps ref_to_cam_vec
     ref_to_cam_timestamp_offsets : list double) : Result (list Affine3d) :=
  fatal_if (negb (Z.of_nat (length ref_to_cam_vec) / NUM_RIGID_PARAMS
                  =? Z.of_nat (length ref_to_cam_timestamp_offsets)))
           "Must have as many transforms to reference as timestamp offsets." ≫= λ _,
  fatal_if (negb (Z.of_nat (length world_to_ref_vec) / NUM_RIGID_PARAMS
                  =? Z.of_nat (length ref_timestamps)))
           "Must have as many reference timestamps as reference cameras." ≫= λ _,
  foldM (λ world_to_cam cam,
           let beg_index := beg_ref_index cam in
           let end_index := end_ref_index cam in
           let cam_type := camera_type cam in
           vec_at ref_timestamps beg_index ≫= λ beg_ref_stamp,
           vec_at ref_timestamps end_index ≫= λ end_ref_stamp,
           vec_at ref_to_cam_timestamp_offsets cam_type ≫= λ offset,
           calc_world_to_cam_trans (world_to_ref_vec, beg_index)
             (world_to_ref_vec, end_index) (ref_to_cam_vec, cam_type)
             beg_ref_stamp end_ref_stamp offset (timestamp cam) ≫= λ t,
           Ok (world_to_cam ++ [t]))
        [] cams.

(** Calculate world_to_cam transforms from their representation in a
    vector; only for use with --no_extrinsics.  The output vector keeps the
    size it came with. *)
Definition calc_world_to_cam_no_extrinsics (cams : list cameraImage)
    (world_to_cam_vec : list double) (world_to_cam : list Affine3d)
  : Result (list Affine3d) :=
  fatal_if (negb (Z.of_nat (length world_to_cam_vec)
                  =? Z.of_nat (length cams) * NUM_RIGID_PARAMS))
           "Incorrect size for world_to_cam_vec." ≫= λ _,
  foldM (λ world_to_cam cid,
           read_rigid (world_to_cam_vec, Z.of_nat cid) ≫= λ t,
           vec_set world_to_cam (Z.of_nat cid) t)
        world_to_cam (seq 0 (length cams)).

(** Use one of the two implementations above. *)
Definition calc_world_to_cam_transforms (no_extrinsics : bool)
    (cams : list cameraImage)
    (world_to_ref_vec ref_timestamps ref_to_cam_vec world_to_cam_vec
     ref_to_cam_timestamp_offsets : list double) (world_to_cam : list Affine3d)
  : Result (list Affine3d) :=
  if negb no_extrinsics then
    calc_world_to_cam_transforms_rig cams world_to_ref_vec ref_timestamps
      ref_to_cam_vec ref_to_cam_timestamp_offsets
  else calc_world_to_cam_no_extrinsics cams world_to_cam_vec world_to_cam.


(** [cv::Mat] holding a depth cloud: a grid of [cv::Vec3f], whose
    coefficients convert to [double] exactly. *)
Record Mat : Type := {
  rows : Z;
  cols : Z;
  data : list (list Vector3d);
}.

(** [depth_cloud.at<cv::Vec3f>(row, col)] *)
Definition mat_at (m : Mat) (row col : Z) : Result Vector3d :=
  vec_at (data m) row ≫= λ r, vec_at r col.

Definition vec3_eqb (a b : Vector3d) : bool :=
  let '(ax, ay, az) := a in
  let '(bx, by_, bz) := b in
  Fp.eqb ax bx && Fp.eqb ay by_ && Fp.eqb az bz.

Definition zero3 : Vector3d := (Fp.zero, Fp.zero, Fp.zero).

(** Find the haz cam depth measurement. Use nearest neighbor interpolation
    to look into the depth cloud.  Returns the [bool] and [depth_xyz]. *)
Definition depthValue (depth_cloud : Mat) (dist_ip : Vector2d)
  : Result (bool * Vector3d) :=
  let depth_xyz := zero3 in
  if (cols depth_cloud =? 0) && (rows depth_cloud =? 0) then Ok (false, depth_xyz)
  else
    Fp.round_to_int dist_ip.1 ≫= λ col,
    Fp.round_to_int dist_ip.2 ≫= λ row,
    if (col <? 0) || (row <? 0) || (cols depth_cloud <? col) || (rows depth_cloud <? row)
    then Fatal "Out of range in depth cloud."
    else if (col =? cols depth_cloud) || (row =? rows depth_cloud)
    then Ok (false, depth_xyz)
    else
      mat_at depth_cloud row col ≫= λ cv_depth_xyz,
      if vec3_eqb cv_depth_xyz zero3 then Ok (false, depth_xyz)
      else Ok (true, cv_depth_xyz).

(** The command-line flags the modelled code reads. *)
Record Flags : Type := {
  ros_bag : string;
  sparse_map : string;
  output_map : string;
  num_overlaps : Z;
  robust_threshold : double;
  num_iterations : Z;
  bracket_len : double;
  nav_cam_intrinsics_to_float : string;
  float_scale : bool;
  float_sparse_map : bool;
  float_timestamp_offsets : bool;
  nav_cam_num_exclude_boundary_pixels : Z;
  timestamp_offsets_max_change : double;
  depth_tri_weight : double;
  mesh_tri_weight : double;
  depth_mesh_weight : double;
  affine_depth_to_image : bool;
  refiner_num_passes : Z;
  max_reprojection_error : double;
  refiner_min_angle : double;
  registration : bool;
  hugin_file : string;
  xyz_file : string;
  no_extrinsics : bool;
  float_nonref_cameras : bool;
  out_dir : string;
  save_images_and_depth_clouds : bool;
  rig_config : string;
  image_list : string;
  save_matches : bool;
}.

Definition str_empty (s : string) : bool := String.eqb s "".

(** [parameterValidation]; [HAVE_ASTROBEE] is the preprocessor switch. *)
Definition parameterValidation (HAVE_ASTROBEE : bool) (FLAGS : Flags) : Result unit :=
  (if HAVE_ASTROBEE then
     fatal_if (str_empty (ros_bag FLAGS)) "The bag file was not specified." ≫= λ _,
     fatal_if (str_empty (sparse_map FLAGS)) "The input sparse map was not specified." ≫= λ _,
     fatal_if (str_empty (output_map FLAGS)) "The output sparse map was not specified."
   else Ok tt) ≫= λ _,
  fatal_if (Fp.leb (robust_threshold FLAGS) Fp.zero)
    "The robust threshold must be positive." ≫= λ _,
  fatal_if (Fp.leb (bracket_len FLAGS) Fp.zero)
    "Bracket length must be positive." ≫= λ _,
  fatal_if (num_overlaps FLAGS <? 1)
    "Number of overlaps must be positive." ≫= λ _,
  fatal_if (Fp.ltb (timestamp_offsets_max_change FLAGS) (Fp.of_int 0))
    "The timestamp offsets must be non-negative." ≫= λ _,
  fatal_if (Fp.leb (refiner_min_angle FLAGS) Fp.zero)
    "The min triangulation angle must be positive." ≫= λ _,
  fatal_if (Fp.ltb (depth_tri_weight FLAGS) Fp.zero)
    "The depth weight must non-negative." ≫= λ _,
  fatal_if (Fp.ltb (mesh_tri_weight FLAGS) Fp.zero)
    "The mesh weight must non-negative." ≫= λ _,
  fatal_if (Fp.ltb (depth_mesh_weight FLAGS) Fp.zero)
    "The depth mesh weight must non-negative." ≫= λ _,
  fatal_if (nav_cam_num_exclude_boundary_pixels FLAGS <? 0)
    "Must have a non-negative value for --nav_cam_num_exclude_boundary_pixels." ≫= λ _,
  fatal_if (registration FLAGS && (str_empty (xyz_file FLAGS) || str_empty (hugin_file FLAGS)))
    "In order to register the map, the hugin and xyz file must be specified." ≫= λ _,
  fatal_if (float_scale FLAGS && affine_depth_to_image FLAGS)
    "The options --float_scale and --affine_depth_to_image should not be used together. If the latter is used, the scale is always floated." ≫= λ _,
  fatal_if (float_nonref_cameras FLAGS && negb (no_extrinsics FLAGS))
    "The option --float_nonref_cameras must be used only with --no_extrinsics." ≫= λ _,
  fatal_if (no_extrinsics FLAGS && float_timestamp_offsets FLAGS)
    "Cannot float timestamps with option --no_extrinsics." ≫= λ _,
  fatal_if (save_images_and_depth_clouds FLAGS && str_empty (out_dir FLAGS))
    "Cannot save images and clouds if no output directory was provided." ≫= λ _,
  fatal_if (save_matches FLAGS && str_empty (out_dir FLAGS))
    "Cannot save matches if no output directory was provided." ≫= λ _,
  (if negb HAVE_ASTROBEE then
     fatal_if (str_empty (rig_config FLAGS))
       "Must specify the initial rig configuration via --rig_config." ≫= λ _,
     fatal_if (str_empty (image_list FLAGS))
       "Must specify the image list via --image_list."
   else Ok tt).

(** The copy of [multiViewTriangulation] that this translation unit defines
    and that [main] below calls.  Its loop gathering the rays is the same
    text as in interest_point.cc. *)
Definition triangulate_track (cam_params : list CameraParameters)
    (cams : list cameraImage) (world_to_cam : list Affine3d)
    (keypoint_vec : list (list Vector2d))
    (st : PidCidFid Z * list Vector3d) (pid_track : nat * gmap Z Z)
  : Result (PidCidFid Z * list Vector3d) :=
  let '(pid_cid_fid_inlier, xyz_vec) := st in
  let '(pid, track) := pid_track in
  foldM (InterestPoint.add_ray cam_params cams world_to_cam keypoint_vec
           pid_cid_fid_inlier pid)
        ([], [], []) (map_items track) ≫= λ '(focal_length_vec, world_to_cam_aff_vec, pix_vec),
  if (length pix_vec <? 2)%nat then
    set_track_outliers pid_cid_fid_inlier pid track ≫= λ mask, Ok (mask, xyz_vec)
  else
    InterestPoint.Triangulate focal_length_vec world_to_cam_aff_vec pix_vec ≫= λ xyz,
    Ok (pid_cid_fid_inlier, <[pid := xyz]> xyz_vec).

Definition multiViewTriangulation (cam_params : list CameraParameters)
    (cams : list cameraImage) (world_to_cam : list Affine3d)
    (pid_to_cid_fid : list (gmap Z Z)) (keypoint_vec : list (list Vector2d))
    (pid_cid_fid_inlier : PidCidFid Z) (xyz_vec : list Vector3d)
  : Result (PidCidFid Z * list Vector3d) :=
  let xyz_vec := resize (length pid_to_cid_fid) uninit_xyz xyz_vec in
  foldM (triangulate_track cam_params cams world_to_cam keypoint_vec)
        (pid_cid_fid_inlier, xyz_vec) (indexed pid_to_cid_fid).

(** [size_t] arithmetic wraps. *)
Definition to_size_t (n : Z) : Z := n mod 2 ^ 64.

(** The body of the inner loop of [flagOutlierByExclusionDist]. *)
Definition exclusion_step (ref_cam_type nav_cam_num_exclude_boundary_pixels : Z)
    (cam_params : list CameraParameters) (cams : list cameraImage)
    (keypoint_vec : list (list Vector2d)) (pid : nat)
    (pid_cid_fid_inlier : PidCidFid Z) (cid_fid : Z * Z) : Result (PidCidFid Z) :=
  let '(cid, fid) := cid_fid in
  assignMapValue pid_cid_fid_inlier pid cid fid 1 ≫= λ mask,
  vec_at cams cid ≫= λ cam,
  if camera_type cam =? ref_cam_type then
    keypoint_at keypoint_vec cid fid ≫= λ dist_ip,
    vec_at cam_params (camera_type cam) ≫= λ cp,
    let dist_size := GetDistortedSize cp in
    let excl := nav_cam_num_exclude_boundary_pixels in
    if Fp.ltb dist_ip.1 (Fp.of_int excl)
       || Fp.gtb dist_ip.1 (Fp.of_int (dist_size.1 - 1 - excl))
       || Fp.ltb dist_ip.2 (Fp.of_int excl)
       || Fp.gtb dist_ip.2 (Fp.of_int (dist_size.2 - 1 - excl))
    then setMapValue mask pid cid fid 0
    else Ok mask
  else Ok mask.

Definition flagOutlierByExclusionDist (ref_cam_type nav_cam_num_exclude_boundary_pixels : Z)
    (cam_params : list CameraParameters) (cams : list cameraImage)
    (pid_to_cid_fid : list (gmap Z Z)) (keypoint_vec : list (list Vector2d))
    (pid_cid_fid_inlier : PidCidFid Z) : Result (PidCidFid Z) :=
  let mask := resize (length pid_to_cid_fid) ∅ pid_cid_fid_inlier in
  foldM (λ mask '(pid, track),
           foldM (exclusion_step ref_cam_type nav_cam_num_exclude_boundary_pixels
                    cam_params cams keypoint_vec pid)
                 mask (map_items track))
        mask (indexed pid_to_cid_fid).

(** The largest angle among any two intersecting rays of the inliers of
    track [pid]. *)
Definition max_rays_angle (world_to_cam : list Affine3d) (xyz_vec : list Vector3d)
    (pid_cid_fid_inlier : PidCidFid Z) (pid : nat) (track : gmap Z Z)
  : Result double :=
  foldM (λ max_angle '(cid1, fid1),
           getMapValue pid_cid_fid_inlier pid cid1 fid1 ≫= λ inlier1,
           if inlier1 =? 0 then Ok max_angle
           else
             vec_at world_to_cam cid1 ≫= λ w1,
             vec_at xyz_vec (Z.of_nat pid) ≫= λ xyz,
             foldM (λ max_angle '(cid2, fid2),
                      if cid2 <=? cid1 then Ok max_angle
                      else
                        getMapValue pid_cid_fid_inlier pid cid2 fid2 ≫= λ inlier2,
                        if inlier2 =? 0 then Ok max_angle
                        else
                          vec_at world_to_cam cid2 ≫= λ w2,
                          let curr_angle := rays_angle w1 w2 xyz in
                          if Fp.isnan curr_angle || Fp.isinf curr_angle
                          then Ok max_angle
                          else Ok (Fp.max max_angle curr_angle))
                   max_angle (map_items track))
        Fp.zero (map_items track).

(** The first loop of [flagOutliersByTriAngleAndReprojErr]: outliers by
    angle of convergence. *)
Definition flagOutliersByTriAngle (refiner_min_angle : double)
    (pid_to_cid_fid : list (gmap Z Z)) (world_to_cam : list Affine3d)
    (xyz_vec : list Vector3d) (pid_cid_fid_inlier : PidCidFid Z)
  : Result (PidCidFid Z) :=
  foldM (λ mask '(pid, track),
           max_rays_angle world_to_cam xyz_vec mask pid track ≫= λ max_angle,
           if Fp.geb max_angle refiner_min_angle then Ok mask
           else
             foldM (λ mask '(cid, fid),
                      getMapValue mask pid cid fid ≫= λ inlier,
                      if inlier =? 0 then Ok mask
                      else setMapValue mask pid cid fid 0)
                   mask (map_items track))
        pid_cid_fid_inlier (indexed pid_to_cid_fid).

(** The second loop: outliers by reprojection error. *)
Definition flagOutliersByReprojErr (max_reprojection_error : double)
    (pid_to_cid_fid : list (gmap Z Z))
    (pid_cid_fid_to_residual_index : PidCidFid Z) (residuals : list double)
    (pid_cid_fid_inlier : PidCidFid Z) : Result (PidCidFid Z) :=
  foldM (λ mask '(pid, track),
           foldM (λ mask '(cid, fid),
                    getMapValue mask pid cid fid ≫= λ inlier,
                    if inlier =? 0 then Ok mask
                    else
                      getMapValue pid_cid_fid_to_residual_index pid cid fid ≫= λ index,
                      let residual_index := to_size_t index in
                      fatal_if (Z.of_nat (length residuals) <=? to_size_t (residual_index + 1))
                        "Too few residuals." ≫= λ _,
                      vec_at residuals (to_size_t (residual_index + 0)) ≫= λ res_x,
                      vec_at residuals (to_size_t (residual_index + 1)) ≫= λ res_y,
                      let is_good := Fp.leb (norm2 res_x res_y) max_reprojection_error in
                      if negb is_good then setMapValue mask pid cid fid 0
                      else Ok mask)
                 mask (map_items track))
        pid_cid_fid_inlier (indexed pid_to_cid_fid).

(** Flag outliers by triangulation angle and reprojection error. *)
Definition flagOutliersByTriAngleAndReprojErr (refiner_min_angle max_reprojection_error : double)
    (pid_to_cid_fid : list (gmap Z Z)) (world_to_cam : list Affine3d)
    (xyz_vec : list Vector3d) (pid_cid_fid_to_residual_index : PidCidFid Z)
    (residuals : list double) (pid_cid_fid_inlier : PidCidFid Z)
  : Result (PidCidFid Z) :=
  flagOutliersByTriAngle refiner_min_angle pid_to_cid_fid world_to_cam xyz_vec
    pid_cid_fid_inlier ≫= λ mask,
  flagOutliersByReprojErr max_reprojection_error pid_to_cid_fid
    pid_cid_fid_to_residual_index residuals mask.

(** *** Saving the matches between inliers *)

(** What [boost::filesystem] returns inside [matchFileName]. *)
Context (path_parent_stem path_stem : string → string).

(** The test of the copy of [saveInlinerMatchPairs] in this translation
    unit. *)
Definition is_good (num_overlaps cid1 cid2 : Z) : Result bool :=
  if cid1 <? cid2 then
    InterestPoint.int_add cid1 num_overlaps ≫= λ s,
    InterestPoint.int_add s 1 ≫= λ bound,
    Ok (cid2 <? bound)
  else Ok false.

(** The copy of [saveInlinerMatchPairs] that [main] calls: for each image
    pair cid1 and cid2 with cid1 < cid2 < cid1 + num_overlaps + 1, save the
    matches of this pair which occur in the set of tracks.  The result is the
    sequence of calls to [writeMatchFile]. *)
Definition saveInlinerMatchPairs (image_files : list string) (num_overlaps : Z)
    (pid_to_cid_fid : list (gmap Z Z)) (keypoint_vec : list (list Vector2d))
    (pid_cid_fid_inlier : PidCidFid Z) (out_dir : string)
  : Result (list (string * InterestPoint.MATCH_PAIR)) :=
  InterestPoint.gather_matches (is_good num_overlaps) pid_to_cid_fid keypoint_vec
    pid_cid_fid_inlier ≫= λ matches,
  foldM (λ files '((left_index, right_index), match_pair),
           vec_at image_files left_index ≫= λ left_image,
           vec_at image_files right_index ≫= λ right_image,
           let match_dir := out_dir +:+ "/matches" in
           InterestPoint.matchFileName path_parent_stem path_stem
             match_dir left_image right_image "-inliers" ≫= λ match_file,
           Ok (files ++ [(match_file, match_pair)]))
        [] (InterestPoint.match_items matches).

(** *** Intersections with the mesh *)

(** [dense_map::ray_mesh_intersect] for a pixel, the parameters of its
    sensor and the world-to-camera transform of its image, with the mesh, its
    tree and the distance bounds fixed: whether the ray meets the mesh, and
    where.  [+=] and [/=] on [Eigen::Vector3d]. *)
Context (ray_mesh_intersect : Vector2d → CameraParameters → Affine3d → bool * Vector3d)
        (vec3_add : Vector3d → Vector3d → Vector3d)
        (vec3_div : Vector3d → Z → Vector3d).

(** [pid_cid_fid[pid][cid][fid] = val] through [operator[]] for any type of
    value. *)
Definition assignMapValue_at {T} (pid_cid_fid : PidCidFid T) (pid : nat) (cid fid : Z)
    (val : T) : Result (PidCidFid T) :=
  match pid_cid_fid !! pid with
  | None => Undefined
  | Some cid_fid_map =>
      let fid_map := default ∅ (cid_fid_map !! cid) in
      Ok (<[pid := <[cid := <[fid := val]> fid_map]> cid_fid_map]> pid_cid_fid)
  end.

(** The body of the loop over the features of a track. *)
Definition mesh_step (cam_params : list CameraParameters) (cams : list cameraImage)
    (world_to_cam : list Affine3d) (pid_cid_fid_inlier : PidCidFid Z)
    (keypoint_vec : list (list Vector2d)) (bad_xyz : Vector3d) (pid : nat)
    (st : PidCidFid Vector3d * Vector3d * Z) (cid_fid : Z * Z)
  : Result (PidCidFid Vector3d * Vector3d * Z) :=
  let '(pid_cid_fid_mesh_xyz, avg_mesh_xyz, num_intersections) := st in
  let '(cid, fid) := cid_fid in
  assignMapValue_at pid_cid_fid_mesh_xyz pid cid fid bad_xyz ≫= λ pid_cid_fid_mesh_xyz,
  getMapValue pid_cid_fid_inlier pid cid fid ≫= λ inlier,
  if inlier =? 0 then Ok (pid_cid_fid_mesh_xyz, avg_mesh_xyz, num_intersections)
  else
    keypoint_at keypoint_vec cid fid ≫= λ dist_ip,
    cam_params_of cam_params cams cid ≫= λ cp,
    vec_at world_to_cam cid ≫= λ w,
    let '(have_mesh_intersection, mesh_xyz) := ray_mesh_intersect dist_ip cp w in
    if have_mesh_intersection : bool then
      assignMapValue_at pid_cid_fid_mesh_xyz pid cid fid mesh_xyz
        ≫= λ pid_cid_fid_mesh_xyz,
      InterestPoint.int_add num_intersections 1 ≫= λ num_intersections,
      Ok (pid_cid_fid_mesh_xyz, vec3_add avg_mesh_xyz mesh_xyz, num_intersections)
    else Ok (pid_cid_fid_mesh_xyz, avg_mesh_xyz, num_intersections).

Definition meshTriangulations (cam_params : list CameraParameters)
    (cams : list cameraImage) (world_to_cam : list Affine3d)
    (pid_to_cid_fid : list (gmap Z Z)) (pid_cid_fid_inlier : PidCidFid Z)
    (keypoint_vec : list (list Vector2d)) (bad_xyz : Vector3d)
    (pid_cid_fid_mesh_xyz : PidCidFid Vector3d) (pid_mesh_xyz : list Vector3d)
  : Result (PidCidFid Vector3d * list Vector3d) :=
  let pid_cid_fid_mesh_xyz := resize (length pid_to_cid_fid) ∅ pid_cid_fid_mesh_xyz in
  let pid_mesh_xyz := resize (length pid_to_cid_fid) uninit_xyz pid_mesh_xyz in
  foldM (λ '(pid_cid_fid_mesh_xyz, pid_mesh_xyz) '(pid, track),
           foldM (mesh_step cam_params cams world_to_cam pid_cid_fid_inlier
                    keypoint_vec bad_xyz pid)
                 (pid_cid_fid_mesh_xyz, zero3, 0) (map_items track)
             ≫= λ '(pid_cid_fid_mesh_xyz, avg_mesh_xyz, num_intersections),
           let avg_mesh_xyz :=
             if 1 <=? num_intersections then vec3_div avg_mesh_xyz num_intersections
             else bad_xyz in
           vec_set pid_mesh_xyz (Z.of_nat pid) avg_mesh_xyz ≫= λ pid_mesh_xyz,
           Ok (pid_cid_fid_mesh_xyz, pid_mesh_xyz))
        (pid_cid_fid_mesh_xyz, pid_mesh_xyz) (indexed pid_to_cid_fid).

(** *** Affine transforms as twelve numbers *)

(** The 4 x 4 [Eigen::MatrixXd] of an [Eigen::Affine3d], by rows. *)
Definition MatrixXd : Type := list (list double).

Definition Identity : MatrixXd :=
  [ [Fp.one; Fp.zero; Fp.zero; Fp.zero];
    [Fp.zero; Fp.one; Fp.zero; Fp.zero];
    [Fp.zero; Fp.zero; Fp.one; Fp.zero];
    [Fp.zero; Fp.zero; Fp.zero; Fp.one] ].

(** [T(i, j)] read and written. *)
Definition coeff (T : MatrixXd) (i j : Z) : Result double :=
  vec_at T i ≫= λ row, vec_at row j.

Definition set_coeff (T : MatrixXd) (i j : Z) (v : double) : Result MatrixXd :=
  vec_at T i ≫= λ row, vec_set row j v ≫= λ row, vec_set T i row.

(** The order in which both functions below go through the matrix: the
    linear part by rows, then the translation. *)
Definition affine_entries : list (Z * Z) :=
  [ (0, 0); (0, 1); (0, 2); (1, 0); (1, 1); (1, 2); (2, 0); (2, 1); (2, 2);
    (0, 3); (1, 3); (2, 3) ].

(** Save an affine transform represented as a matrix: the numbers printed,
    in their order. The text of a number, written with 17 significant
    digits, is left out. *)
Definition affineToStr (M : MatrixXd) : Result (list double) :=
  foldM (λ os '(i, j), coeff M i j ≫= λ v, Ok (os ++ [v])) [] affine_entries.

(** Form an affine transform from 12 values. *)
Definition vecToAffine (vals : list double) : Result MatrixXd :=
  fatal_if (negb (length vals =? 12)%nat)
    "An affine transform must have 12 parameters." ≫= λ _,
  foldM (λ '(T, count) '(i, j),
           vec_at vals count ≫= λ v,
           set_coeff T i j v ≫= λ T,
           Ok (T, count + 1))
        (Identity, 0) affine_entries ≫= λ '(T, _),
  Ok T.

(** *** Saving the rig configuration *)

(** Modelled from the spec: [CameraParameters::GetUndistortedSize], of the
    undistorted image size of Section 4.2. *)
Definition GetUndistortedSize (cp : CameraParameters) : Z * Z := undistorted_size cp.

(** What a line of the configuration holds after its tag. *)
Inductive ConfigVal : Type :=
| ValInt (n : Z)
| ValNum (x : double)
| ValStr (s : string).

Definition ConfigLine : Type := string * list ConfigVal.

(** The names of the distortion types, and the coefficients of an
    [Eigen::Affine3d] that was declared without a value. *)
Context (NO_DISTORION FISHEYE_DISTORTION RADTAN_DISTORTION : string)
        (uninit_matrix : MatrixXd).

(** The lines written for one sensor. *)
Definition write_sensor (model_rig : bool) (cam_names : list string)
    (cam_params : list CameraParameters) (ref_to_cam_trans depth_to_image : list MatrixXd)
    (ref_to_cam_timestamp_offsets : list double)
    (f : list ConfigLine) (cam_type : nat) : Result (list ConfigLine) :=
  let f := f ++ [("", [])] in
  let f := f ++ [("sensor_id:", [ValInt (Z.of_nat cam_type)])] in
  vec_at cam_names (Z.of_nat cam_type) ≫= λ name,
  let f := f ++ [("sensor_name:", [ValStr name])] in
  vec_at cam_params (Z.of_nat cam_type) ≫= λ cp,
  let f := f ++ [("focal_length:", [ValNum (GetFocalLength cp)])] in
  let c := GetOpticalOffset cp in
  let f := f ++ [("optical_center:", [ValNum c.1; ValNum c.2])] in
  let D := GetDistortion cp in
  let f := f ++ [("distortion_coeffs:", map ValNum D)] in
  let f := if (length D =? 0)%nat
           then f ++ [("distortion_type:", [ValStr NO_DISTORION])] else f in
  (if (length D =? 1)%nat
   then Ok (f ++ [("distortion_type:", [ValStr FISHEYE_DISTORTION])])
   else if (4 <=? length D)%nat && (length D <=? 5)%nat
   then Ok (f ++ [("distortion_type:", [ValStr RADTAN_DISTORTION])])
   else Fatal "Expecting 0, 1, 4, or 5 distortion coefficients.") ≫= λ f,
  let image_size := GetDistortedSize cp in
  let f := f ++ [("image_size:", [ValInt image_size.1; ValInt image_size.2])] in
  let undist_size := GetUndistortedSize cp in
  let f := f ++ [("undistorted_image_size:",
                  [ValInt undist_size.1; ValInt undist_size.2])] in
  let Zero := map (map (Fp.mul (Fp.of_int 0))) uninit_matrix in
  (if model_rig then vec_at ref_to_cam_trans (Z.of_nat cam_type) else Ok Zero) ≫= λ T,
  affineToStr T ≫= λ vals,
  let f := f ++ [("ref_to_sensor_transform:", map ValNum vals)] in
  vec_at depth_to_image (Z.of_nat cam_type) ≫= λ T,
  affineToStr T ≫= λ vals,
  let f := f ++ [("depth_to_image_transform:", map ValNum vals)] in
  vec_at ref_to_cam_timestamp_offsets (Z.of_nat cam_type) ≫= λ offset,
  Ok (f ++ [("ref_to_sensor_timestamp_offset:", [ValNum offset])]).

(** Save the optimized rig configuration: the lines of rig_config.txt, each
    with its tag and values.  [file_is_open] is whether the file could be
    opened for writing. *)
Definition writeRigConfig (file_is_open model_rig : bool) (ref_cam_type : Z)
    (cam_names : list string) (cam_params : list CameraParameters)
    (ref_to_cam_trans depth_to_image : list MatrixXd)
    (ref_to_cam_timestamp_offsets : list double) : Result (list ConfigLine) :=
  fatal_if (negb (ref_cam_type =? 0)) "The reference camera id must be always 0." ≫= λ _,
  fatal_if (negb file_is_open) "Cannot open file for writing." ≫= λ _,
  foldM (write_sensor model_rig cam_names cam_params ref_to_cam_trans depth_to_image
           ref_to_cam_timestamp_offsets)
        [("ref_sensor_id:", [ValInt ref_cam_type])]
        (seq (Z.to_nat ref_cam_type) (length cam_params - Z.to_nat ref_cam_type)).

(** *** The optimization driver *)

(** The calls of [main] that the properties below speak about. *)
Inductive Op : Type :=
| OpReadConfig
| OpDetectMatchFeatures
| OpFlagOutlierByExclusionDist
| OpMultiViewTriangulation (pass : nat)
| OpSolve (pass : nat)
| OpFlagOutliersByTriAngleAndReprojErr (pass : nat).

(** A call that returned, with [pid_cid_fid_inlier] as it was then. *)
Record Event : Type := {
  ev_op : Op;
  ev_inlier : PidCidFid Z;
}.

(** A run of the driver: the calls that returned so far and the outcome. *)
Definition Run (A : Type) : Type := list Event * Result A.

Definition run_ret {A} (a : A) : Run A := ([], Ok a).

Definition run_bind {A B} (m : Run A) (f : A → Run B) : Run B :=
  match m with
  | (tr, Ok a) => let '(tr', r) := f a in (tr ++ tr', r)
  | (tr, Fatal msg) => (tr, Fatal msg)
  | (tr, Undefined) => (tr, Undefined)
  end.

(** A computation that is not one of the recorded calls. *)
Definition lift {A} (r : Result A) : Run A := ([], r).

(** A recorded call: the event is appended when the call returns. *)
Definition call {A} (op : Op) (r : Result A) (inlier : A → PidCidFid Z) : Run A :=
  match r with
  | Ok a => ([ {| ev_op := op; ev_inlier := inlier a |} ], Ok a)
  | Fatal msg => ([], Fatal msg)
  | Undefined => ([], Undefined)
  end.

(** What [main] holds after [readRigConfig] (or [readLuaConfig]), the
    loading of the mesh, [readImageAndDepthData] and the setting up of the
    arrays of extrinsics. *)
Record Config : Type := {
  cfg_ref_cam_type : Z;
  cfg_cam_params : list CameraParameters;
  cfg_ref_to_cam_vec : list double;
  cfg_ref_to_cam_timestamp_offsets : list double;
  cfg_ref_timestamps : list double;
  cfg_world_to_ref_vec : list double;
}.

(** What [main] holds after [lookupImagesAndBrackets], the sorting of the
    images, the initial world-to-camera transforms and
    [detectMatchFeatures]. *)
Record Images : Type := {
  img_cams : list cameraImage;
  img_world_to_cam : list Affine3d;
  img_world_to_cam_vec : list double;
  img_keypoint_vec : list (list Vector2d);
  img_pid_to_cid_fid : list (gmap Z Z);
}.

(** The parameter arrays, structures and flags of [main] that the passes
    read and update. *)
Record DriverState : Type := {
  cam_params : list CameraParameters;
  world_to_ref_vec : list double;
  world_to_cam_vec : list double;
  ref_to_cam_vec : list double;
  ref_to_cam_timestamp_offsets : list double;
  focal_lengths : list double;
  optical_centers : list Vector2d;
  distortions : list (list double);
  world_to_cam : list Affine3d;
  pid_cid_fid_inlier : PidCidFid Z;
}.

(** What forming the Ceres problem, evaluating the residuals and
    [ceres::Solve] leave behind: the optimized parameter arrays, the
    residuals after optimization and the index of each inlier's pixel
    residuals. *)
Record Solved : Type := {
  opt_world_to_ref_vec : list double;
  opt_world_to_cam_vec : list double;
  opt_ref_to_cam_vec : list double;
  opt_ref_to_cam_timestamp_offsets : list double;
  opt_focal_lengths : list double;
  opt_optical_centers : list Vector2d;
  opt_distortions : list (list double);
  opt_xyz_vec : list Vector3d;
  residuals : list double;
  pid_cid_fid_to_residual_index : PidCidFid Z;
}.

(** The parts of [main] that read files, match features and run Ceres. *)
Class Pipeline : Type := {
  (** from [readRigConfig] to the arrays of extrinsics and depth-to-image
      parameters *)
  read_config : Flags → Result Config;
  (** from [lookupImagesAndBrackets] to [detectMatchFeatures] *)
  detect_match_features : Flags → Config → Result Images;
  (** one pass: mesh intersections, residual blocks, [evalResiduals],
      [ceres::Solve], [evalResiduals] *)
  form_and_solve : Flags → Config → Images → nat → DriverState → list Vector3d → Result Solved;
}.

Section Driver.
Context `{Pipeline}.

(** Put the intrinsics in arrays. *)
Definition intrinsics_arrays (cam_params : list CameraParameters)
  : Result (list double * list Vector2d * list (list double)) :=
  foldM (λ '(focal_lengths, optical_centers, distortions) cp,
           fatal_if (length (GetDistortion cp) =? 0)%nat
             "The cameras are expected to have distortion." ≫= λ _,
           Ok (focal_lengths ++ [GetFocalLength cp],
               optical_centers ++ [GetOpticalOffset cp],
               distortions ++ [GetDistortion cp]))
        ([], [], []) cam_params.

(** Copy back the optimized intrinsics. *)
Definition copy_back_intrinsics (cam_params : list CameraParameters)
    (focal_lengths : list double) (optical_centers : list Vector2d)
    (distortions : list (list double)) : Result (list CameraParameters) :=
  foldM (λ cam_params it,
           vec_at cam_params (Z.of_nat it) ≫= λ cp,
           vec_at focal_lengths (Z.of_nat it) ≫= λ f,
           vec_at optical_centers (Z.of_nat it) ≫= λ c,
           vec_at distortions (Z.of_nat it) ≫= λ d,
           vec_set cam_params (Z.of_nat it)
             (SetDistortion (SetOpticalOffset (SetFocalLength cp (f, f)) c) d))
        cam_params (seq 0 (length cam_params)).

(** If the nav cam did not get optimized, go back to the solution with two
    focal lengths. *)
Definition restore_ref_intrinsics (FLAGS : Flags) (ref_cam_type : Z)
    (orig_cam_params cam_params : list CameraParameters)
  : Result (list CameraParameters) :=
  if str_empty (nav_cam_intrinsics_to_float FLAGS) || (num_iterations FLAGS =? 0) then
    vec_at orig_cam_params ref_cam_type ≫= λ orig,
    vec_set cam_params ref_cam_type orig
  else Ok cam_params.

(** With --no_extrinsics each camera floats individually: update
    [world_to_cam] from the optimized [world_to_cam_vec], and
    [world_to_ref_vec] from the reference cameras among them. *)
Definition copy_back_cameras (FLAGS : Flags) (ref_cam_type : Z)
    (cams : list cameraImage) (world_to_ref_vec world_to_cam_vec : list double)
    (world_to_cam : list Affine3d) : Result (list Affine3d * list double) :=
  if negb (no_extrinsics FLAGS) then Ok (world_to_cam, world_to_ref_vec)
  else
    foldM (λ '(world_to_cam, world_to_ref_vec) '(cid, cam),
             read_rigid (world_to_cam_vec, Z.of_nat cid) ≫= λ t,
             vec_set world_to_cam (Z.of_nat cid) t ≫= λ world_to_cam,
             if camera_type cam =? ref_cam_type then
               write_rigid_block world_to_ref_vec (beg_ref_index cam)
                 (rigid_transform_to_array t) ≫= λ world_to_ref_vec,
               Ok (world_to_cam, world_to_ref_vec)
             else Ok (world_to_cam, world_to_ref_vec))
          (world_to_cam, world_to_ref_vec) (indexed cams).

(** The optimization is done. Right away copy the optimized states to where
    they belong to keep all data in sync.  (The copies [world_to_ref],
    [ref_to_cam_trans] and [depth_to_image], which the passes only write,
    are left out.) *)
Definition copy_back (FLAGS : Flags) (cfg : Config) (imgs : Images)
    (orig_cam_params : list CameraParameters) (st : DriverState) (sol : Solved)
  : Result DriverState :=
  copy_back_cameras FLAGS (cfg_ref_cam_type cfg) (img_cams imgs)
    (opt_world_to_ref_vec sol) (opt_world_to_cam_vec sol)
    (world_to_cam st) ≫= λ '(w2c, w2r_vec),
  copy_back_intrinsics (cam_params st) (opt_focal_lengths sol)
    (opt_optical_centers sol) (opt_distortions sol) ≫= λ cps,
  restore_ref_intrinsics FLAGS (cfg_ref_cam_type cfg) orig_cam_params cps ≫= λ cps,
  Ok {| cam_params := cps;
        world_to_ref_vec := w2r_vec;
        world_to_cam_vec := opt_world_to_cam_vec sol;
        ref_to_cam_vec := opt_ref_to_cam_vec sol;
        ref_to_cam_timestamp_offsets := opt_ref_to_cam_timestamp_offsets sol;
        focal_lengths := opt_focal_lengths sol;
        optical_centers := opt_optical_centers sol;
        distortions := opt_distortions sol;
        world_to_cam := w2c;
        pid_cid_fid_inlier := pid_cid_fid_inlier st |}.

Definition update_world_to_cam (FLAGS : Flags) (cfg : Config) (imgs : Images)
    (st : DriverState) : Result (list Affine3d) :=
  calc_world_to_cam_transforms (no_extrinsics FLAGS) (img_cams imgs)
    (world_to_ref_vec st) (cfg_ref_timestamps cfg) (ref_to_cam_vec st)
    (world_to_cam_vec st) (ref_to_cam_timestamp_offsets st) (world_to_cam st).

Definition set_world_to_cam (st : DriverState) (w2c : list Affine3d) : DriverState :=
  {| cam_params := cam_params st;
     world_to_ref_vec := world_to_ref_vec st;
     world_to_cam_vec := world_to_cam_vec st;
     ref_to_cam_vec := ref_to_cam_vec st;
     ref_to_cam_timestamp_offsets := ref_to_cam_timestamp_offsets st;
     focal_lengths := focal_lengths st;
     optical_centers := optical_centers st;
     distortions := distortions st;
     world_to_cam := w2c;
     pid_cid_fid_inlier := pid_cid_fid_inlier st |}.

Definition set_inlier (st : DriverState) (mask : PidCidFid Z) : DriverState :=
  {| cam_params := cam_params st;
     world_to_ref_vec := world_to_ref_vec st;
     world_to_cam_vec := world_to_cam_vec st;
     ref_to_cam_vec := ref_to_cam_vec st;
     ref_to_cam_timestamp_offsets := ref_to_cam_timestamp_offsets st;
     focal_lengths := focal_lengths st;
     optical_centers := optical_centers st;
     distortions := distortions st;
     world_to_cam := world_to_cam st;
     pid_cid_fid_inlier := mask |}.

(** The body of the loop over the optimization passes. *)
Definition optimization_pass (FLAGS : Flags) (cfg : Config) (imgs : Images)
    (orig_cam_params : list CameraParameters) (pass : nat) (st : DriverState)
  : Run DriverState :=
  run_bind (lift (update_world_to_cam FLAGS cfg imgs st)) (λ w2c,
  let st := set_world_to_cam st w2c in
  run_bind (call (OpMultiViewTriangulation pass)
              (multiViewTriangulation (cam_params st) (img_cams imgs) (world_to_cam st)
                 (img_pid_to_cid_fid imgs) (img_keypoint_vec imgs)
                 (pid_cid_fid_inlier st) [])
              fst) (λ '(mask, xyz_vec),
  let st := set_inlier st mask in
  run_bind (call (OpSolve pass)
              (form_and_solve FLAGS cfg imgs pass st xyz_vec ≫= λ sol,
               copy_back FLAGS cfg imgs orig_cam_params st sol ≫= λ st, Ok (st, sol))
              (λ st_sol, pid_cid_fid_inlier st_sol.1)) (λ '(st, sol),
  run_bind (lift (update_world_to_cam FLAGS cfg imgs st)) (λ w2c,
  let st := set_world_to_cam st w2c in
  run_bind (call (OpFlagOutliersByTriAngleAndReprojErr pass)
              (flagOutliersByTriAngleAndReprojErr (refiner_min_angle FLAGS)
                 (max_reprojection_error FLAGS) (img_pid_to_cid_fid imgs)
                 (world_to_cam st) (opt_xyz_vec sol)
                 (pid_cid_fid_to_residual_index sol) (residuals sol)
                 (pid_cid_fid_inlier st))
              id) (λ mask,
  run_ret (set_inlier st mask)))))).

(** [for (int pass = 0; pass < FLAGS_refiner_num_passes; pass++)] with
    [n] passes left. *)
Fixpoint run_passes (FLAGS : Flags) (cfg : Config) (imgs : Images)
    (orig_cam_params : list CameraParameters) (n pass : nat) (st : DriverState)
  : Run DriverState :=
  match n with
  | O => run_ret st
  | S n' =>
      run_bind (optimization_pass FLAGS cfg imgs orig_cam_params pass st) (λ st',
      run_passes FLAGS cfg imgs orig_cam_params n' (S pass) st')
  end.

(** [main], up to the end of the optimization passes. *)
Definition main (HAVE_ASTROBEE : bool) (FLAGS : Flags) : Run DriverState :=
  run_bind (lift (parameterValidation HAVE_ASTROBEE FLAGS)) (λ _,
  run_bind (call OpReadConfig (read_config FLAGS) (λ _, [])) (λ cfg,
  let orig_cam_params := cfg_cam_params cfg in
  run_bind (lift (intrinsics_arrays (cfg_cam_params cfg))) (λ '(fl, oc, ds),
  run_bind (call OpDetectMatchFeatures (detect_match_features FLAGS cfg) (λ _, [])) (λ imgs,
  run_bind (call OpFlagOutlierByExclusionDist
              (flagOutlierByExclusionDist (cfg_ref_cam_type cfg)
                 (nav_cam_num_exclude_boundary_pixels FLAGS) (cfg_cam_params cfg)
                 (img_cams imgs) (img_pid_to_cid_fid imgs) (img_keypoint_vec imgs) [])
              id) (λ mask,
  let st := {| cam_params := cfg_cam_params cfg;
               world_to_ref_vec := cfg_world_to_ref_vec cfg;
               world_to_cam_vec := img_world_to_cam_vec imgs;
               ref_to_cam_vec := cfg_ref_to_cam_vec cfg;
               ref_to_cam_timestamp_offsets := cfg_ref_to_cam_timestamp_offsets cfg;
               focal_lengths := fl;
               optical_centers := oc;
               distortions := ds;
               world_to_cam := img_world_to_cam imgs;
               pid_cid_fid_inlier := mask |} in
  run_passes FLAGS cfg imgs orig_cam_params (Z.to_nat (refiner_num_passes FLAGS)) 0 st))))).

End Driver.
End WithExternals.
End RigCalibrator.

(** ** Vocabulary of the properties *)

(** A depth cloud whose grid has [rows] rows of [cols] entries. *)
Definition Mat_wf (m : RigCalibrator.Mat) : Prop :=
  0 ≤ RigCalibrator.rows m ∧ 0 ≤ RigCalibrator.cols m
  ∧ Z.of_nat (length (RigCalibrator.data m)) = RigCalibrator.rows m
  ∧ Forall (λ r, Z.of_nat (length r) = RigCalibrator.cols m) (RigCalibrator.data m).

(** Between two states of the inlier mask, every entry is the same or was
    there and is now 0; no entry appears or disappears. *)
Definition mask_step (m m' : PidCidFid Z) : Prop :=
  ∀ pid cid fid,
    lookup3 m' pid cid fid = lookup3 m pid cid fid
    ∨ (is_Some (lookup3 m pid cid fid) ∧ lookup3 m' pid cid fid = Some 0).

(** Every entry of the mask is 0 or 1. *)
Definition mask_binary (m : PidCidFid Z) : Prop :=
  ∀ pid cid fid v, lookup3 m pid cid fid = Some v → v = 0 ∨ v = 1.

(** Each entry of [m] is still there in [m'], not larger, and 0 if it was
    0. *)
Definition mask_nonincreasing (m m' : PidCidFid Z) : Prop :=
  ∀ pid cid fid v,
    lookup3 m pid cid fid = Some v →
    ∃ v', lookup3 m' pid cid fid = Some v' ∧ v' ≤ v ∧ (v = 0 → v' = 0).

(** The masks recorded along a run, starting from [m], each a [mask_step]
    from the one before. *)
Fixpoint mask_chain (m : PidCidFid Z) (tr : list RigCalibrator.Event) : Prop :=
  match tr with
  | [] => True
  | e :: tr' =>
      mask_step m (RigCalibrator.ev_inlier e)
      ∧ mask_chain (RigCalibrator.ev_inlier e) tr'
  end.

(** The mask after the last recorded call, [m] if there is none. *)
Definition last_mask (m : PidCidFid Z) (tr : list RigCalibrator.Event) : PidCidFid Z :=
  List.last (map RigCalibrator.ev_inlier tr) m.

(** [mask_step] on the mask of a triangulation state. *)
Definition fst_step (s s' : PidCidFid Z * list Vector3d) : Prop :=
  mask_step s.1 s'.1.

(** A run started with mask [m0] records masks that form a chain from [m0],
    and the mask [get a] of its result continues the chain. *)
Definition run_chain `{RigCalibrator.Pipeline} {A} (m0 : PidCidFid Z)
    (c : RigCalibrator.Run A) (get : A → PidCidFid Z) : Prop :=
  mask_chain m0 c.1 ∧ ∀ a, c.2 = Ok a → mask_step (last_mask m0 c.1) (get a).

(** Along a trace, the mask of a later event is nowhere above that of an
    earlier one. *)
Definition mono_trace (tr : list RigCalibrator.Event) : Prop :=
  ∀ (i j : nat) ei ej,
    (i ≤ j)%nat → tr !! i = Some ei → tr !! j = Some ej →
    mask_nonincreasing (RigCalibrator.ev_inlier ei) (RigCalibrator.ev_inlier ej).

(** The calls one pass makes, in order. *)
Definition pass_ops (pass : nat) : list RigCalibrator.Op :=
  [RigCalibrator.OpMultiViewTriangulation pass;
   RigCalibrator.OpSolve pass;
   RigCalibrator.OpFlagOutliersByTriAngleAndReprojErr pass].

(** The calls a run of [n] passes makes, in order. *)
Definition driver_ops (n : nat) : list RigCalibrator.Op :=
  [RigCalibrator.OpReadConfig; RigCalibrator.OpDetectMatchFeatures;
   RigCalibrator.OpFlagOutlierByExclusionDist]
  ++ flat_map pass_ops (seq 0 n).

(** The ordering that the specification asks of the outlier flagger: in
    each of the [n] passes, boundary exclusion and the angle and reprojection
    filters come after that pass's solve and before the triangulation of the
    next pass. *)
Definition full_flagger_in_every_pass (ops : list RigCalibrator.Op) (n : nat) : Prop :=
  ∀ p : nat, (p < n)%nat →
    ∃ i j k : nat,
      ops !! i = Some (RigCalibrator.OpSolve p)
      ∧ ops !! j = Some RigCalibrator.OpFlagOutlierByExclusionDist
      ∧ ops !! k = Some (RigCalibrator.OpFlagOutliersByTriAngleAndReprojErr p)
      ∧ (i < j)%nat ∧ (i < k)%nat
      ∧ ∀ l : nat, ops !! l = Some (RigCalibrator.OpMultiViewTriangulation (S p)) →
                   (j < l)%nat ∧ (k < l)%nat.

(** What one pass does to the mask [m_prev] it starts from: triangulation
    turns it into [m_tri], which the solve and the copying back leave as it
    is; then, on the transforms recomputed from the optimized parameters and
    with the points, residuals and residual indices that the solve of this
    pass returned, the filter by angle turns [m_tri] into a mask on which
    the filter by reprojection error gives [m_flag]. *)
Definition pass_flagged `{RigCalibrator.Pipeline} (FLAGS : RigCalibrator.Flags)
    (cfg : RigCalibrator.Config) (imgs : RigCalibrator.Images)
    (orig_cam_params : list CameraParameters) (pass : nat)
    (m_prev m_tri m_flag : PidCidFid Z) : Prop :=
  ∃ (st st1 : RigCalibrator.DriverState) (xyz_vec : list Vector3d)
    (sol : RigCalibrator.Solved) (w2c : list Affine3d) (m_angle : PidCidFid Z),
    RigCalibrator.multiViewTriangulation (RigCalibrator.cam_params st)
      (RigCalibrator.img_cams imgs) (RigCalibrator.world_to_cam st)
      (RigCalibrator.img_pid_to_cid_fid imgs) (RigCalibrator.img_keypoint_vec imgs)
      m_prev [] = Ok (m_tri, xyz_vec)
    ∧ RigCalibrator.form_and_solve FLAGS cfg imgs pass
        (RigCalibrator.set_inlier st m_tri) xyz_vec = Ok sol
    ∧ RigCalibrator.copy_back FLAGS cfg imgs orig_cam_params
        (RigCalibrator.set_inlier st m_tri) sol = Ok st1
    ∧ RigCalibrator.update_world_to_cam FLAGS cfg imgs st1 = Ok w2c
    ∧ RigCalibrator.flagOutliersByTriAngle (RigCalibrator.refiner_min_angle FLAGS)
        (RigCalibrator.img_pid_to_cid_fid imgs) w2c (RigCalibrator.opt_xyz_vec sol)
        m_tri = Ok m_angle
    ∧ RigCalibrator.flagOutliersByReprojErr (RigCalibrator.max_reprojection_error FLAGS)
        (RigCalibrator.img_pid_to_cid_fid imgs)
        (RigCalibrator.pid_cid_fid_to_residual_index sol) (RigCalibrator.residuals sol)
        m_angle = Ok m_flag.

(** The events of [n] passes, the first of them pass [pass] started from the
    mask [m_prev]: each pass records its triangulation, its solve and its
    outlier flagger, with the masks of [pass_flagged], and the next pass
    starts from the mask that the flagger returned. [m_last] is the mask
    after the last pass. *)
Fixpoint passes_flagged `{RigCalibrator.Pipeline} (FLAGS : RigCalibrator.Flags)
    (cfg : RigCalibrator.Config) (imgs : RigCalibrator.Images)
    (orig_cam_params : list CameraParameters) (n pass : nat)
    (m_prev : PidCidFid Z) (tr : list RigCalibrator.Event) (m_last : PidCidFid Z)
  : Prop :=
  match n with
  | O => tr = [] ∧ m_last = m_prev
  | S n' =>
      ∃ (m_tri m_flag : PidCidFid Z) (tr' : list RigCalibrator.Event),
        tr = [ {| RigCalibrator.ev_op := RigCalibrator.OpMultiViewTriangulation pass;
                  RigCalibrator.ev_inlier := m_tri |};
               {| RigCalibrator.ev_op := RigCalibrator.OpSolve pass;
                  RigCalibrator.ev_inlier := m_tri |};
               {| RigCalibrator.ev_op :=
                    RigCalibrator.OpFlagOutliersByTriAngleAndReprojErr pass;
                  RigCalibrator.ev_inlier := m_flag |} ] ++ tr'
        ∧ pass_flagged FLAGS cfg imgs orig_cam_params pass m_prev m_tri m_flag
        ∧ passes_flagged FLAGS cfg imgs orig_cam_params n' (S pass) m_flag tr' m_last
  end.

(** A feature of track [pid] whose mask entry is there and not 0. *)
Definition is_inlier (mask : PidCidFid Z) (pid : nat) (cid_fid : Z * Z) : bool :=
  match lookup3 mask pid cid_fid.1 cid_fid.2 with
  | Some v => negb (v =? 0)
  | None => false
  end.

(** The inlier observations of a track, in the order of its images. *)
Definition inlier_items (mask : PidCidFid Z) (pid : nat) (track : gmap Z Z)
  : list (Z * Z) :=
  filter (λ cid_fid, is_inlier mask pid cid_fid) (map_items track).

Definition inlier_count (mask : PidCidFid Z) (pid : nat) (track : gmap Z Z) : nat :=
  length (inlier_items mask pid track).

(** A track with strictly more than two inlier observations. *)
Definition more_than_two_inliers (mask : PidCidFid Z) (pid_track : nat * gmap Z Z) : bool :=
  (2 <? inlier_count mask pid_track.1 pid_track.2)%nat.

(** The track [nv] and point [xyz] written for the track [pid_track]: the
    point is the triangulated point of the track, and the images of [nv] are
    the images of the inlier observations of the track. *)
Definition nvm_track_of (mask : PidCidFid Z) (xyz_vec : list Vector3d)
    (pid_track : nat * gmap Z Z) (nv : gmap Z Z) (xyz : Vector3d) : Prop :=
  xyz_vec !! pid_track.1 = Some xyz
  ∧ size nv = inlier_count mask pid_track.1 pid_track.2
  ∧ ∀ cid, is_Some (nv !! cid) ↔ cid ∈ (inlier_items mask pid_track.1 pid_track.2).*1.

(** The entries selected by [K] are the same in [m] and [m']. *)
Definition agree_on {T} (K : nat → Z → Z → Prop) (m m' : PidCidFid T) : Prop :=
  ∀ pid cid fid, K pid cid fid → lookup3 m' pid cid fid = lookup3 m pid cid fid.

(** The entries of track [pid] are the same in [m] and [m']. *)
Definition same_track {T} (pid : nat) : relation (PidCidFid T) :=
  agree_on (λ p _ _, p = pid).

(** The entry of one feature is the same in [m] and [m']. *)
Definition same_entry {T} (pid : nat) (cid fid : Z) : relation (PidCidFid T) :=
  agree_on (λ p c f, p = pid ∧ c = cid ∧ f = fid).

(** The mask has an entry for every feature of every track. *)
Definition mask_covers (tracks : list (gmap Z Z)) (m : PidCidFid Z) : Prop :=
  ∀ pid track cid fid,
    tracks !! pid = Some track → track !! cid = Some fid →
    is_Some (lookup3 m pid cid fid).

(** The test that [flagOutlierByExclusionDist] makes on a pixel of the
    reference sensor. *)
Definition near_boundary (excl : Z) (cp : CameraParameters) (dist_ip : Vector2d) : bool :=
  Fp.ltb dist_ip.1 (Fp.of_int excl)
  || Fp.gtb dist_ip.1 (Fp.of_int ((GetDistortedSize cp).1 - 1 - excl))
  || Fp.ltb dist_ip.2 (Fp.of_int excl)
  || Fp.gtb dist_ip.2 (Fp.of_int ((GetDistortedSize cp).2 - 1 - excl)).

(** Between two states of the triangulation loop, the mask entries and the
    point of track [pid] are the same, and so is the number of points. *)
Definition tri_agree (pid : nat) (s s' : PidCidFid Z * list Vector3d) : Prop :=
  same_track pid s.1 s'.1 ∧ s'.2 !! pid = s.2 !! pid ∧ length s'.2 = length s.2.

(** The calls recorded by a run are an initial segment of [ops], and all of
    [ops] when the run returns. *)
Definition ops_upto {A} (c : RigCalibrator.Run A) (ops : list RigCalibrator.Op) : Prop :=
  map RigCalibrator.ev_op c.1 `prefix_of` ops
  ∧ ∀ a, c.2 = Ok a → map RigCalibrator.ev_op c.1 = ops.

(** The condition under which a pass puts the intrinsics of the reference
    sensor back to the ones read from the configuration. *)
Definition ref_intrinsics_fixed (FLAGS : RigCalibrator.Flags) : bool :=
  RigCalibrator.str_empty (RigCalibrator.nav_cam_intrinsics_to_float FLAGS)
  || (RigCalibrator.num_iterations FLAGS =? 0).

(** The keypoint table of [writeNvm] with the number of keypoints stored per
    image: from [s] to [s'] the numbers do not decrease and the keypoints
    stored below them stay. *)
Definition kp_grows (s s' : list (list Vector2d) * list Z) : Prop :=
  ∀ cid c, vec_at s.2 cid = Ok c →
    ∃ c', vec_at s'.2 cid = Ok c' ∧ c ≤ c'
          ∧ ∀ k pix, 0 ≤ k < c → keypoint_at s.1 cid k = Ok pix →
                     keypoint_at s'.1 cid k = Ok pix.

(** A keypoint shifted relative to the optical centre of its sensor. *)
Definition shifted_pixel (cp : CameraParameters) (dist_ip : Vector2d) : Vector2d :=
  (Fp.sub dist_ip.1 (GetOpticalOffset cp).1, Fp.sub dist_ip.2 (GetOpticalOffset cp).2).

(** Each entry [cid ↦ k] of the track [nv] handed to [WriteNVM] stands for an
    inlier feature of [track] in image [cid], whose shifted keypoint is
    stored at index [k] of the keypoints of that image. *)
Definition nvm_recorded (cam_params : list CameraParameters) (cams : list cameraImage)
    (keypoint_vec : list (list Vector2d)) (mask : PidCidFid Z) (pid : nat)
    (track : gmap Z Z) (s : list (list Vector2d) * list Z) (nv : gmap Z Z) : Prop :=
  ∀ cid k, nv !! cid = Some k →
    ∃ fid dist_ip cp c,
      track !! cid = Some fid
      ∧ is_inlier mask pid (cid, fid) = true
      ∧ keypoint_at keypoint_vec cid fid = Ok dist_ip
      ∧ cam_params_of cam_params cams cid = Ok cp
      ∧ vec_at s.2 cid = Ok c ∧ 0 ≤ k < c
      ∧ keypoint_at s.1 cid k = Ok (shifted_pixel cp dist_ip).

(** The matrix of an [Eigen::Affine3d]: four rows of four coefficients, the
    last row being 0 0 0 1. *)
Definition affine_matrix (M : RigCalibrator.MatrixXd) : Prop :=
  ∃ m00 m01 m02 m03 m10 m11 m12 m13 m20 m21 m22 m23 : double,
    M = [ [m00; m01; m02; m03]; [m10; m11; m12; m13]; [m20; m21; m22; m23];
          [Fp.zero; Fp.zero; Fp.zero; Fp.one] ].

(** Whether [Triangulate] with [rm_invalid_xyz] erases a track with these
    rays. *)
Definition invalid_solution `{Externals}
    (tri_minDepth : list (double * Affine3d * Vector2d) → double)
    (rm_invalid_xyz : bool) (rays : list (double * Affine3d * Vector2d)) : bool :=
  rm_invalid_xyz
  && (Fp.isnan (tri_compute rays).1.1 || Fp.ltb (tri_minDepth rays) (Fp.of_int 0)).

(** The tracks that [Triangulate] keeps, each with its rays. *)
Definition kept_tracks `{Externals}
    (tri_minDepth : list (double * Affine3d * Vector2d) → double)
    (rm_invalid_xyz : bool)
    (tracks : list (gmap Z Z * list (double * Affine3d * Vector2d)))
  : list (gmap Z Z * list (double * Affine3d * Vector2d)) :=
  filter (λ tr, invalid_solution tri_minDepth rm_invalid_xyz tr.2 = false) tracks.

(** Where the ray of a feature meets the mesh, when the feature is an inlier
    and the ray meets it. *)
Definition mesh_hit `{Externals}
    (ray_mesh_intersect : Vector2d → CameraParameters → Affine3d → bool * Vector3d)
    (cam_params : list CameraParameters) (cams : list cameraImage)
    (world_to_cam : list Affine3d) (mask : PidCidFid Z)
    (keypoint_vec : list (list Vector2d)) (pid : nat) (cid_fid : Z * Z)
  : option Vector3d :=
  if is_inlier mask pid cid_fid then
    match keypoint_at keypoint_vec cid_fid.1 cid_fid.2,
          cam_params_of cam_params cams cid_fid.1,
          vec_at world_to_cam cid_fid.1 with
    | Ok dist_ip, Ok cp, Ok w =>
        if (ray_mesh_intersect dist_ip cp w).1
        then Some (ray_mesh_intersect dist_ip cp w).2 else None
    | _, _, _ => None
    end
  else None.

(** Between two states of the loop of [meshTriangulations], the entries and
    the point of track [pid] are the same, and so is the number of points. *)
Definition mesh_agree (pid : nat) (s s' : PidCidFid Vector3d * list Vector3d) : Prop :=
  same_track pid s.1 s'.1 ∧ s'.2 !! pid = s.2 !! pid ∧ length s'.2 = length s.2.

(** Each pair of vectors of matches only gets longer. *)
Definition matches_grow (m m' : InterestPoint.MATCH_MAP) : Prop :=
  ∀ key l r, m !! key = Some (l, r) → ∃ l' r', m' !! key = Some (l ++ l', r ++ r').

(** [ip1] and [ip2] are the interest points made from the keypoints of the
    features [fid1] of image [cid1] and [fid2] of image [cid2], both inliers
    of track [pid]. *)
Definition feature_match (keypoint_vec : list (list Vector2d)) (mask : PidCidFid Z)
    (pid : nat) (cid1 fid1 cid2 fid2 : Z)
    (ip1 ip2 : InterestPoint.InterestPoint) : Prop :=
  is_inlier mask pid (cid1, fid1) = true ∧ is_inlier mask pid (cid2, fid2) = true
  ∧ ∃ kp1 kp2,
      keypoint_at keypoint_vec cid1 fid1 = Ok kp1
      ∧ keypoint_at keypoint_vec cid2 fid2 = Ok kp2
      ∧ InterestPoint.make_InterestPoint kp1.1 kp1.2 = Ok ip1
      ∧ InterestPoint.make_InterestPoint kp2.1 kp2.2 = Ok ip2.

(** Every pair of images with matches passes the test [is_good]; its two
    vectors have the same, positive length, and at each index they hold the
    interest points of two inlier features of one track. *)
Definition matches_sound (is_good : Z → Z → Result bool)
    (pid_to_cid_fid : list (gmap Z Z)) (keypoint_vec : list (list Vector2d))
    (mask : PidCidFid Z) (m : InterestPoint.MATCH_MAP) : Prop :=
  ∀ cid1 cid2 l r, m !! (cid1, cid2) = Some (l, r) →
    is_good cid1 cid2 = Ok true ∧ length l = length r ∧ l ≠ []
    ∧ ∀ (i : nat) ip1 ip2, l !! i = Some ip1 → r !! i = Some ip2 →
        ∃ pid track fid1 fid2,
          pid_to_cid_fid !! pid = Some track
          ∧ track !! cid1 = Some fid1 ∧ track !! cid2 = Some fid2
          ∧ feature_match keypoint_vec mask pid cid1 fid1 cid2 fid2 ip1 ip2.

(** ** A small rig to run the model on *)

(** Stand-ins for the external libraries, simple enough to compute with, and
    a rig of two sensors with three images and up to two tracks. *)
Module Sample.

Definition d (n : Z) : double := Fp.of_int n.
Definition half : double := Fp.div (d 1) (d 2).

(** Transforms are kept as their seven parameters; interpolation and
    composition act coefficient by coefficient. *)
Definition lerp (alpha : double) (a b : list double) : list double :=
  zip_with (λ x y, Fp.add (Fp.mul (Fp.sub Fp.one alpha) x) (Fp.mul alpha y)) a b.

(** A two-view stand-in for triangulation: depth is focal length over
    disparity, so two rays through the same pixel column meet at infinity. *)
Definition stereo (rays : list (double * list double * Vector2d)) : Vector3d :=
  match rays with
  | (f, _, (x1, y1)) :: (_, _, (x2, _)) :: _ =>
      let z := Fp.div f (Fp.sub x1 x2) in
      (Fp.mul x1 (Fp.div z f), Fp.mul y1 (Fp.div z f), z)
  | _ => (S754_nan, S754_nan, S754_nan)
  end.

Definition externals : Externals := {|
  Affine3d := list double;
  array_to_rigid_transform := λ blk, blk;
  rigid_transform_to_array := λ t, t;
  linearInterp := lerp;
  affine_mul := zip_with Fp.add;
  tri_compute := stereo;
  Convert_DISTORTED_UNDISTORTED_C := λ cp pix,
    (Fp.sub pix.1 (optical_offset cp).1, Fp.sub pix.2 (optical_offset cp).2);
  GetFocalLength := λ cp,
    Fp.div (Fp.add (focal_length cp).1 (focal_length cp).2) (d 2);
  rays_angle := λ _ _ _, d 90;
  norm2 := λ x y, SFsqrt Fp.prec Fp.emax (Fp.add (Fp.mul x x) (Fp.mul y y));
  uninit_xyz := (Fp.zero, Fp.zero, Fp.zero);
  uninit_pix := (Fp.zero, Fp.zero);
|}.

Definition sensor (f : Z) : CameraParameters := {|
  focal_length := (d f, d f);
  optical_offset := (d 50, d 50);
  distortion := [Fp.zero];
  distorted_size := (100, 100);
  undistorted_size := (100, 100);
|}.

Definition cam_params : list CameraParameters := [sensor 100; sensor 200].

(** Two reference images at times 0 and 1 and, between them, an image of
    the second sensor at time 1/2. *)
Definition cams : list cameraImage := [
  {| camera_type := 0; timestamp := d 0; beg_ref_index := 0; end_ref_index := 0;
     image_name := "nav_cam/0.jpg" |};
  {| camera_type := 1; timestamp := half; beg_ref_index := 0; end_ref_index := 1;
     image_name := "haz_cam/0.5.jpg" |};
  {| camera_type := 0; timestamp := d 1; beg_ref_index := 1; end_ref_index := 1;
     image_name := "nav_cam/1.jpg" |} ].

Definition keypoint_vec : list (list Vector2d) := [
  [(d 10, d 10); (d 40, d 40)];
  [(d 20, d 12); (d 45, d 45)];
  [(d 30, d 14); (d 40, d 60)] ].

(** Track 0 is seen in the three images; track 1 in the two reference
    images, at the same pixel column. *)
Definition track0 : gmap Z Z := {[ 0 := 0; 1 := 0; 2 := 0 ]}.
Definition track1 : gmap Z Z := {[ 0 := 1; 2 := 1 ]}.

Definition all_inliers (track : gmap Z Z) : gmap Z (gmap Z Z) :=
  list_to_map (map (λ '(cid, fid), (cid, {[ fid := 1 ]})) (map_to_list track)).

Definition identity_block : list double := [d 1; d 0; d 0; d 0; d 0; d 0; d 0].

Definition identity_pose : @Affine3d externals := identity_block.

Definition world_to_cam : list (@Affine3d externals) :=
  [identity_pose; identity_pose; identity_pose].

Definition config : RigCalibrator.Config := {|
  RigCalibrator.cfg_ref_cam_type := 0;
  RigCalibrator.cfg_cam_params := cam_params;
  RigCalibrator.cfg_ref_to_cam_vec := identity_block ++ identity_block;
  RigCalibrator.cfg_ref_to_cam_timestamp_offsets := [d 0; d 0];
  RigCalibrator.cfg_ref_timestamps := [d 0; d 1];
  RigCalibrator.cfg_world_to_ref_vec := identity_block ++ identity_block;
|}.

Definition images : RigCalibrator.Images (H := externals) := {|
  RigCalibrator.img_cams := cams;
  RigCalibrator.img_world_to_cam := world_to_cam;
  RigCalibrator.img_world_to_cam_vec := identity_block ++ identity_block ++ identity_block;
  RigCalibrator.img_keypoint_vec := keypoint_vec;
  RigCalibrator.img_pid_to_cid_fid := [track0];
|}.

(** A solver stand-in: it raises every focal length by one, leaves the
    other parameters and the points as they are, and reports zero pixel
    residuals for every feature. *)
Definition solve (st : RigCalibrator.DriverState (H := externals))
    (xyz_vec : list Vector3d) : RigCalibrator.Solved := {|
  RigCalibrator.opt_world_to_ref_vec := RigCalibrator.world_to_ref_vec st;
  RigCalibrator.opt_world_to_cam_vec := RigCalibrator.world_to_cam_vec st;
  RigCalibrator.opt_ref_to_cam_vec := RigCalibrator.ref_to_cam_vec st;
  RigCalibrator.opt_ref_to_cam_timestamp_offsets :=
    RigCalibrator.ref_to_cam_timestamp_offsets st;
  RigCalibrator.opt_focal_lengths := map (Fp.add Fp.one) (RigCalibrator.focal_lengths st);
  RigCalibrator.opt_optical_centers := RigCalibrator.optical_centers st;
  RigCalibrator.opt_distortions := RigCalibrator.distortions st;
  RigCalibrator.opt_xyz_vec := xyz_vec;
  RigCalibrator.residuals := [Fp.zero; Fp.zero];
  RigCalibrator.pid_cid_fid_to_residual_index :=
    map (λ cm : gmap Z (gmap Z Z), (λ fm : gmap Z Z, (λ _ : Z, 0) <$> fm) <$> cm)
        (RigCalibrator.pid_cid_fid_inlier st);
|}.

Definition pipeline : RigCalibrator.Pipeline (H := externals) := {|
  RigCalibrator.read_config := λ _, Ok config;
  RigCalibrator.detect_match_features := λ _ _, Ok images;
  RigCalibrator.form_and_solve := λ _ _ _ _ st xyz_vec, Ok (solve st xyz_vec);
|}.

(** The default flags, with two passes. *)
Definition flags : RigCalibrator.Flags := {|
  RigCalibrator.ros_bag := "";
  RigCalibrator.sparse_map := "";
  RigCalibrator.output_map := "";
  RigCalibrator.num_overlaps := 10;
  RigCalibrator.robust_threshold := d 3;
  RigCalibrator.num_iterations := 20;
  RigCalibrator.bracket_len := d 1;
  RigCalibrator.nav_cam_intrinsics_to_float := "";
  RigCalibrator.float_scale := false;
  RigCalibrator.float_sparse_map := false;
  RigCalibrator.float_timestamp_offsets := false;
  RigCalibrator.nav_cam_num_exclude_boundary_pixels := 0;
  RigCalibrator.timestamp_offsets_max_change := d 1;
  RigCalibrator.depth_tri_weight := d 1000;
  RigCalibrator.mesh_tri_weight := d 0;
  RigCalibrator.depth_mesh_weight := d 0;
  RigCalibrator.affine_depth_to_image := false;
  RigCalibrator.refiner_num_passes := 2;
  RigCalibrator.max_reprojection_error := d 25;
  RigCalibrator.refiner_min_angle := half;
  RigCalibrator.registration := false;
  RigCalibrator.hugin_file := "";
  RigCalibrator.xyz_file := "";
  RigCalibrator.no_extrinsics := false;
  RigCalibrator.float_nonref_cameras := false;
  RigCalibrator.out_dir := "";
  RigCalibrator.save_images_and_depth_clouds := false;
  RigCalibrator.rig_config := "rig_config.txt";
  RigCalibrator.image_list := "images.txt";
  RigCalibrator.save_matches := false;
|}.

(** The same flags with [float_scale] and [affine_depth_to_image] both
    set. *)
Definition impossible_flags : RigCalibrator.Flags := {|
  RigCalibrator.ros_bag := "";
  RigCalibrator.sparse_map := "";
  RigCalibrator.output_map := "";
  RigCalibrator.num_overlaps := 10;
  RigCalibrator.robust_threshold := d 3;
  RigCalibrator.num_iterations := 20;
  RigCalibrator.bracket_len := d 1;
  RigCalibrator.nav_cam_intrinsics_to_float := "";
  RigCalibrator.float_scale := true;
  RigCalibrator.float_sparse_map := false;
  RigCalibrator.float_timestamp_offsets := false;
  RigCalibrator.nav_cam_num_exclude_boundary_pixels := 0;
  RigCalibrator.timestamp_offsets_max_change := d 1;
  RigCalibrator.depth_tri_weight := d 1000;
  RigCalibrator.mesh_tri_weight := d 0;
  RigCalibrator.depth_mesh_weight := d 0;
  RigCalibrator.affine_depth_to_image := true;
  RigCalibrator.refiner_num_passes := 2;
  RigCalibrator.max_reprojection_error := d 25;
  RigCalibrator.refiner_min_angle := half;
  RigCalibrator.registration := false;
  RigCalibrator.hugin_file := "";
  RigCalibrator.xyz_file := "";
  RigCalibrator.no_extrinsics := false;
  RigCalibrator.float_nonref_cameras := false;
  RigCalibrator.out_dir := "";
  RigCalibrator.save_images_and_depth_clouds := false;
  RigCalibrator.rig_config := "rig_config.txt";
  RigCalibrator.image_list := "images.txt";
  RigCalibrator.save_matches := false;
|}.

(** The state in which the first pass starts when every feature is an
    inlier. *)
Definition state0 : RigCalibrator.DriverState (H := externals) := {|
  RigCalibrator.cam_params := cam_params;
  RigCalibrator.world_to_ref_vec := identity_block ++ identity_block;
  RigCalibrator.world_to_cam_vec := identity_block ++ identity_block ++ identity_block;
  RigCalibrator.ref_to_cam_vec := identity_block ++ identity_block;
  RigCalibrator.ref_to_cam_timestamp_offsets := [d 0; d 0];
  RigCalibrator.focal_lengths := [d 100; d 200];
  RigCalibrator.optical_centers := [(d 50, d 50); (d 50, d 50)];
  RigCalibrator.distortions := [[Fp.zero]; [Fp.zero]];
  RigCalibrator.world_to_cam := world_to_cam;
  RigCalibrator.pid_cid_fid_inlier := [all_inliers track0];
|}.

(** A depth cloud of two rows and two columns with one invalid pixel. *)
Definition depth_cloud : RigCalibrator.Mat := {|
  RigCalibrator.rows := 2;
  RigCalibrator.cols := 2;
  RigCalibrator.data := [
    [(d 1, d 1, d 1); (Fp.zero, Fp.zero, Fp.zero)];
    [(d 2, d 2, d 2); (d 3, d 3, d 3)] ];
|}.

(** The run of [main] on the sample rig, and the state it ends in. *)
Definition run : RigCalibrator.Run RigCalibrator.DriverState :=
  RigCalibrator.main (H0 := pipeline) false flags.

Definition final_state : RigCalibrator.DriverState :=
  match run.2 with Ok st => st | _ => state0 end.

(** The events recorded after boundary exclusion and after the last
    call of the second pass. *)
Definition event2 : RigCalibrator.Event :=
  {| RigCalibrator.ev_op := RigCalibrator.OpFlagOutlierByExclusionDist;
     RigCalibrator.ev_inlier := [all_inliers track0] |}.

Definition event8 : RigCalibrator.Event :=
  {| RigCalibrator.ev_op := RigCalibrator.OpFlagOutliersByTriAngleAndReprojErr 1;
     RigCalibrator.ev_inlier := [all_inliers track0] |}.

(** The first pass from [state0], and the state it ends in. *)
Definition pass0 : RigCalibrator.Run RigCalibrator.DriverState :=
  RigCalibrator.optimization_pass (H0 := pipeline) flags config images cam_params 0 state0.

Definition pass0_state : RigCalibrator.DriverState :=
  match pass0.2 with Ok st => st | _ => state0 end.

(** Both tracks, every feature an inlier, and their triangulated points. *)
Definition tracks : list (gmap Z Z) := [track0; track1].
Definition inliers : PidCidFid Z := [all_inliers track0; all_inliers track1].
Definition landmarks : list Vector3d := [(d 1, d 2, d 3); (d 4, d 5, d 6)].

(** The rays of track 1, through the same pixel column of the two reference
    images, and the point at infinity where the stand-in puts them. *)
Definition track1_focal_lengths : list double := [d 100; d 100].
Definition track1_world_to_cam : list (@Affine3d externals) :=
  [identity_pose; identity_pose].
Definition track1_pixels : list Vector2d := [(d (-10), d (-10)); (d (-10), d 10)].
Definition track1_xyz : Vector3d :=
  (S754_infinity true, S754_infinity true, S754_infinity false).

(** The file [writeNvm] writes for the two tracks. *)
Definition nvm_file : InterestPoint.NvmFile (H := externals) :=
  match InterestPoint.writeNvm (H := externals) cam_params cams world_to_cam
          keypoint_vec tracks inliers landmarks with
  | Ok file => file
  | _ => {| InterestPoint.nvm_cameras := []; InterestPoint.nvm_points := [] |}
  end.

(** A mask for track 0 in which only the feature of image 0 is an inlier. *)
Definition one_inlier : PidCidFid Z :=
  [ {[ 0 := {[ 0 := 1 ]}; 1 := {[ 0 := 0 ]}; 2 := {[ 0 := 0 ]} ]} ].

(** Residuals of zero for every feature, all read at index 0. *)
Definition residual_index : PidCidFid Z :=
  [ {[ 0 := {[ 0 := 0 ]}; 1 := {[ 0 := 0 ]}; 2 := {[ 0 := 0 ]} ]} ].

(** A configuration whose second sensor has no distortion coefficient. *)
Definition bare_sensor : CameraParameters := {|
  focal_length := (d 200, d 200);
  optical_offset := (d 50, d 50);
  distortion := [];
  distorted_size := (100, 100);
  undistorted_size := (100, 100);
|}.

Definition bare_config : RigCalibrator.Config := {|
  RigCalibrator.cfg_ref_cam_type := 0;
  RigCalibrator.cfg_cam_params := [sensor 100; bare_sensor];
  RigCalibrator.cfg_ref_to_cam_vec := identity_block ++ identity_block;
  RigCalibrator.cfg_ref_to_cam_timestamp_offsets := [d 0; d 0];
  RigCalibrator.cfg_ref_timestamps := [d 0; d 1];
  RigCalibrator.cfg_world_to_ref_vec := identity_block ++ identity_block;
|}.

Definition bare_pipeline : RigCalibrator.Pipeline (H := externals) := {|
  RigCalibrator.read_config := λ _, Ok bare_config;
  RigCalibrator.detect_match_features := λ _ _, Ok images;
  RigCalibrator.form_and_solve := λ _ _ _ _ st xyz_vec, Ok (solve st xyz_vec);
|}.

(** What [WriteNVM] is given for the three images and the two tracks, and
    the file it writes. *)
Definition filenames : list string := map image_name cams.
Definition image_focal_lengths : list double := [d 100; d 200; d 100].

Definition written_file : InterestPoint.NvmFile (H := externals) :=
  match InterestPoint.WriteNVM (H := externals) keypoint_vec filenames
          image_focal_lengths tracks landmarks world_to_cam with
  | Ok file => file
  | _ => {| InterestPoint.nvm_cameras := []; InterestPoint.nvm_points := [] |}
  end.

(** The rig of the two sensors, with the identity for every transform, and
    the lines of its configuration. *)
Definition cam_names : list string := ["nav_cam"; "haz_cam"].
Definition rig_transforms : list RigCalibrator.MatrixXd :=
  [RigCalibrator.Identity; RigCalibrator.Identity].

Definition rig_config_lines : list RigCalibrator.ConfigLine :=
  match RigCalibrator.writeRigConfig (H := externals) "none" "fisheye" "radtan"
          RigCalibrator.Identity true true 0 cam_names cam_params rig_transforms
          rig_transforms [d 0; d 0] with
  | Ok f => f
  | _ => []
  end.

(** Stand-ins for [minDepth], for the intersection of a ray with the mesh
    (which the rays through the left quarter of the image meet, at the
    pixel and depth 1) and for the sum and quotient of points. *)
Definition min_depth (rays : list (double * list double * Vector2d)) : double := d 1.

Definition ray_hits (pix : Vector2d) (cp : CameraParameters) (w : list double)
  : bool * Vector3d :=
  (Fp.ltb pix.1 (d 25), (pix.1, pix.2, d 1)).

Definition add3 (a b : Vector3d) : Vector3d :=
  (Fp.add a.1.1 b.1.1, Fp.add a.1.2 b.1.2, Fp.add a.2 b.2).

Definition div3 (a : Vector3d) (n : Z) : Vector3d :=
  (Fp.div a.1.1 (d n), Fp.div a.1.2 (d n), Fp.div a.2 (d n)).

Definition no_point : Vector3d := (d (-1), d (-1), d (-1)).

(** The matches that the tool gathers for the two tracks with one overlap. *)
Definition saved_matches : InterestPoint.MATCH_MAP :=
  match InterestPoint.gather_matches (RigCalibrator.is_good 1) tracks keypoint_vec
          inliers with
  | Ok m => m
  | _ => ∅
  end.

Definition ip (x y : Z) : InterestPoint.InterestPoint :=
  {| InterestPoint.ip_x := d x; InterestPoint.ip_y := d y;
     InterestPoint.ip_ix := x; InterestPoint.ip_iy := y |}.

(** What the functions return on the sample rig. *)
Definition tool_short : PidCidFid Z * list Vector3d :=
  match RigCalibrator.multiViewTriangulation (H := externals) cam_params cams
          world_to_cam [track0] keypoint_vec one_inlier [] with
  | Ok r => r
  | _ => ([], [])
  end.


Definition tool_first : PidCidFid Z * list Vector3d :=
  match RigCalibrator.multiViewTriangulation (H := externals) cam_params cams
          world_to_cam [track0] keypoint_vec [all_inliers track0] [] with
  | Ok r => r
  | _ => ([], [])
  end.

Definition lib_long : PidCidFid Z * list Vector3d :=
  match InterestPoint.multiViewTriangulation (H := externals) cam_params cams
          world_to_cam tracks keypoint_vec inliers with
  | Ok r => r
  | _ => ([], [])
  end.



Definition rig_world_to_cam : list (@Affine3d externals) :=
  match RigCalibrator.calc_world_to_cam_transforms (H := externals) false cams
          (identity_block ++ identity_block) [d 0; d 1]
          (identity_block ++ identity_block) [] [d 0; d 0] [] with
  | Ok w => w
  | _ => []
  end.

Definition free_world_to_cam : list (@Affine3d externals) :=
  match RigCalibrator.calc_world_to_cam_transforms (H := externals) true cams
          [] [] [] (identity_block ++ identity_block ++ identity_block) []
          [[]; []; []; []] with
  | Ok w => w
  | _ => []
  end.

Definition triangulated_tracks : list (gmap Z Z) * list Vector3d :=
  match InterestPoint.Triangulate_tracks (H := externals) min_depth true (d 100)
          world_to_cam keypoint_vec tracks [] with
  | Ok r => r
  | _ => ([], [])
  end.

Definition mesh_points : PidCidFid Vector3d * list Vector3d :=
  match RigCalibrator.meshTriangulations (H := externals) ray_hits add3 div3
          cam_params cams world_to_cam tracks inliers keypoint_vec no_point [] [] with
  | Ok r => r
  | _ => ([], [])
  end.

Definition lib_saved_matches : InterestPoint.MATCH_MAP :=
  match InterestPoint.gather_matches (InterestPoint.is_good 0) tracks keypoint_vec
          inliers with
  | Ok m => m
  | _ => ∅
  end.

End Sample.

(** * Properties *)

(** ** Outcomes and loops *)

Lemma bind_Ok_inv {A B} (m : Result A) (f : A → Result B) (b : B) :
  m ≫= f = Ok b → ∃ a, m = Ok a ∧ f a = Ok b.
Proof. destruct m; [eauto|done|done]. Qed.

(** A relation that every step of a loop respects holds between the state
    the loop starts from and the one it ends in. *)
Lemma foldM_preserves {A S} (R : S → S → Prop) `{!Reflexive R} `{!Transitive R}
    (f : S → A → Result S) (l : list A) :
  (∀ s a s', a ∈ l → f s a = Ok s' → R s s') →
  ∀ s s', foldM f s l = Ok s' → R s s'.
Proof.
  induction l as [|a l IH]; intros Hf s s' Hfold.
  - injection Hfold as <-. reflexivity.
  - cbn [foldM] in Hfold.
    apply bind_Ok_inv in Hfold as (s1 & Hs1 & Hrest).
    transitivity s1.
    + eapply Hf; [constructor|done].
    + apply IH; [|done]. intros ? ? ? Hin. apply Hf. by constructor.
Qed.

(** An invariant that every step of a loop keeps holds when it ends. *)
Lemma foldM_invariant {A S} (P : S → Prop) (f : S → A → Result S) (l : list A) :
  (∀ s a s', a ∈ l → P s → f s a = Ok s' → P s') →
  ∀ s s', P s → foldM f s l = Ok s' → P s'.
Proof.
  induction l as [|a l IH]; intros Hf s s' Hs Hfold.
  - by injection Hfold as <-.
  - cbn [foldM] in Hfold.
    apply bind_Ok_inv in Hfold as (s1 & Hs1 & Hrest).
    eapply IH; [|eapply Hf; [constructor|done|done]|done].
    intros ? ? ? Hin. apply Hf. by constructor.
Qed.

(** ** The inlier mask *)

#[local] Instance mask_step_refl : Reflexive mask_step.
Proof. intros m pid cid fid. by left. Qed.

#[local] Instance mask_step_trans : Transitive mask_step.
Proof.
  intros m1 m2 m3 H12 H23 pid cid fid.
  destruct (H23 pid cid fid) as [H|[Hs H]], (H12 pid cid fid) as [H'|[Hs' H']].
  - left. congruence.
  - right. split; [done|congruence].
  - right. split; [congruence|done].
  - right. done.
Qed.

Lemma mask_step_binary (m m' : PidCidFid Z) :
  mask_step m m' → mask_binary m → mask_binary m'.
Proof.
  intros Hstep Hbin pid cid fid v Hv.
  destruct (Hstep pid cid fid) as [H|[_ H]].
  - eapply Hbin. by rewrite <- H.
  - left. congruence.
Qed.

Lemma mask_step_nonincreasing (m m' : PidCidFid Z) :
  mask_step m m' → mask_binary m → mask_nonincreasing m m'.
Proof.
  intros Hstep Hbin pid cid fid v Hv.
  destruct (Hstep pid cid fid) as [H|[_ H]].
  - exists v. split; [congruence|]. split; [lia|done].
  - exists 0. split; [done|]. split; [|done].
    destruct (Hbin _ _ _ _ Hv); lia.
Qed.

Lemma getMapValue_lookup3 {T} (m : PidCidFid T) (pid : nat) (cid fid : Z) (v : T) :
  getMapValue m pid cid fid = Ok v ↔ lookup3 m pid cid fid = Some v.
Proof.
  unfold getMapValue, lookup3.
  destruct (m !! pid) as [cm|]; cbn; [|done].
  destruct (cm !! cid) as [fm|]; cbn; [|done].
  destruct (fm !! fid); cbn; [|done].
  split; congruence.
Qed.

Lemma lookup3_insert {T} (m : PidCidFid T) (pid : nat) (cid fid : Z)
    (cm : gmap Z (gmap Z T)) (fm : gmap Z T) (val : T) (p : nat) (c f : Z) :
  m !! pid = Some cm →
  default ∅ (cm !! cid) = fm →
  lookup3 (<[pid := <[cid := <[fid := val]> fm]> cm]> m) p c f =
  if decide (p = pid ∧ c = cid ∧ f = fid) then Some val else lookup3 m p c f.
Proof.
  intros Hcm Hfm. unfold lookup3, PidCidFid in *.
  destruct (decide (p = pid)) as [->|Hp].
  - rewrite list_lookup_insert_eq by (by eapply lookup_lt_Some).
    rewrite Hcm. cbn.
    destruct (decide (c = cid)) as [->|Hc].
    + rewrite lookup_insert_eq. cbn.
      destruct (decide (f = fid)) as [->|Hf].
      * rewrite lookup_insert_eq. by rewrite decide_True.
      * rewrite lookup_insert_ne by done.
        rewrite decide_False by tauto.
        subst fm. by destruct (cm !! cid).
    + rewrite lookup_insert_ne by done. rewrite decide_False by tauto. done.
  - rewrite list_lookup_insert_ne by done. rewrite decide_False by tauto. done.
Qed.

Lemma setMapValue_lookup3 (m m' : PidCidFid Z) (pid : nat) (cid fid val : Z) :
  setMapValue m pid cid fid val = Ok m' →
  is_Some (lookup3 m pid cid fid)
  ∧ ∀ p c f, lookup3 m' p c f =
             if decide (p = pid ∧ c = cid ∧ f = fid) then Some val
             else lookup3 m p c f.
Proof.
  unfold setMapValue. intros Hset.
  destruct (m !! pid) as [cm|] eqn:Hcm; [|done].
  destruct (cm !! cid) as [fm|] eqn:Hfm; [|done].
  destruct (fm !! fid) as [old|] eqn:Hold; [|done].
  injection Hset as <-. split.
  - unfold lookup3. rewrite Hcm. cbn. rewrite Hfm. cbn. by rewrite Hold.
  - intros p c f. apply lookup3_insert; [done|]. by rewrite Hfm.
Qed.

Lemma setMapValue_zero_step (m m' : PidCidFid Z) (pid : nat) (cid fid : Z) :
  setMapValue m pid cid fid 0 = Ok m' → mask_step m m'.
Proof.
  intros Hset. apply setMapValue_lookup3 in Hset as [Hsome Hlook].
  intros p c f. rewrite Hlook.
  destruct (decide _) as [(-> & -> & ->)|]; [right|left]; done.
Qed.

Lemma set_track_outliers_step (m m' : PidCidFid Z) (pid : nat) (track : gmap Z Z) :
  set_track_outliers m pid track = Ok m' → mask_step m m'.
Proof.
  unfold set_track_outliers.
  apply (foldM_preserves mask_step).
  intros s [cid fid] s' _. apply setMapValue_zero_step.
Qed.

(** ** Parameter validation *)

Section Validation.
Context `{RigCalibrator.Pipeline}.
Import RigCalibrator.

Lemma parameterValidation_impossible (HAVE_ASTROBEE : bool) (FLAGS : Flags) :
  float_scale FLAGS && affine_depth_to_image FLAGS
  || float_nonref_cameras FLAGS && negb (no_extrinsics FLAGS)
  || no_extrinsics FLAGS && float_timestamp_offsets FLAGS = true →
  ∃ msg, parameterValidation HAVE_ASTROBEE FLAGS = Fatal msg.
Proof.
  intros Himp. unfold parameterValidation.
  destruct HAVE_ASTROBEE; cbn [negb].
  all: repeat match goal with
         | |- context [fatal_if ?c _] =>
             destruct c eqn:?; cbn [fatal_if mbind Result_bind];
             [eexists; reflexivity|]
         end.
  all: simpl in Himp; discriminate.
Qed.

(** C8: each of the impossible flag combinations (float_scale with
    affine_depth_to_image, float_nonref_cameras without no_extrinsics,
    float_timestamp_offsets with no_extrinsics) makes [parameterValidation]
    abort, and [main] then aborts with that very error before any recorded
    call (reading the configuration and images, matching, triangulation,
    solving) has been made, whatever those calls would do. *)
Theorem impossible_flags_abort_before_any_work (HAVE_ASTROBEE : bool) (FLAGS : Flags) :
  float_scale FLAGS && affine_depth_to_image FLAGS
  || float_nonref_cameras FLAGS && negb (no_extrinsics FLAGS)
  || no_extrinsics FLAGS && float_timestamp_offsets FLAGS = true →
  ∃ msg, parameterValidation HAVE_ASTROBEE FLAGS = Fatal msg
         ∧ main HAVE_ASTROBEE FLAGS = ([], Fatal msg).
Proof.
  intros Himp.
  destruct (parameterValidation_impossible HAVE_ASTROBEE FLAGS Himp) as [msg Hmsg].
  exists msg. split; [done|].
  unfold main. by rewrite Hmsg.
Qed.

End Validation.

(** ** Pose interpolation *)

Section Interpolation.
Context `{Externals}.
Import RigCalibrator.

(** C4: with distinct bracketing stamps the interpolation parameter is
    ((cam_stamp - beg_ref_stamp) - ref_to_cam_offset) / (end_ref_stamp -
    beg_ref_stamp), the call is fatal exactly when it is below 0 or above 1,
    and otherwise the result is ref_to_cam * linearInterp(alpha, beg, end);
    with equal stamps the result is the begin transform, whatever the end
    transform and the reference-to-sensor transform point to. *)
Theorem calc_world_to_cam_trans_spec (beg_world_to_ref_t : rigid_ptr)
    (beg_ref_stamp end_ref_stamp ref_to_cam_offset cam_stamp : double)
    (beg_aff : Affine3d) :
  read_rigid beg_world_to_ref_t = Ok beg_aff →
  (Fp.eqb beg_ref_stamp end_ref_stamp = true →
   ∀ end_world_to_ref_t ref_to_cam_trans,
     calc_world_to_cam_trans beg_world_to_ref_t end_world_to_ref_t ref_to_cam_trans
       beg_ref_stamp end_ref_stamp ref_to_cam_offset cam_stamp = Ok beg_aff)
  ∧ (Fp.eqb beg_ref_stamp end_ref_stamp = false →
     ∀ end_world_to_ref_t ref_to_cam_trans end_aff ref_to_cam_aff,
       read_rigid end_world_to_ref_t = Ok end_aff →
       read_rigid ref_to_cam_trans = Ok ref_to_cam_aff →
       let alpha :=
         Fp.div (Fp.sub (Fp.sub cam_stamp beg_ref_stamp) ref_to_cam_offset)
                (Fp.sub end_ref_stamp beg_ref_stamp) in
       let r :=
         calc_world_to_cam_trans beg_world_to_ref_t end_world_to_ref_t
           ref_to_cam_trans beg_ref_stamp end_ref_stamp ref_to_cam_offset cam_stamp in
       (is_Fatal r = true ↔ Fp.ltb alpha Fp.zero = true ∨ Fp.gtb alpha Fp.one = true)
       ∧ (is_Fatal r = false →
          r = Ok (affine_mul ref_to_cam_aff (linearInterp alpha beg_aff end_aff)))).
Proof.
  intros Hbeg. split.
  - intros Heq end_t r2c. unfold calc_world_to_cam_trans.
    rewrite Hbeg. cbn [mbind Result_bind]. by rewrite Heq.
  - intros Hne end_t r2c end_aff r2c_aff Hend Hr2c alpha r.
    subst r. unfold calc_world_to_cam_trans.
    rewrite Hbeg. cbn [mbind Result_bind]. rewrite Hne, Hend.
    cbn [mbind Result_bind]. rewrite Hr2c. cbn [mbind Result_bind].
    fold alpha. unfold interp_alpha. fold alpha.
    destruct (Fp.ltb alpha Fp.zero) eqn:Hlt, (Fp.gtb alpha Fp.one) eqn:Hgt;
      cbn [orb is_Fatal]; split; try done; try tauto; intuition discriminate.
Qed.

End Interpolation.

(** ** Depth lookup *)

Section DepthLookup.
Context `{Externals}.
Import RigCalibrator.

Lemma mat_at_in_range (m : Mat) (row col : Z) :
  Mat_wf m → 0 ≤ row < rows m → 0 ≤ col < cols m →
  ∃ v, mat_at m row col = Ok v.
Proof.
  intros (Hr & Hc & Hlen & Hall) Hrow Hcol.
  unfold mat_at, vec_at.
  destruct (Z.ltb_spec row 0); [lia|].
  destruct (data m !! Z.to_nat row) as [r|] eqn:Hlook.
  - cbn [mbind Result_bind].
    destruct (Z.ltb_spec col 0); [lia|].
    assert (Z.of_nat (length r) = cols m) as Hlr.
    { rewrite Forall_forall in Hall. apply Hall.
      eapply list_elem_of_lookup_2, Hlook. }
    destruct (r !! Z.to_nat col) as [v|] eqn:Hv; [by eexists|].
    apply lookup_ge_None in Hv. lia.
  - apply lookup_ge_None in Hlook. lia.
Qed.

(** C5: for a depth cloud of positive size rows x cols and a pixel whose
    rounded coordinates are (col, row): when 0 <= col <= cols and
    0 <= row <= rows the lookup returns (it does not abort), it returns false
    when col = cols or row = rows, and false when the stored value compares
    equal to (0, 0, 0); it aborts exactly when col or row is negative or
    exceeds its dimension. *)
Theorem depthValue_bounds (depth_cloud : Mat) (dist_ip : Vector2d) (col row : Z) :
  Mat_wf depth_cloud →
  0 < rows depth_cloud → 0 < cols depth_cloud →
  Fp.round_to_int dist_ip.1 = Ok col →
  Fp.round_to_int dist_ip.2 = Ok row →
  (0 ≤ col ≤ cols depth_cloud → 0 ≤ row ≤ rows depth_cloud →
   ∃ found depth_xyz,
     depthValue depth_cloud dist_ip = Ok (found, depth_xyz)
     ∧ (col = cols depth_cloud ∨ row = rows depth_cloud → found = false)
     ∧ (∀ v, mat_at depth_cloud row col = Ok v →
             vec3_eqb v zero3 = true → found = false))
  ∧ (is_Fatal (depthValue depth_cloud dist_ip) = true ↔
     col < 0 ∨ row < 0 ∨ cols depth_cloud < col ∨ rows depth_cloud < row).
Proof.
  intros Hwf Hrows Hcols Hcol Hrow.
  unfold depthValue. rewrite Hcol, Hrow. cbn [mbind Result_bind].
  destruct (Z.eqb_spec (cols depth_cloud) 0); [lia|]. cbn [andb].
  destruct (Z.ltb_spec col 0), (Z.ltb_spec row 0),
    (Z.ltb_spec (cols depth_cloud) col), (Z.ltb_spec (rows depth_cloud) row);
    cbn [orb is_Fatal]; (split; [intros; lia || idtac | try (split; [done|lia]); try tauto]).
  all: try (split; [done|]; intros; lia).
  - destruct (Z.eqb_spec col (cols depth_cloud)), (Z.eqb_spec row (rows depth_cloud));
      cbn [orb]; try (eexists _, _; split; [reflexivity|]; split; [done|done]).
    destruct (mat_at_in_range depth_cloud row col Hwf) as [v Hv]; [lia|lia|].
    rewrite Hv. cbn [mbind Result_bind].
    destruct (vec3_eqb v zero3) eqn:Hz.
    + eexists _, _. split; [reflexivity|]. split; [done|done].
    + eexists _, _. split; [reflexivity|]. split; [intros [?|?]; lia|].
      intros v' [= <-] Hz'. congruence.
  - destruct (Z.eqb_spec col (cols depth_cloud)), (Z.eqb_spec row (rows depth_cloud));
      cbn [orb is_Fatal]; try (split; [done|lia]).
    destruct (mat_at_in_range depth_cloud row col Hwf) as [v Hv]; [lia|lia|].
    rewrite Hv. cbn [mbind Result_bind].
    destruct (vec3_eqb v zero3); cbn [is_Fatal]; (split; [done|lia]).
Qed.

End DepthLookup.

(** ** Triangulation and the outlier flaggers never raise an entry *)

Ltac inv_bind H :=
  let a := fresh "a" in
  let Ha := fresh "Ha" in
  apply bind_Ok_inv in H as (a & Ha & H).

Tactic Notation "bind_inv" hyp(H) "as" simple_intropattern(a) ident(Ha) :=
  apply bind_Ok_inv in H as (a & Ha & H).

Section MaskMonotone.
Context `{Externals}.

#[local] Instance fst_step_refl : Reflexive fst_step.
Proof. intros s. unfold fst_step. reflexivity. Qed.

#[local] Instance fst_step_trans : Transitive fst_step.
Proof. intros s1 s2 s3. unfold fst_step. apply mask_step_trans. Qed.

Lemma tool_triangulate_track_step cam_params cams world_to_cam keypoint_vec
    (st st' : PidCidFid Z * list Vector3d) (pid_track : nat * gmap Z Z) :
  RigCalibrator.triangulate_track cam_params cams world_to_cam keypoint_vec st pid_track
    = Ok st' →
  fst_step st st'.
Proof.
  destruct st as [m xyz], pid_track as [pid track].
  unfold RigCalibrator.triangulate_track, fst_step. intros Htri.
  inv_bind Htri. destruct a as [[fv wv] pv].
  destruct (length pv <? 2)%nat.
  - inv_bind Htri. injection Htri as <-. cbn.
    by eapply set_track_outliers_step.
  - inv_bind Htri. injection Htri as <-. cbn. reflexivity.
Qed.

Lemma tool_multiViewTriangulation_step cam_params cams world_to_cam pid_to_cid_fid
    keypoint_vec (m m' : PidCidFid Z) (xyz_vec xyz_vec' : list Vector3d) :
  RigCalibrator.multiViewTriangulation cam_params cams world_to_cam pid_to_cid_fid
    keypoint_vec m xyz_vec = Ok (m', xyz_vec') →
  mask_step m m'.
Proof.
  unfold RigCalibrator.multiViewTriangulation. intros Hfold.
  apply (foldM_preserves fst_step) in Hfold; [done|].
  intros s a s' _. apply tool_triangulate_track_step.
Qed.

Lemma lib_triangulate_track_step cam_params cams world_to_cam keypoint_vec
    (st st' : PidCidFid Z * list Vector3d) (pid_track : nat * gmap Z Z) :
  InterestPoint.triangulate_track cam_params cams world_to_cam keypoint_vec st pid_track
    = Ok st' →
  fst_step st st'.
Proof.
  destruct st as [m xyz], pid_track as [pid track].
  unfold InterestPoint.triangulate_track, fst_step. intros Htri.
  inv_bind Htri. destruct a as [[fv wv] pv].
  destruct (length pv <? 2)%nat.
  - inv_bind Htri. injection Htri as <-. cbn.
    by eapply set_track_outliers_step.
  - inv_bind Htri. destruct (InterestPoint.bad_xyz a).
    + inv_bind Htri. injection Htri as <-. cbn.
      by eapply set_track_outliers_step.
    + injection Htri as <-. cbn. reflexivity.
Qed.

Lemma lib_multiViewTriangulation_step cam_params cams world_to_cam pid_to_cid_fid
    keypoint_vec (m m' : PidCidFid Z) (xyz_vec' : list Vector3d) :
  InterestPoint.multiViewTriangulation cam_params cams world_to_cam pid_to_cid_fid
    keypoint_vec m = Ok (m', xyz_vec') →
  mask_step m m'.
Proof.
  unfold InterestPoint.multiViewTriangulation. intros Hfold.
  apply (foldM_preserves fst_step) in Hfold; [done|].
  intros s a s' _. apply lib_triangulate_track_step.
Qed.

Lemma flag_inliers_step (pid : nat) (items : list (Z * Z)) (m m' : PidCidFid Z) :
  foldM (λ mask '(cid, fid),
           getMapValue mask pid cid fid ≫= λ inlier,
           if inlier =? 0 then Ok mask
           else setMapValue mask pid cid fid 0) m items = Ok m' →
  mask_step m m'.
Proof.
  apply (foldM_preserves mask_step).
  intros s [cid fid] s' _ Hstep. inv_bind Hstep.
  destruct (a =? 0).
  - injection Hstep as <-. reflexivity.
  - by eapply setMapValue_zero_step.
Qed.

Lemma flagOutliersByTriAngle_step refiner_min_angle pid_to_cid_fid world_to_cam
    xyz_vec (m m' : PidCidFid Z) :
  RigCalibrator.flagOutliersByTriAngle refiner_min_angle pid_to_cid_fid world_to_cam
    xyz_vec m = Ok m' →
  mask_step m m'.
Proof.
  unfold RigCalibrator.flagOutliersByTriAngle.
  apply (foldM_preserves mask_step).
  intros s [pid track] s' _ Hstep. inv_bind Hstep.
  destruct (Fp.geb a refiner_min_angle).
  - injection Hstep as <-. reflexivity.
  - by eapply flag_inliers_step.
Qed.

Lemma flagOutliersByReprojErr_step max_reprojection_error pid_to_cid_fid
    residual_index residuals (m m' : PidCidFid Z) :
  RigCalibrator.flagOutliersByReprojErr max_reprojection_error pid_to_cid_fid
    residual_index residuals m = Ok m' →
  mask_step m m'.
Proof.
  unfold RigCalibrator.flagOutliersByReprojErr.
  apply (foldM_preserves mask_step).
  intros s [pid track] s' _.
  apply (foldM_preserves mask_step).
  intros s1 [cid fid] s1' _ Hstep. inv_bind Hstep.
  destruct (a =? 0).
  - injection Hstep as <-. reflexivity.
  - do 4 inv_bind Hstep.
    destruct (negb _).
    + by eapply setMapValue_zero_step.
    + injection Hstep as <-. reflexivity.
Qed.

Lemma flagOutliersByTriAngleAndReprojErr_step refiner_min_angle max_reprojection_error
    pid_to_cid_fid world_to_cam xyz_vec residual_index residuals (m m' : PidCidFid Z) :
  RigCalibrator.flagOutliersByTriAngleAndReprojErr refiner_min_angle
    max_reprojection_error pid_to_cid_fid world_to_cam xyz_vec residual_index
    residuals m = Ok m' →
  mask_step m m'.
Proof.
  unfold RigCalibrator.flagOutliersByTriAngleAndReprojErr. intros Hflag.
  inv_bind Hflag. transitivity a.
  - by eapply flagOutliersByTriAngle_step.
  - by eapply flagOutliersByReprojErr_step.
Qed.

End MaskMonotone.

(** ** The masks recorded along a run *)

Section RunChain.
Context `{RigCalibrator.Pipeline}.
Import RigCalibrator.

Lemma mask_chain_weaken (m m1 : PidCidFid Z) (tr : list Event) :
  mask_step m m1 → mask_chain m1 tr → mask_chain m tr.
Proof.
  destruct tr as [|e tr]; [done|]. intros Hstep [He Htr].
  split; [|done]. by transitivity m1.
Qed.

Lemma last_mask_cons (m : PidCidFid Z) (e : Event) (tr : list Event) :
  last_mask m (e :: tr) = last_mask (ev_inlier e) tr.
Proof.
  unfold last_mask. cbn [map]. revert m e.
  induction tr as [|e' tr IH]; intros m e; [done|].
  cbn [map] in *.
  change (List.last (ev_inlier e :: ev_inlier e' :: map ev_inlier tr) m)
    with (List.last (ev_inlier e' :: map ev_inlier tr) m).
  by rewrite !IH.
Qed.

Lemma last_mask_app (m : PidCidFid Z) (tr tr' : list Event) :
  last_mask m (tr ++ tr') = last_mask (last_mask m tr) tr'.
Proof.
  revert m. induction tr as [|e tr IH]; intros m; [done|].
  cbn [app]. by rewrite !last_mask_cons, IH.
Qed.

Lemma mask_chain_app (m : PidCidFid Z) (tr tr' : list Event) :
  mask_chain m tr → mask_chain (last_mask m tr) tr' → mask_chain m (tr ++ tr').
Proof.
  revert m. induction tr as [|e tr IH]; intros m; [done|].
  cbn [app mask_chain]. intros [He Htr]. rewrite last_mask_cons. intros Htr'.
  split; [done|]. by apply IH.
Qed.

Lemma last_mask_step (m m1 : PidCidFid Z) (tr : list Event) :
  mask_step m m1 → mask_step (last_mask m tr) (last_mask m1 tr).
Proof.
  destruct tr as [|e tr]; [done|]. intros _. rewrite !last_mask_cons. reflexivity.
Qed.

Lemma run_chain_bind {A B} (m0 : PidCidFid Z) (c : Run A) (f : A → Run B)
    (getA : A → PidCidFid Z) (getB : B → PidCidFid Z) :
  run_chain m0 c getA →
  (∀ a, c.2 = Ok a → run_chain (getA a) (f a) getB) →
  run_chain m0 (run_bind c f) getB.
Proof.
  unfold run_chain.
  destruct c as [tr [a|msg|]]; intros [Hchain Hlast] Hf;
    cbn [fst snd run_bind] in *.
  - specialize (Hlast a eq_refl). specialize (Hf a eq_refl).
    destruct (f a) as [tr' r]. destruct Hf as [Hchain' Hlast'].
    cbn [fst snd] in *. split.
    + apply mask_chain_app; [done|]. by eapply mask_chain_weaken.
    + intros b ->. rewrite last_mask_app.
      transitivity (last_mask (getA a) tr'); [by apply last_mask_step|].
      by apply Hlast'.
  - split; [done|]. intros ? [=].
  - split; [done|]. intros ? [=].
Qed.

Lemma run_chain_lift {A} (m0 : PidCidFid Z) (r : Result A) (get : A → PidCidFid Z) :
  (∀ a, r = Ok a → mask_step m0 (get a)) → run_chain m0 (lift r) get.
Proof. intros Hr. split; [done|]. cbn. done. Qed.

Lemma run_chain_call {A} (m0 : PidCidFid Z) (op : Op) (r : Result A)
    (get : A → PidCidFid Z) :
  (∀ a, r = Ok a → mask_step m0 (get a)) → run_chain m0 (call op r get) get.
Proof.
  intros Hr. destruct r as [a|msg|]; cbn.
  - split; cbn.
    + split; [by apply Hr|done].
    + intros ? [= <-]. reflexivity.
  - split; [done|]. intros ? [=].
  - split; [done|]. intros ? [=].
Qed.

Lemma run_chain_ret {A} (a : A) (get : A → PidCidFid Z) :
  run_chain (get a) (run_ret a) get.
Proof. split; [done|]. cbn. intros ? [= <-]. reflexivity. Qed.

Lemma copy_back_inlier FLAGS cfg imgs orig st sol st' :
  copy_back FLAGS cfg imgs orig st sol = Ok st' →
  pid_cid_fid_inlier st' = pid_cid_fid_inlier st.
Proof.
  unfold copy_back. intros Hcb. inv_bind Hcb. destruct a as [w2c w2r].
  do 2 inv_bind Hcb. by injection Hcb as <-.
Qed.

Lemma optimization_pass_chain FLAGS cfg imgs orig pass st :
  run_chain (pid_cid_fid_inlier st) (optimization_pass FLAGS cfg imgs orig pass st)
    pid_cid_fid_inlier.
Proof.
  unfold optimization_pass.
  eapply (run_chain_bind _ _ _ (λ _, pid_cid_fid_inlier st)).
  { apply run_chain_lift. reflexivity. }
  intros w2c _.
  eapply (run_chain_bind _ _ _ fst).
  { apply run_chain_call. intros [m xyz] Htri. cbn.
    by eapply tool_multiViewTriangulation_step. }
  intros [m xyz] _. cbn [fst].
  eapply (run_chain_bind _ _ _ (λ st_sol, pid_cid_fid_inlier st_sol.1)).
  { apply run_chain_call. intros [st1 sol] Hsolve. cbn.
    do 2 inv_bind Hsolve. injection Hsolve as <- <-.
    apply copy_back_inlier in Ha0. rewrite Ha0. reflexivity. }
  intros [st1 sol] _. cbn [fst].
  eapply (run_chain_bind _ _ _ (λ _, pid_cid_fid_inlier st1)).
  { apply run_chain_lift. reflexivity. }
  intros w2c' _.
  eapply (run_chain_bind _ _ _ id).
  { apply run_chain_call. intros m' Hflag. cbn.
    by eapply flagOutliersByTriAngleAndReprojErr_step. }
  intros m' _. apply (run_chain_ret (set_inlier _ m') pid_cid_fid_inlier).
Qed.

Lemma run_passes_chain FLAGS cfg imgs orig n pass st :
  run_chain (pid_cid_fid_inlier st) (run_passes FLAGS cfg imgs orig n pass st)
    pid_cid_fid_inlier.
Proof.
  revert pass st. induction n as [|n IH]; intros pass st; cbn [run_passes].
  - apply run_chain_ret.
  - eapply run_chain_bind; [apply optimization_pass_chain|].
    intros st' _. apply IH.
Qed.

End RunChain.

(** ** The mask that boundary exclusion builds *)

Section Exclusion.
Context `{Externals}.
Import RigCalibrator.

Lemma lookup3_nil {T} (pid : nat) (cid fid : Z) :
  lookup3 (T := T) [] pid cid fid = None.
Proof. done. Qed.

Lemma lookup3_resize_empty {T} (n : nat) (m : PidCidFid T) (pid : nat) (cid fid : Z) (v : T) :
  lookup3 (resize n ∅ m) pid cid fid = Some v → lookup3 m pid cid fid = Some v.
Proof.
  unfold lookup3, resize, PidCidFid in *.
  destruct (decide (pid < length (take n m))%nat) as [Hlt|Hge].
  - rewrite lookup_app_l by done.
    rewrite length_take in Hlt. rewrite lookup_take_lt by lia. done.
  - rewrite lookup_app_r by lia.
    destruct (replicate _ _ !! _) as [cm|] eqn:Hrep; [|done].
    apply lookup_replicate in Hrep as [-> _]. cbn. by rewrite lookup_empty.
Qed.

Lemma assignMapValue_lookup3 (m m' : PidCidFid Z) (pid : nat) (cid fid val : Z) :
  assignMapValue m pid cid fid val = Ok m' →
  ∀ p c f, lookup3 m' p c f =
           if decide (p = pid ∧ c = cid ∧ f = fid) then Some val
           else lookup3 m p c f.
Proof.
  unfold assignMapValue. intros Hassign.
  destruct (m !! pid) as [cm|] eqn:Hcm; [|done].
  injection Hassign as <-. intros p c f. by apply lookup3_insert.
Qed.

Lemma exclusion_step_binary ref_cam_type excl cam_params cams keypoint_vec pid
    (m m' : PidCidFid Z) (cid_fid : Z * Z) :
  mask_binary m →
  exclusion_step ref_cam_type excl cam_params cams keypoint_vec pid m cid_fid = Ok m' →
  mask_binary m'.
Proof.
  destruct cid_fid as [cid fid]. unfold exclusion_step. intros Hbin Hstep.
  inv_bind Hstep.
  assert (mask_binary a) as Hbin1.
  { intros p c f v. rewrite (assignMapValue_lookup3 _ _ _ _ _ _ Ha).
    case_decide; [intros [= <-]; by right|apply Hbin]. }
  inv_bind Hstep. destruct (camera_type a0 =? ref_cam_type).
  - do 2 inv_bind Hstep.
    match type of Hstep with
    | (if ?c then _ else _) = _ => destruct c
    end.
    + eapply mask_step_binary; [|done]. by eapply setMapValue_zero_step.
    + by injection Hstep as <-.
  - by injection Hstep as <-.
Qed.

Lemma flagOutlierByExclusionDist_binary ref_cam_type excl cam_params cams
    pid_to_cid_fid keypoint_vec (m_in m : PidCidFid Z) :
  mask_binary m_in →
  flagOutlierByExclusionDist ref_cam_type excl cam_params cams pid_to_cid_fid
    keypoint_vec m_in = Ok m →
  mask_binary m.
Proof.
  unfold flagOutlierByExclusionDist. intros Hbin.
  apply (foldM_invariant mask_binary).
  - intros s [pid track] s' _ Hs.
    apply (foldM_invariant mask_binary); [|done].
    intros s1 a s1' _. apply exclusion_step_binary.
  - intros p c f v Hv. apply lookup3_resize_empty in Hv. by eapply Hbin.
Qed.

End Exclusion.

(** ** Inlier monotonicity along a run of the driver *)

Section Monotone.
Context `{RigCalibrator.Pipeline}.
Import RigCalibrator.

Lemma mask_chain_mono (tr : list Event) (m : PidCidFid Z) :
  mask_binary m → mask_chain m tr →
  (∀ (j : nat) ej, tr !! j = Some ej →
     mask_step m (ev_inlier ej) ∧ mask_binary (ev_inlier ej))
  ∧ mono_trace tr.
Proof.
  revert m. induction tr as [|e tr IH]; intros m Hbin Hchain.
  - split; [intros j ej [=]|intros i j ei ej _ [=]].
  - destruct Hchain as [He Htr].
    assert (mask_binary (ev_inlier e)) as Hbe by by eapply mask_step_binary.
    destruct (IH _ Hbe Htr) as [Hfrom Hmono].
    assert (∀ (j : nat) ej, (e :: tr) !! j = Some ej →
              mask_step (ev_inlier e) (ev_inlier ej) ∧ mask_binary (ev_inlier ej))
      as Hfrom'.
    { intros [|j] ej Hj; cbn in Hj.
      - injection Hj as <-. split; [reflexivity|done].
      - by apply (Hfrom j ej). }
    split.
    + intros j ej Hj. destruct (Hfrom' j ej Hj) as [Hs Hb].
      split; [by transitivity (ev_inlier e)|done].
    + intros [|i] [|j] ei ej Hij Hi Hj; cbn in Hi, Hj.
      * injection Hi as <-. injection Hj as <-.
        apply mask_step_nonincreasing; [reflexivity|done].
      * injection Hi as <-.
        apply mask_step_nonincreasing; [|done].
        by apply (Hfrom j ej).
      * lia.
      * apply (Hmono i j); [lia|done|done].
Qed.

Lemma mono_trace_prefix (pre post : list Event) :
  Forall (λ e, ev_inlier e = []) pre → mono_trace post → mono_trace (pre ++ post).
Proof.
  intros Hpre Hpost i j ei ej Hij Hi Hj.
  destruct (decide (i < length pre)%nat) as [Hlt|Hge].
  - rewrite lookup_app_l in Hi by done.
    rewrite Forall_forall in Hpre.
    rewrite (Hpre ei) by (by eapply list_elem_of_lookup_2).
    intros pid cid fid v Hv. by rewrite lookup3_nil in Hv.
  - rewrite lookup_app_r in Hi by lia. rewrite lookup_app_r in Hj by lia.
    apply (Hpost (i - length pre)%nat (j - length pre)%nat); [lia|done|done].
Qed.

Lemma main_trace_shape (HAVE_ASTROBEE : bool) (FLAGS : Flags) :
  ∃ pre post m0,
    (main HAVE_ASTROBEE FLAGS).1 = pre ++ post
    ∧ Forall (λ e, ev_inlier e = []) pre
    ∧ mask_binary m0 ∧ mask_chain m0 post.
Proof.
  assert (mask_binary (@nil (gmap Z (gmap Z Z)))) as Hnil.
  { intros pid cid fid v Hv. by rewrite lookup3_nil in Hv. }
  unfold main.
  destruct (parameterValidation HAVE_ASTROBEE FLAGS) as [[]|msg|];
    cbn [lift run_bind fst];
    [|by exists [], [], []|by exists [], [], []].
  destruct (read_config FLAGS) as [cfg|msg|];
    cbn [call lift run_bind fst];
    [|by exists [], [], []|by exists [], [], []].
  destruct (intrinsics_arrays (cfg_cam_params cfg)) as [[[fl oc] ds]|msg|];
    cbn [call lift run_bind fst app];
    [|by eexists [_], [], []; repeat split; [repeat constructor|..]
     |by eexists [_], [], []; repeat split; [repeat constructor|..]].
  destruct (detect_match_features FLAGS cfg) as [imgs|msg|];
    cbn [call lift run_bind fst app];
    [|by eexists [_], [], []; repeat split; [repeat constructor|..]
     |by eexists [_], [], []; repeat split; [repeat constructor|..]].
  destruct (flagOutlierByExclusionDist _ _ _ _ _ _ _) as [mask|msg|] eqn:Hflag;
    cbn [call lift run_bind fst app];
    [|by eexists [_; _], [], []; repeat split; [repeat constructor|..]
     |by eexists [_; _], [], []; repeat split; [repeat constructor|..]].
  match goal with
  | |- context [run_passes ?F ?c ?i ?o ?n ?p ?st] =>
      pose proof (run_passes_chain F c i o n p st) as [Hchain _];
      destruct (run_passes F c i o n p st) as [tr r]
  end.
  cbn [fst pid_cid_fid_inlier id] in *.
  eexists [_; _], (_ :: tr), mask. split; [reflexivity|].
  split; [repeat constructor|]. split.
  - eapply flagOutlierByExclusionDist_binary; [|exact Hflag]. exact Hnil.
  - split; [reflexivity|exact Hchain].
Qed.

(** C3: along every run of [main], whatever the files, the features and the
    solver, the inlier mask recorded after a later call is pointwise no larger
    than the mask recorded after an earlier one, an entry that is there stays
    there, and an entry that is 0 stays 0: no call of any pass (triangulation,
    the solve, the angle and reprojection filters) sets an entry back to 1. *)
Theorem inlier_mask_monotone (HAVE_ASTROBEE : bool) (FLAGS : Flags)
    (i j : nat) (ei ej : Event) :
  (i ≤ j)%nat →
  (main HAVE_ASTROBEE FLAGS).1 !! i = Some ei →
  (main HAVE_ASTROBEE FLAGS).1 !! j = Some ej →
  mask_nonincreasing (ev_inlier ei) (ev_inlier ej).
Proof.
  destruct (main_trace_shape HAVE_ASTROBEE FLAGS)
    as (pre & post & m0 & -> & Hpre & Hbin & Hchain).
  intros Hij Hi Hj.
  eapply (mono_trace_prefix pre post); [done| |done|done|done].
  by eapply mask_chain_mono.
Qed.

End Monotone.

(** ** The order of the calls *)

Section CallOrder.
Context `{RigCalibrator.Pipeline}.
Import RigCalibrator.

Lemma call_Ok_inv {A} (op : Op) (r : Result A) (get : A → PidCidFid Z)
    (tr : list Event) (a : A) :
  call op r get = (tr, Ok a) → r = Ok a ∧ map ev_op tr = [op].
Proof. destruct r; cbn; intros [= <- <-]; done. Qed.

Lemma lift_Ok_inv {A} (r : Result A) (tr : list Event) (a : A) :
  lift r = (tr, Ok a) → r = Ok a ∧ tr = [].
Proof. unfold lift. by intros [= <- <-]. Qed.

Lemma run_bind_Ok_inv {A B} (c : Run A) (f : A → Run B) (tr : list Event) (b : B) :
  run_bind c f = (tr, Ok b) →
  ∃ tr1 a tr2, c = (tr1, Ok a) ∧ f a = (tr2, Ok b) ∧ tr = tr1 ++ tr2.
Proof.
  destruct c as [tr1 [a|msg|]]; cbn; [|done|done].
  destruct (f a) as [tr2 r] eqn:Hf. intros [= <- ->]. eauto 6.
Qed.

Lemma optimization_pass_Ok_inv FLAGS cfg imgs orig pass st tr st' :
  optimization_pass FLAGS cfg imgs orig pass st = (tr, Ok st') →
  map ev_op tr = pass_ops pass
  ∧ ∃ w2c mask xyz_vec sol st1,
      form_and_solve FLAGS cfg imgs pass
        (set_inlier (set_world_to_cam st w2c) mask) xyz_vec = Ok sol
      ∧ copy_back FLAGS cfg imgs orig
          (set_inlier (set_world_to_cam st w2c) mask) sol = Ok st1
      ∧ cam_params st' = cam_params st1
      ∧ focal_lengths st' = focal_lengths st1
      ∧ optical_centers st' = optical_centers st1
      ∧ distortions st' = distortions st1.
Proof.
  unfold optimization_pass. intros Hpass.
  apply run_bind_Ok_inv in Hpass as (tr1 & w2c & tr1' & Hw & Hpass & ->).
  apply lift_Ok_inv in Hw as [_ ->].
  apply run_bind_Ok_inv in Hpass as (tr2 & [mask xyz] & tr2' & Htri & Hpass & ->).
  apply call_Ok_inv in Htri as [_ Htr2].
  apply run_bind_Ok_inv in Hpass as (tr3 & [st1 sol] & tr3' & Hsolve & Hpass & ->).
  apply call_Ok_inv in Hsolve as [Hsolve Htr3].
  apply run_bind_Ok_inv in Hpass as (tr4 & w2c' & tr4' & Hw' & Hpass & ->).
  apply lift_Ok_inv in Hw' as [_ ->].
  apply run_bind_Ok_inv in Hpass as (tr5 & mask' & tr5' & Hflag & Hret & ->).
  apply call_Ok_inv in Hflag as [_ Htr5].
  injection Hret as <- <-.
  split.
  - rewrite !map_app, Htr2, Htr3, Htr5. reflexivity.
  - inv_bind Hsolve. inv_bind Hsolve. injection Hsolve as <- <-.
    exists w2c, mask, xyz, a, a0. done.
Qed.

Lemma run_passes_ops FLAGS cfg imgs orig n pass st tr st' :
  run_passes FLAGS cfg imgs orig n pass st = (tr, Ok st') →
  map ev_op tr = flat_map pass_ops (seq pass n).
Proof.
  revert pass st tr. induction n as [|n IH]; intros pass st tr; cbn [run_passes].
  - by intros [= <- _].
  - intros Hrun.
    apply run_bind_Ok_inv in Hrun as (tr1 & st1 & tr2 & Hpass & Hrest & ->).
    apply optimization_pass_Ok_inv in Hpass as [Hops _].
    apply IH in Hrest. rewrite map_app, Hops, Hrest. reflexivity.
Qed.

Lemma call_Ok_trace {A} (op : Op) (r : Result A) (get : A → PidCidFid Z)
    (tr : list Event) (a : A) :
  call op r get = (tr, Ok a) →
  r = Ok a ∧ tr = [ {| ev_op := op; ev_inlier := get a |} ].
Proof. destruct r; cbn; intros [= <- <-]; done. Qed.

Lemma optimization_pass_flagged FLAGS cfg imgs orig pass st tr st' :
  optimization_pass FLAGS cfg imgs orig pass st = (tr, Ok st') →
  ∃ m_tri m_flag,
    tr = [ {| ev_op := OpMultiViewTriangulation pass; ev_inlier := m_tri |};
           {| ev_op := OpSolve pass; ev_inlier := m_tri |};
           {| ev_op := OpFlagOutliersByTriAngleAndReprojErr pass;
              ev_inlier := m_flag |} ]
    ∧ pass_flagged FLAGS cfg imgs orig pass (pid_cid_fid_inlier st) m_tri m_flag
    ∧ pid_cid_fid_inlier st' = m_flag.
Proof.
  unfold optimization_pass. intros Hpass.
  apply run_bind_Ok_inv in Hpass as (tr1 & w2c & tr1' & Hw & Hpass & ->).
  apply lift_Ok_inv in Hw as [_ ->].
  apply run_bind_Ok_inv in Hpass as (tr2 & [mask xyz] & tr2' & Htri & Hpass & ->).
  apply call_Ok_trace in Htri as [Htri ->].
  apply run_bind_Ok_inv in Hpass as (tr3 & [st1 sol] & tr3' & Hsolve & Hpass & ->).
  apply call_Ok_trace in Hsolve as [Hsolve ->].
  apply run_bind_Ok_inv in Hpass as (tr4 & w2c' & tr4' & Hw' & Hpass & ->).
  apply lift_Ok_inv in Hw' as [Hw' ->].
  apply run_bind_Ok_inv in Hpass as (tr5 & mask' & tr5' & Hflag & Hret & ->).
  apply call_Ok_trace in Hflag as [Hflag ->].
  injection Hret as <- <-.
  bind_inv Hsolve as sol' Hsol. bind_inv Hsolve as st1' Hcopy.
  injection Hsolve as -> ->.
  pose proof (copy_back_inlier _ _ _ _ _ _ _ Hcopy) as Hkept.
  cbn [pid_cid_fid_inlier set_inlier set_world_to_cam] in Hkept, Hflag.
  unfold flagOutliersByTriAngleAndReprojErr in Hflag.
  rewrite Hkept in Hflag. bind_inv Hflag as m_angle Hangle.
  exists mask, mask'. cbn [app fst id]. rewrite Hkept.
  split; [reflexivity|]. split; [|reflexivity].
  exists (set_world_to_cam st w2c), st1, xyz, sol, w2c', m_angle.
  cbn [cam_params world_to_cam pid_cid_fid_inlier set_world_to_cam] in *.
  done.
Qed.

Lemma run_passes_flagged FLAGS cfg imgs orig n pass st tr st' :
  run_passes FLAGS cfg imgs orig n pass st = (tr, Ok st') →
  passes_flagged FLAGS cfg imgs orig n pass (pid_cid_fid_inlier st) tr
    (pid_cid_fid_inlier st').
Proof.
  revert pass st tr. induction n as [|n IH]; intros pass st tr;
    cbn [run_passes passes_flagged].
  - by intros [= <- <-].
  - intros Hrun.
    apply run_bind_Ok_inv in Hrun as (tr1 & st1 & tr2 & Hpass & Hrest & ->).
    apply optimization_pass_flagged in Hpass as (m_tri & m_flag & -> & Hpass & Hst1).
    apply IH in Hrest. rewrite Hst1 in Hrest.
    by exists m_tri, m_flag, tr2.
Qed.

(** C6, as the code has it: a run of [main] that reaches the end of its
    passes has made its calls in this order: reading the configuration,
    detecting and matching features, boundary exclusion (once, before the
    first pass, on an empty mask), and then in every pass the triangulation,
    the solve, and [flagOutliersByTriAngleAndReprojErr].  The mask recorded
    for the flagger of a pass is the one that the filter by angle followed
    by the filter by reprojection error make of the mask this pass's
    triangulation left, with the points and residuals that this pass's solve
    returned; the triangulation of the next pass starts from it, that of the
    first pass from the mask of boundary exclusion, and the mask after the
    last flagger is the one [main] ends with. *)
Theorem flagger_order (HAVE_ASTROBEE : bool) (FLAGS : Flags)
    (tr : list Event) (st : DriverState) :
  main HAVE_ASTROBEE FLAGS = (tr, Ok st) →
  map ev_op tr = driver_ops (Z.to_nat (refiner_num_passes FLAGS))
  ∧ ∃ cfg imgs m0 tr_passes,
      read_config FLAGS = Ok cfg
      ∧ detect_match_features FLAGS cfg = Ok imgs
      ∧ flagOutlierByExclusionDist (cfg_ref_cam_type cfg)
          (nav_cam_num_exclude_boundary_pixels FLAGS) (cfg_cam_params cfg)
          (img_cams imgs) (img_pid_to_cid_fid imgs) (img_keypoint_vec imgs) []
        = Ok m0
      ∧ tr = [ {| ev_op := OpReadConfig; ev_inlier := [] |};
               {| ev_op := OpDetectMatchFeatures; ev_inlier := [] |};
               {| ev_op := OpFlagOutlierByExclusionDist; ev_inlier := m0 |} ]
             ++ tr_passes
      ∧ passes_flagged FLAGS cfg imgs (cfg_cam_params cfg)
          (Z.to_nat (refiner_num_passes FLAGS)) 0 m0 tr_passes
          (pid_cid_fid_inlier st).
Proof.
  unfold main. intros Hmain.
  apply run_bind_Ok_inv in Hmain as (tr1 & [] & tr1' & Hval & Hmain & ->).
  apply lift_Ok_inv in Hval as [_ ->].
  apply run_bind_Ok_inv in Hmain as (tr2 & cfg & tr2' & Hcfg & Hmain & ->).
  apply call_Ok_trace in Hcfg as [Hcfg ->].
  apply run_bind_Ok_inv in Hmain as (tr3 & [[fl oc] ds] & tr3' & Harr & Hmain & ->).
  apply lift_Ok_inv in Harr as [_ ->].
  apply run_bind_Ok_inv in Hmain as (tr4 & imgs & tr4' & Himgs & Hmain & ->).
  apply call_Ok_trace in Himgs as [Himgs ->].
  apply run_bind_Ok_inv in Hmain as (tr5 & mask & tr5' & Hflag & Hmain & ->).
  apply call_Ok_trace in Hflag as [Hflag ->].
  split.
  - apply run_passes_ops in Hmain. cbn [app map ev_op]. rewrite Hmain. reflexivity.
  - apply run_passes_flagged in Hmain. cbn [pid_cid_fid_inlier id] in Hmain.
    exists cfg, imgs, mask, tr5'. done.
Qed.

End CallOrder.

(** ** Copying the optimized intrinsics back *)

Section Intrinsics.
Context `{RigCalibrator.Pipeline}.
Import RigCalibrator.

Lemma vec_at_nat {A} (v : list A) (i : nat) (a : A) :
  vec_at v (Z.of_nat i) = Ok a ↔ v !! i = Some a.
Proof.
  unfold vec_at. destruct (Z.ltb_spec (Z.of_nat i) 0); [lia|].
  rewrite Nat2Z.id. destruct (v !! i); split; congruence.
Qed.

Lemma vec_set_Ok_inv {A} (v v' : list A) (i : Z) (a : A) :
  vec_set v i a = Ok v' →
  0 ≤ i ∧ (Z.to_nat i < length v)%nat ∧ v' = <[Z.to_nat i := a]> v.
Proof.
  unfold vec_set. destruct (Z.ltb_spec i 0); [done|].
  destruct (Nat.ltb_spec (Z.to_nat i) (length v)); [|done].
  intros [= <-]. done.
Qed.

(** What the loop of [copy_back_intrinsics] has done to the cameras when it
    has gone through the indices from [k] on. *)
Lemma copy_back_intrinsics_from (fl : list double) (oc : list Vector2d)
    (ds : list (list double)) (n k : nat) (cps cps' : list CameraParameters) :
  foldM (λ cam_params it,
           vec_at cam_params (Z.of_nat it) ≫= λ cp,
           vec_at fl (Z.of_nat it) ≫= λ f,
           vec_at oc (Z.of_nat it) ≫= λ c,
           vec_at ds (Z.of_nat it) ≫= λ d,
           vec_set cam_params (Z.of_nat it)
             (SetDistortion (SetOpticalOffset (SetFocalLength cp (f, f)) c) d))
        cps (seq k n) = Ok cps' →
  length cps' = length cps
  ∧ ∀ it : nat,
      ((it < k ∨ k + n ≤ it)%nat → cps' !! it = cps !! it)
      ∧ ((k ≤ it < k + n)%nat →
         ∃ cp f c d,
           cps !! it = Some cp ∧ fl !! it = Some f ∧ oc !! it = Some c
           ∧ ds !! it = Some d
           ∧ cps' !! it
             = Some (SetDistortion (SetOpticalOffset (SetFocalLength cp (f, f)) c) d)).
Proof.
  revert k cps. induction n as [|n IH]; intros k cps; cbn [seq foldM].
  - intros [= <-]. split; [done|]. intros it. split; [done|lia].
  - intros Hfold. inv_bind Hfold. do 4 inv_bind Ha.
    apply vec_at_nat in Ha0, Ha1, Ha2, Ha3.
    apply vec_set_Ok_inv in Ha as (_ & Hlt & ->). rewrite Nat2Z.id in *.
    apply IH in Hfold as [Hlen Hall]. rewrite length_insert in Hlen.
    split; [done|]. intros it. destruct (Hall it) as [Hout Hin]. split.
    + intros Hit. rewrite Hout by lia. apply list_lookup_insert_ne. lia.
    + intros Hit. destruct (decide (it = k)) as [->|Hne].
      * rewrite Hout by lia. rewrite list_lookup_insert_eq by done. eauto 10.
      * destruct Hin as (cp & f & c & d & Hcp & ?); [lia|].
        rewrite list_lookup_insert_ne in Hcp by done. eauto 10.
Qed.

Lemma copy_back_intrinsics_spec (cps cps' : list CameraParameters)
    (fl : list double) (oc : list Vector2d) (ds : list (list double)) :
  copy_back_intrinsics cps fl oc ds = Ok cps' →
  length cps' = length cps
  ∧ ∀ (it : nat) cp', cps' !! it = Some cp' →
      ∃ cp f c d,
        cps !! it = Some cp ∧ fl !! it = Some f ∧ oc !! it = Some c
        ∧ ds !! it = Some d
        ∧ cp' = SetDistortion (SetOpticalOffset (SetFocalLength cp (f, f)) c) d.
Proof.
  unfold copy_back_intrinsics. intros Hcb.
  apply copy_back_intrinsics_from in Hcb as [Hlen Hall].
  split; [done|]. intros it cp' Hcp'.
  destruct (Hall it) as [_ Hin].
  destruct Hin as (cp & f & c & d & ? & ? & ? & ? & Heq).
  { apply lookup_lt_Some in Hcp'. lia. }
  exists cp, f, c, d. repeat split; try done. congruence.
Qed.

Lemma restore_ref_intrinsics_spec (FLAGS : Flags) (ref_cam_type : Z)
    (orig cps cps' : list CameraParameters) :
  nav_cam_intrinsics_to_float FLAGS = "" →
  restore_ref_intrinsics FLAGS ref_cam_type orig cps = Ok cps' →
  ∃ cp, vec_at orig ref_cam_type = Ok cp
        ∧ vec_at cps' ref_cam_type = Ok cp
        ∧ ∀ it : nat, Z.of_nat it ≠ ref_cam_type → cps' !! it = cps !! it.
Proof.
  unfold restore_ref_intrinsics. intros -> Hrestore. cbn [str_empty String.eqb orb] in Hrestore.
  inv_bind Hrestore. exists a. split; [done|].
  apply vec_set_Ok_inv in Hrestore as (Hpos & Hlt & ->). split.
  - unfold vec_at. destruct (Z.ltb_spec ref_cam_type 0); [lia|].
    by rewrite list_lookup_insert_eq.
  - intros it Hne. apply list_lookup_insert_ne. lia.
Qed.

(** C7: after a pass of the driver with nav_cam_intrinsics_to_float empty,
    the camera parameters of the reference sensor are those of
    [orig_cam_params] (the snapshot [main] takes before the passes), and the
    parameters of every other sensor are the ones it had with the focal
    length, optical centre and distortion replaced by the optimized
    scalars. *)
Theorem ref_intrinsics_restored (FLAGS : Flags) (cfg : Config) (imgs : Images)
    (orig_cam_params : list CameraParameters) (pass : nat) (st st' : DriverState)
    (tr : list Event) :
  nav_cam_intrinsics_to_float FLAGS = "" →
  optimization_pass FLAGS cfg imgs orig_cam_params pass st = (tr, Ok st') →
  (∃ cp, vec_at orig_cam_params (cfg_ref_cam_type cfg) = Ok cp
         ∧ vec_at (cam_params st') (cfg_ref_cam_type cfg) = Ok cp)
  ∧ ∀ (it : nat) cp',
      Z.of_nat it ≠ cfg_ref_cam_type cfg →
      cam_params st' !! it = Some cp' →
      ∃ cp f c d,
        cam_params st !! it = Some cp
        ∧ focal_lengths st' !! it = Some f
        ∧ optical_centers st' !! it = Some c
        ∧ distortions st' !! it = Some d
        ∧ cp' = SetDistortion (SetOpticalOffset (SetFocalLength cp (f, f)) c) d.
Proof.
  intros Hfloat Hpass.
  apply optimization_pass_Ok_inv in Hpass
    as (_ & w2c & mask & xyz & sol & st1 & _ & Hcb & -> & -> & -> & ->).
  unfold copy_back in Hcb. inv_bind Hcb. destruct a as [w2c' w2r].
  inv_bind Hcb. inv_bind Hcb. injection Hcb as <-. cbn.
  apply copy_back_intrinsics_spec in Ha0 as [Hlen Hcps].
  apply (restore_ref_intrinsics_spec _ _ _ _ _ Hfloat) in Ha1
    as (cp & Horig & Href & Hother).
  split; [by exists cp|].
  intros it cp' Hne Hcp'. rewrite Hother in Hcp' by done.
  by apply Hcps.
Qed.

End Intrinsics.

(** ** Triangulation failure *)

Section TriangulationFailure.
Context `{Externals}.

Lemma map_items_elem (track : gmap Z Z) (cid fid : Z) :
  (cid, fid) ∈ map_items track ↔ track !! cid = Some fid.
Proof.
  unfold map_items. rewrite merge_sort_Permutation.
  apply elem_of_map_to_list.
Qed.

Lemma map_items_NoDup (track : gmap Z Z) : NoDup (map_items track).*1.
Proof.
  unfold map_items. rewrite merge_sort_Permutation.
  apply NoDup_fst_map_to_list.
Qed.

Lemma setMapValue_is_Some (m : PidCidFid Z) (pid : nat) (cid fid val : Z) :
  is_Some (lookup3 m pid cid fid) → ∃ m', setMapValue m pid cid fid val = Ok m'.
Proof.
  unfold lookup3, setMapValue. intros [v Hv].
  destruct (m !! pid) as [cm|]; cbn in Hv; [|done].
  destruct (cm !! cid) as [fm|]; cbn in Hv; [|done].
  destruct (fm !! fid); [|done]. by eexists.
Qed.

(** Setting the features of a track to outliers succeeds when their entries
    exist, and zeroes exactly those entries. *)
Lemma set_outliers_fold (pid : nat) (items : list (Z * Z)) (m : PidCidFid Z) :
  (∀ cid fid, (cid, fid) ∈ items → is_Some (lookup3 m pid cid fid)) →
  ∃ m', foldM (λ mask '(cid, fid), setMapValue mask pid cid fid 0) m items = Ok m'
        ∧ ∀ p c f, lookup3 m' p c f =
                   if decide (p = pid ∧ (c, f) ∈ items) then Some 0
                   else lookup3 m p c f.
Proof.
  revert m. induction items as [|[cid fid] items IH]; intros m Hsome.
  - exists m. split; [done|]. intros p c f.
    rewrite decide_False; [done|]. intros [_ Hin]. by apply elem_of_nil in Hin.
  - destruct (setMapValue_is_Some m pid cid fid 0) as [m1 Hm1].
    { apply Hsome. constructor. }
    pose proof (setMapValue_lookup3 _ _ _ _ _ _ Hm1) as [_ Hlook1].
    destruct (IH m1) as (m' & Hfold & Hlook').
    { intros c f Hin. rewrite Hlook1. case_decide; [done|].
      apply Hsome. by constructor. }
    exists m'. split.
    + cbn [foldM]. rewrite Hm1. exact Hfold.
    + intros p c f. rewrite Hlook', Hlook1.
      destruct (decide (p = pid ∧ (c, f) ∈ items)) as [[-> Hin]|Hnin].
      * rewrite decide_True; [done|]. split; [done|by constructor].
      * destruct (decide (p = pid ∧ c = cid ∧ f = fid)) as [(-> & -> & ->)|Hne].
        -- rewrite decide_True; [done|]. split; [done|constructor].
        -- rewrite decide_False; [done|].
           intros [-> Hin]. apply elem_of_cons in Hin as [[= -> ->]|Hin]; tauto.
Qed.

(** Gathering the rays of a track reads the mask entry of each of its
    features, and every ray gathered comes from a feature whose entry is not
    0. *)
Lemma add_ray_fold cam_params cams world_to_cam keypoint_vec (m : PidCidFid Z)
    (pid : nat) (items : list (Z * Z))
    (acc r : list double * list Affine3d * list Vector2d) :
  foldM (InterestPoint.add_ray cam_params cams world_to_cam keypoint_vec m pid)
        acc items = Ok r →
  (∀ cid fid, (cid, fid) ∈ items → is_Some (lookup3 m pid cid fid))
  ∧ ((length acc.2 < length r.2)%nat →
     ∃ cid fid v, (cid, fid) ∈ items ∧ lookup3 m pid cid fid = Some v ∧ v ≠ 0).
Proof.
  revert acc. induction items as [|[cid fid] items IH]; intros acc Hfold.
  - injection Hfold as <-. split; [|lia].
    intros c f Hin. by apply elem_of_nil in Hin.
  - cbn [foldM] in Hfold. bind_inv Hfold as acc1 Hstep.
    destruct (IH _ Hfold) as [Hsome Hray].
    cbn [InterestPoint.add_ray] in Hstep. bind_inv Hstep as inlier Hget.
    apply getMapValue_lookup3 in Hget. split.
    + intros c f Hin. apply elem_of_cons in Hin as [[= -> ->]|Hin]; [by eexists|].
      by apply Hsome.
    + intros Hlen. destruct (Z.eqb_spec inlier 0) as [->|Hnz].
      * injection Hstep as <-. destruct Hray as (c & f & v & Hin & Hv); [done|].
        exists c, f, v. split; [by constructor|done].
      * exists cid, fid, inlier. split; [constructor|done].
Qed.

(** C1, on the code: when the rays gathered for a track are at least two and
    triangulation returns a vector with a NaN or Inf coefficient, the copy of
    [multiViewTriangulation] in rig_calibrator.cc, which the driver calls,
    stores the vector and leaves the inlier mask as it is, with a nonzero
    entry for some feature of the track; the copy in interest_point.cc sets
    the entry of every feature of the track to 0. *)
Theorem tool_triangulation_keeps_inliers_on_bad_xyz
    (cam_params : list CameraParameters) (cams : list cameraImage)
    (world_to_cam : list Affine3d) (keypoint_vec : list (list Vector2d))
    (m : PidCidFid Z) (xyz_vec : list Vector3d) (pid : nat) (track : gmap Z Z)
    (fv : list double) (wv : list Affine3d) (pv : list Vector2d) (xyz : Vector3d) :
  foldM (InterestPoint.add_ray cam_params cams world_to_cam keypoint_vec m pid)
        ([], [], []) (map_items track) = Ok (fv, wv, pv) →
  (2 ≤ length pv)%nat →
  InterestPoint.Triangulate fv wv pv = Ok xyz →
  InterestPoint.bad_xyz xyz = true →
  RigCalibrator.triangulate_track cam_params cams world_to_cam keypoint_vec
    (m, xyz_vec) (pid, track) = Ok (m, <[pid := xyz]> xyz_vec)
  ∧ (∃ cid fid v, track !! cid = Some fid ∧ lookup3 m pid cid fid = Some v ∧ v ≠ 0)
  ∧ ∃ m', InterestPoint.triangulate_track cam_params cams world_to_cam keypoint_vec
            (m, xyz_vec) (pid, track) = Ok (m', <[pid := xyz]> xyz_vec)
          ∧ ∀ cid fid, track !! cid = Some fid → lookup3 m' pid cid fid = Some 0.
Proof.
  intros Hrays Hlen Htri Hbad.
  destruct (add_ray_fold _ _ _ _ _ _ _ _ _ Hrays) as [Hsome Hray].
  assert ((length pv <? 2)%nat = false) as Hlt by (apply Nat.ltb_ge; lia).
  split; [|split].
  - unfold RigCalibrator.triangulate_track. rewrite Hrays. cbn [mbind Result_bind].
    rewrite Hlt, Htri. done.
  - destruct Hray as (cid & fid & v & Hin & Hv); [cbn; lia|].
    exists cid, fid, v. split; [by apply map_items_elem|done].
  - destruct (set_outliers_fold pid (map_items track) m Hsome) as (m' & Hset & Hlook).
    exists m'. split.
    + unfold InterestPoint.triangulate_track. rewrite Hrays. cbn [mbind Result_bind].
      rewrite Hlt, Htri. cbn [mbind Result_bind]. rewrite Hbad.
      unfold set_track_outliers. rewrite Hset. done.
    + intros cid fid Hin. rewrite Hlook. rewrite decide_True; [done|].
      split; [done|]. by apply map_items_elem.
Qed.

End TriangulationFailure.

(** ** Exporting the inliers to NVM *)

Section NvmExport.
Context `{Externals}.
Import InterestPoint.

Lemma foldM_ext {A S} (f g : S → A → Result S) (l : list A) (s : S) :
  (∀ s a, f s a = g s a) → foldM f s l = foldM g s l.
Proof.
  intros Hfg. revert s. induction l as [|a l IH]; intros s; [done|].
  cbn [foldM]. rewrite Hfg. destruct (g s a); cbn; [apply IH|done|done].
Qed.

(** A loop that appends one computed element per entry yields the elements
    computed for the entries, in order. *)
Lemma foldM_append {A B} (g : A → Result B) (l : list A) (acc r : list B) :
  foldM (λ acc a, g a ≫= λ b, Ok (acc ++ [b])) acc l = Ok r →
  ∃ new, r = acc ++ new ∧ Forall2 (λ a b, g a = Ok b) l new.
Proof.
  revert acc. induction l as [|a l IH]; intros acc Hfold.
  - injection Hfold as <-. exists []. by rewrite app_nil_r.
  - cbn [foldM] in Hfold. bind_inv Hfold as acc1 Hstep.
    bind_inv Hstep as b Hb. injection Hstep as <-.
    destruct (IH _ Hfold) as (new & -> & Hnew).
    exists (b :: new). split; [by rewrite <- app_assoc|by constructor].
Qed.

Lemma is_inlier_get (mask : PidCidFid Z) (pid : nat) (cid fid v : Z) :
  getMapValue mask pid cid fid = Ok v → is_inlier mask pid (cid, fid) = negb (v =? 0).
Proof.
  intros Hget. apply getMapValue_lookup3 in Hget.
  unfold is_inlier. cbn [fst snd]. by rewrite Hget.
Qed.

(** The features that the loop over one track records are its inlier
    observations. *)
Lemma nvm_add_inlier_fold cam_params cams keypoint_vec (mask : PidCidFid Z)
    (pid : nat) (items : list (Z * Z)) (acc r : NvmAcc) :
  foldM (nvm_add_inlier cam_params cams keypoint_vec mask pid) acc items = Ok r →
  NoDup items.*1 →
  (∀ cid, cid ∈ items.*1 → acc.2 !! cid = None) →
  (∀ cid, is_Some (r.2 !! cid) ↔
          is_Some (acc.2 !! cid)
          ∨ cid ∈ (filter (λ cid_fid, is_inlier mask pid cid_fid) items).*1)
  ∧ size r.2 = (size acc.2
                + length (filter (λ cid_fid, is_inlier mask pid cid_fid) items))%nat.
Proof.
  revert acc. induction items as [|[cid fid] items IH]; intros acc Hfold Hnd Hfresh.
  - injection Hfold as <-. split; [|cbn; lia].
    intros c. split; [by left|]. intros [?|Hin]; [done|].
    by apply elem_of_nil in Hin.
  - cbn [foldM] in Hfold. bind_inv Hfold as acc1 Hstep.
    cbn [fmap list_fmap fst] in Hnd. apply NoDup_cons in Hnd as [Hnin Hnd].
    destruct acc as [[kp fc] nv]. cbn [nvm_add_inlier] in Hstep.
    bind_inv Hstep as inlier Hget.
    rewrite (filter_cons (λ cid_fid, is_inlier mask pid cid_fid)).
    rewrite (is_inlier_get _ _ _ _ _ Hget).
    destruct (Z.eqb_spec inlier 0) as [->|Hnz]; cbn [negb].
    + injection Hstep as <-.
      rewrite decide_False by (by intros []).
      apply IH; [done|done|].
      intros c Hc. apply Hfresh. cbn [fmap list_fmap fst]. by constructor.
    + rewrite decide_True by done.
      bind_inv Hstep as dist_ip Hkp. bind_inv Hstep as cp Hcp.
      bind_inv Hstep as kps Hkps. bind_inv Hstep as count Hcount.
      bind_inv Hstep as kps' Hkps'. bind_inv Hstep as kp' Hkp'.
      bind_inv Hstep as fc' Hfc'. injection Hstep as <-.
      destruct (IH _ Hfold Hnd) as [Hdom Hsize].
      { intros c Hc. cbn [snd]. rewrite lookup_insert_ne; [|by intros ->].
        apply Hfresh. cbn [fmap list_fmap fst]. by constructor. }
      cbn [snd] in *.
      assert (nv !! cid = None) as Hnone.
      { apply Hfresh. cbn [fmap list_fmap fst]. constructor. }
      split.
      * intros c. rewrite Hdom. cbn [fmap list_fmap fst].
        rewrite elem_of_cons. rewrite lookup_insert_is_Some.
        destruct (decide (cid = c)) as [->|Hne]; intuition congruence.
      * rewrite Hsize, map_size_insert_None by done. cbn [length]. lia.
Qed.

Lemma nvm_add_track_spec cam_params cams keypoint_vec (mask : PidCidFid Z)
    (xyz_vec : list Vector3d) (pid : nat) (track : gmap Z Z)
    kp fc ts xs kp' fc' ts' xs' :
  nvm_add_track cam_params cams keypoint_vec mask xyz_vec (kp, fc, ts, xs) (pid, track)
    = Ok (kp', fc', ts', xs') →
  if more_than_two_inliers mask (pid, track)
  then ∃ nv xyz, ts' = ts ++ [nv] ∧ xs' = xs ++ [xyz]
                 ∧ nvm_track_of mask xyz_vec (pid, track) nv xyz
  else ts' = ts ∧ xs' = xs.
Proof.
  unfold nvm_add_track. intros Hadd. bind_inv Hadd as r Hfold.
  destruct r as [[kp1 fc1] nv].
  apply nvm_add_inlier_fold in Hfold as [Hdom Hsize];
    [|apply map_items_NoDup|intros; apply lookup_empty].
  cbn [snd] in Hdom, Hsize. rewrite map_size_empty in Hsize. cbn in Hsize.
  unfold more_than_two_inliers, inlier_count, inlier_items. cbn [fst snd].
  rewrite <- Hsize. destruct (2 <? size nv)%nat.
  - bind_inv Hadd as xyz Hxyz. injection Hadd as <- <- <- <-.
    exists nv, xyz. split; [done|]. split; [done|].
    split; [by apply vec_at_nat|]. split; [done|].
    intros cid. rewrite Hdom. rewrite lookup_empty.
    split; [intros [[? [=]]|?]; done|by right].
  - by injection Hadd as <- <- <- <-.
Qed.

Lemma nvm_add_track_fold cam_params cams keypoint_vec (mask : PidCidFid Z)
    (xyz_vec : list Vector3d) (l : list (nat * gmap Z Z))
    kp fc ts xs kp' fc' ts' xs' :
  foldM (nvm_add_track cam_params cams keypoint_vec mask xyz_vec)
        (kp, fc, ts, xs) l = Ok (kp', fc', ts', xs') →
  ∃ new : list (gmap Z Z * Vector3d),
    ts' = ts ++ new.*1 ∧ xs' = xs ++ new.*2
    ∧ Forall2 (λ pid_track nx, nvm_track_of mask xyz_vec pid_track nx.1 nx.2)
              (filter (λ pid_track, more_than_two_inliers mask pid_track) l) new.
Proof.
  revert kp fc ts xs. induction l as [|[pid track] l IH]; intros kp fc ts xs Hfold.
  - injection Hfold as <- <- <- <-. exists []. cbn. by rewrite !app_nil_r.
  - cbn [foldM] in Hfold. bind_inv Hfold as acc1 Hstep.
    destruct acc1 as [[[kp1 fc1] ts1] xs1].
    apply nvm_add_track_spec in Hstep.
    destruct (IH _ _ _ _ Hfold) as (new & -> & -> & Hnew).
    rewrite (filter_cons (λ pid_track, more_than_two_inliers mask pid_track)).
    destruct (more_than_two_inliers mask (pid, track)).
    + destruct Hstep as (nv & xyz & -> & -> & Htrack).
      rewrite decide_True by done.
      exists ((nv, xyz) :: new). cbn [fmap list_fmap fst snd].
      split; [by rewrite <- app_assoc|]. split; [by rewrite <- app_assoc|].
      by constructor.
    + destruct Hstep as [-> ->]. rewrite decide_False by (by intros []).
      by exists new.
Qed.

Lemma indexed_lookup {A} (l : list A) (i k : nat) (a : A) :
  indexed l !! i = Some (k, a) ↔ k = i ∧ l !! i = Some a.
Proof.
  unfold indexed. rewrite lookup_zip_with_Some. split.
  - intros (k' & a' & [= <- <-] & Hk & Ha).
    apply lookup_seq in Hk as [-> _]. done.
  - intros [-> Ha]. exists i, a. split; [done|]. split; [|done].
    apply lookup_seq. split; [done|]. by eapply lookup_lt_Some.
Qed.

Lemma length_indexed {A} (l : list A) : length (indexed l) = length l.
Proof.
  unfold indexed. rewrite length_zip_with, length_seq. lia.
Qed.

(** The measures written for a track are its entries, in order. *)
Lemma WriteNVM_measures (cid_to_keypoint_map : list (list Vector2d))
    (items : list (Z * Z)) (measures : list NvmMeasure) :
  foldM (λ measures '(cid, fid),
           vec_at cid_to_keypoint_map cid ≫= λ kps,
           vec_at kps fid ≫= λ pix,
           Ok (measures ++ [ {| m_cid := cid; m_fid := fid; m_pix := pix |} ]))
        [] items = Ok measures →
  map m_cid measures = items.*1.
Proof.
  intros Hfold.
  erewrite (foldM_ext _
    (λ acc a, (vec_at cid_to_keypoint_map a.1 ≫= λ kps,
               vec_at kps a.2 ≫= λ pix,
               Ok {| m_cid := a.1; m_fid := a.2; m_pix := pix |})
              ≫= λ b, Ok (acc ++ [b]))) in Hfold.
  2:{ intros acc [cid fid]. cbn [fst snd].
      destruct (vec_at cid_to_keypoint_map cid) as [kps| |]; cbn; [|done|done].
      by destruct (vec_at kps fid). }
  apply foldM_append in Hfold as (new & -> & Hnew). cbn [app].
  induction Hnew as [|[cid fid] b l new Hb _ IH]; [done|].
  cbn [map fmap list_fmap fst]. f_equal; [|exact IH].
  cbn [fst snd] in Hb. bind_inv Hb as kps Hkps. bind_inv Hb as pix Hpix.
  by injection Hb as <-.
Qed.

(** [WriteNVM] writes one point per track it is given, with the point of
    that track and one measure per image of the track. *)
Lemma WriteNVM_points (cid_to_keypoint_map : list (list Vector2d))
    (cid_to_filename : list string) (focal_lengths : list double)
    (pid_to_cid_fid : list (gmap Z Z)) (pid_to_xyz : list Vector3d)
    (cid_to_cam_t_global : list Affine3d) (file : NvmFile) :
  WriteNVM cid_to_keypoint_map cid_to_filename focal_lengths pid_to_cid_fid
    pid_to_xyz cid_to_cam_t_global = Ok file →
  Forall2 (λ pid_track pt,
             pid_to_xyz !! pid_track.1 = Some (pt_xyz pt)
             ∧ map m_cid (pt_measures pt) = (map_items pid_track.2).*1)
          (indexed pid_to_cid_fid) (nvm_points file).
Proof.
  unfold WriteNVM. intros Hwrite.
  do 3 (bind_inv Hwrite as u Hu; clear u Hu).
  bind_inv Hwrite as cameras Hcams. bind_inv Hwrite as points Hpoints.
  injection Hwrite as <-. cbn [nvm_points].
  erewrite (foldM_ext _
    (λ acc a, (vec_at pid_to_xyz (Z.of_nat a.1) ≫= λ xyz,
               CHECK (1 <? size a.2)%nat "PID has too few measurements" ≫= λ _,
               foldM (λ measures '(cid, fid),
                        vec_at cid_to_keypoint_map cid ≫= λ kps,
                        vec_at kps fid ≫= λ pix,
                        Ok (measures ++ [ {| m_cid := cid; m_fid := fid; m_pix := pix |} ]))
                     [] (map_items a.2) ≫= λ measures,
               Ok {| pt_xyz := xyz; pt_measures := measures |})
              ≫= λ b, Ok (acc ++ [b]))) in Hpoints.
  2:{ intros acc [pid track]. cbn [fst snd].
      destruct (vec_at pid_to_xyz (Z.of_nat pid)); cbn; [|done|done].
      destruct (CHECK _ _); cbn; [|done|done].
      match goal with |- ?m ≫= _ = _ => by destruct m end. }
  apply foldM_append in Hpoints as (new & -> & Hnew). cbn [app].
  eapply Forall2_impl; [exact Hnew|].
  intros [pid track] pt Hpt. cbn [fst snd] in *.
  bind_inv Hpt as xyz Hxyz. bind_inv Hpt as u Hu. bind_inv Hpt as measures Hms.
  injection Hpt as <-. cbn [pt_xyz pt_measures]. split.
  - by apply vec_at_nat.
  - by apply WriteNVM_measures in Hms.
Qed.

Lemma map_items_length (track : gmap Z Z) : length (map_items track) = size track.
Proof.
  unfold map_items. rewrite merge_sort_Permutation. apply length_map_to_list.
Qed.

Lemma map_items_keys (track : gmap Z Z) (cid : Z) :
  cid ∈ (map_items track).*1 ↔ is_Some (track !! cid).
Proof.
  rewrite list_elem_of_fmap. split.
  - intros ([c f] & -> & Hin). apply map_items_elem in Hin. by eexists.
  - intros [f Hf]. exists (cid, f). split; [done|]. by apply map_items_elem.
Qed.

(** C10: in the file that [writeNvm] writes, the points are, in order, the
    tracks that have strictly more than two inlier observations: each carries
    the triangulated point of its track and one measure for each image in
    which the track has an inlier observation.  A track with two inlier
    observations or fewer has no point in the file. *)
Theorem writeNvm_keeps_tracks_with_more_than_two_inliers
    (cam_params : list CameraParameters) (cams : list cameraImage)
    (world_to_cam : list Affine3d) (keypoint_vec : list (list Vector2d))
    (pid_to_cid_fid : list (gmap Z Z)) (mask : PidCidFid Z)
    (xyz_vec : list Vector3d) (file : NvmFile) :
  writeNvm cam_params cams world_to_cam keypoint_vec pid_to_cid_fid mask xyz_vec
    = Ok file →
  Forall2 (λ pid_track pt,
             xyz_vec !! pid_track.1 = Some (pt_xyz pt)
             ∧ length (pt_measures pt) = inlier_count mask pid_track.1 pid_track.2
             ∧ ∀ cid, cid ∈ map m_cid (pt_measures pt) ↔
                      cid ∈ (inlier_items mask pid_track.1 pid_track.2).*1)
          (filter (λ pid_track, more_than_two_inliers mask pid_track)
                  (indexed pid_to_cid_fid))
          (nvm_points file).
Proof.
  unfold writeNvm. intros Hwrite.
  do 4 (bind_inv Hwrite as u Hu; clear u Hu).
  bind_inv Hwrite as focal_lengths Hfocal.
  bind_inv Hwrite as r Hinliers. destruct r as [[[kp fc] ts] xs].
  unfold writeNvm_inliers in Hinliers.
  apply nvm_add_track_fold in Hinliers as (new & Hts & Hxs & Hnew).
  cbn [app] in Hts, Hxs. subst ts xs.
  apply WriteNVM_points in Hwrite.
  apply Forall2_same_length_lookup. apply Forall2_same_length_lookup in Hnew.
  apply Forall2_same_length_lookup in Hwrite.
  destruct Hnew as [Hlen Hnew], Hwrite as [Hlen' Hwrite].
  rewrite length_indexed, length_fmap in Hlen'.
  split; [congruence|].
  intros i [pid track] pt Hi Hpt.
  destruct (new !! i) as [[nv xyz]|] eqn:Hnvi.
  2:{ apply lookup_ge_None in Hnvi. apply lookup_lt_Some in Hi. lia. }
  destruct (Hnew i _ _ Hi Hnvi) as (Hxyz & Hsize & Hdom). cbn [fst snd] in *.
  destruct (Hwrite i (i, nv) pt) as [Hpxyz Hms]; [|done|].
  { apply indexed_lookup. split; [done|]. by rewrite list_lookup_fmap, Hnvi. }
  cbn [fst snd] in *. rewrite list_lookup_fmap, Hnvi in Hpxyz.
  injection Hpxyz as <-. split; [done|]. split.
  - rewrite <- Hsize, <- map_items_length.
    rewrite <- (length_map m_cid), Hms. by rewrite length_fmap.
  - intros cid. rewrite Hms, map_items_keys. apply Hdom.
Qed.

End NvmExport.

(** * The model on the sample rig *)

Section SampleRuns.
Import RigCalibrator.

Example sample_run_ops :
  map ev_op Sample.run.1 = driver_ops 2 ∧ is_Ok Sample.run.2 = true.
Proof. vm_compute. done. Qed.

Example sample_depth_lookup :
  depthValue Sample.depth_cloud (Sample.d 0, Sample.d 1)
    = Ok (true, (Sample.d 2, Sample.d 2, Sample.d 2))
  ∧ depthValue Sample.depth_cloud (Sample.d 1, Sample.d 0) = Ok (false, zero3)
  ∧ depthValue Sample.depth_cloud (Sample.d 2, Sample.d 1) = Ok (false, zero3)
  ∧ is_Fatal (depthValue Sample.depth_cloud (Sample.d 3, Sample.d 1)) = true
  ∧ is_Fatal (depthValue Sample.depth_cloud (Sample.d (-1), Sample.d 1)) = true.
Proof. vm_compute. done. Qed.

(** The two copies of [multiViewTriangulation] on two tracks of inliers, the
    second of which triangulates to infinity: the copy of the driver keeps
    the features of the second track as inliers, the library copy flags
    them. *)
Example sample_triangulation_copies_differ :
  ∃ m_tool m_lib xyz_vec,
    RigCalibrator.multiViewTriangulation (H := Sample.externals) Sample.cam_params
      Sample.cams Sample.world_to_cam Sample.tracks Sample.keypoint_vec
      Sample.inliers []
    = Ok (m_tool, xyz_vec)
    ∧ InterestPoint.multiViewTriangulation (H := Sample.externals) Sample.cam_params
        Sample.cams Sample.world_to_cam Sample.tracks Sample.keypoint_vec
        Sample.inliers
      = Ok (m_lib, xyz_vec)
    ∧ (InterestPoint.bad_xyz <$> xyz_vec !! 1%nat) = Some true
    ∧ lookup3 m_tool 1 0 1 = Some 1 ∧ lookup3 m_tool 1 2 1 = Some 1
    ∧ lookup3 m_lib 1 0 1 = Some 0 ∧ lookup3 m_lib 1 2 1 = Some 0.
Proof.
  eexists _, _, _. split; [vm_compute; reflexivity|].
  split; [vm_compute; reflexivity|]. vm_compute. done.
Qed.

End SampleRuns.

(** * Instances of the theorems on the sample rig *)

Section Witnesses.
Import RigCalibrator.

Lemma impossible_flags_abort_before_any_work_witness :
  float_scale Sample.impossible_flags && affine_depth_to_image Sample.impossible_flags
  || float_nonref_cameras Sample.impossible_flags
     && negb (no_extrinsics Sample.impossible_flags)
  || no_extrinsics Sample.impossible_flags
     && float_timestamp_offsets Sample.impossible_flags = true
  ∧ ∃ msg, parameterValidation false Sample.impossible_flags = Fatal msg
           ∧ main (H0 := Sample.pipeline) false Sample.impossible_flags
             = ([], Fatal msg).
Proof.
  split; [reflexivity|].
  apply (impossible_flags_abort_before_any_work (H0 := Sample.pipeline)
           false Sample.impossible_flags).
  reflexivity.
Defined.

Lemma calc_world_to_cam_trans_spec_witness :
  read_rigid (H := Sample.externals) (Sample.identity_block ++ Sample.identity_block, 0)
    = Ok Sample.identity_pose
  ∧ calc_world_to_cam_trans (H := Sample.externals)
      (Sample.identity_block ++ Sample.identity_block, 0)
      (Sample.identity_block ++ Sample.identity_block, 1)
      (Sample.identity_block ++ Sample.identity_block, 1)
      (Sample.d 0) (Sample.d 1) (Sample.d 0) Sample.half
    = Ok (affine_mul (Externals := Sample.externals) Sample.identity_pose
            (linearInterp (Externals := Sample.externals) Sample.half
               Sample.identity_pose Sample.identity_pose)).
Proof.
  split; [reflexivity|].
  destruct (calc_world_to_cam_trans_spec (H := Sample.externals)
              (Sample.identity_block ++ Sample.identity_block, 0)
              (Sample.d 0) (Sample.d 1) (Sample.d 0) Sample.half
              Sample.identity_pose eq_refl) as [_ Hne].
  destruct (Hne eq_refl
              (Sample.identity_block ++ Sample.identity_block, 1)
              (Sample.identity_block ++ Sample.identity_block, 1)
              Sample.identity_pose Sample.identity_pose eq_refl eq_refl)
    as [_ Hok].
  apply Hok. reflexivity.
Defined.

Lemma depthValue_bounds_witness :
  Mat_wf Sample.depth_cloud
  ∧ Fp.round_to_int Sample.half = Ok 1
  ∧ Fp.round_to_int (Sample.d 2) = Ok 2
  ∧ ∃ depth_xyz, depthValue Sample.depth_cloud (Sample.half, Sample.d 2)
                 = Ok (false, depth_xyz).
Proof.
  assert (Mat_wf Sample.depth_cloud) as Hwf.
  { repeat split; cbn; try lia. repeat constructor. }
  split; [exact Hwf|]. split; [reflexivity|]. split; [reflexivity|].
  destruct (depthValue_bounds Sample.depth_cloud (Sample.half, Sample.d 2) 1 2
              Hwf ltac:(cbn; lia) ltac:(cbn; lia) eq_refl eq_refl) as [Hin _].
  destruct Hin as (found & depth_xyz & Hval & Hedge & _);
    [cbn; lia|cbn; lia|].
  exists depth_xyz. rewrite Hval. rewrite Hedge; [done|]. by right.
Defined.

Lemma inlier_mask_monotone_witness :
  Sample.run.1 !! 2%nat = Some Sample.event2
  ∧ Sample.run.1 !! 8%nat = Some Sample.event8
  ∧ mask_nonincreasing (ev_inlier Sample.event2) (ev_inlier Sample.event8).
Proof.
  assert (Sample.run.1 !! 2%nat = Some Sample.event2) as H2
    by (vm_compute; reflexivity).
  assert (Sample.run.1 !! 8%nat = Some Sample.event8) as H8
    by (vm_compute; reflexivity).
  split; [exact H2|]. split; [exact H8|].
  exact (inlier_mask_monotone (H0 := Sample.pipeline) false Sample.flags 2 8
           Sample.event2 Sample.event8 ltac:(lia) H2 H8).
Defined.

Lemma flagger_order_witness :
  main (H0 := Sample.pipeline) false Sample.flags
    = (Sample.run.1, Ok Sample.final_state)
  ∧ map ev_op Sample.run.1 = driver_ops 2
  ∧ ∃ cfg imgs m0 tr_passes,
      Sample.run.1
      = [ {| ev_op := OpReadConfig; ev_inlier := [] |};
          {| ev_op := OpDetectMatchFeatures; ev_inlier := [] |};
          {| ev_op := OpFlagOutlierByExclusionDist; ev_inlier := m0 |} ]
        ++ tr_passes
      ∧ passes_flagged (H0 := Sample.pipeline) Sample.flags cfg imgs
          (cfg_cam_params cfg) 2 0 m0 tr_passes
          (pid_cid_fid_inlier Sample.final_state).
Proof.
  assert (main (H0 := Sample.pipeline) false Sample.flags
          = (Sample.run.1, Ok Sample.final_state)) as Hrun.
  { assert (is_Ok Sample.run.2 = true) as Hok by (vm_compute; reflexivity).
    change (Sample.run = (Sample.run.1, Ok Sample.final_state)).
    unfold Sample.final_state.
    destruct Sample.run as [tr [st|msg|]]; [reflexivity|discriminate Hok..]. }
  split; [exact Hrun|].
  destruct (flagger_order (H0 := Sample.pipeline) false Sample.flags
              Sample.run.1 Sample.final_state Hrun)
    as (Hops & cfg & imgs & m0 & tr_passes & _ & _ & _ & Htr & Hpasses).
  split; [exact Hops|].
  exists cfg, imgs, m0, tr_passes. split; [exact Htr|exact Hpasses].
Defined.

(** C6, as the specification states it, fails on the sample run of two
    passes: boundary exclusion is called once, before the first solve, so it
    does not come after the solve of any pass. *)
Lemma full_flagger_not_in_every_pass :
  ¬ full_flagger_in_every_pass (map ev_op Sample.run.1) 2.
Proof.
  intros Hall. destruct (Hall 0%nat ltac:(lia)) as (i & j & k & Hi & Hj & _ & Hij & _).
  replace (map ev_op Sample.run.1) with (driver_ops 2) in Hi, Hj
    by (vm_compute; reflexivity).
  assert (j = 2%nat) as ->.
  { do 9 (destruct j as [|j]; [first [reflexivity|by vm_compute in Hj]|]).
    by vm_compute in Hj. }
  do 3 (destruct i as [|i]; [by vm_compute in Hi|]). lia.
Qed.

Lemma ref_intrinsics_restored_witness :
  optimization_pass (H0 := Sample.pipeline) Sample.flags Sample.config
    Sample.images Sample.cam_params 0 Sample.state0
    = (Sample.pass0.1, Ok Sample.pass0_state)
  ∧ vec_at (cam_params Sample.pass0_state) 0 = Ok (Sample.sensor 100)
  ∧ cam_params Sample.pass0_state !! 1%nat
    = Some (SetDistortion
              (SetOpticalOffset
                 (SetFocalLength (Sample.sensor 200) (Sample.d 201, Sample.d 201))
                 (Sample.d 50, Sample.d 50))
              [Fp.zero]).
Proof.
  assert (optimization_pass (H0 := Sample.pipeline) Sample.flags Sample.config
            Sample.images Sample.cam_params 0 Sample.state0
          = (Sample.pass0.1, Ok Sample.pass0_state)) as Hpass.
  { assert (is_Ok Sample.pass0.2 = true) as Hok by (vm_compute; reflexivity).
    change (Sample.pass0 = (Sample.pass0.1, Ok Sample.pass0_state)).
    unfold Sample.pass0_state.
    destruct Sample.pass0 as [tr [st|msg|]]; [reflexivity|discriminate Hok..]. }
  split; [exact Hpass|].
  destruct (ref_intrinsics_restored (H0 := Sample.pipeline) Sample.flags
              Sample.config Sample.images Sample.cam_params 0 Sample.state0
              Sample.pass0_state Sample.pass0.1 eq_refl Hpass) as [Href Hother].
  split.
  - destruct Href as (cp & Horig & Hcp). injection Horig as <-. exact Hcp.
  - destruct (cam_params Sample.pass0_state !! 1%nat) as [cp'|] eqn:Hcp';
      [|vm_compute in Hcp'; discriminate Hcp'].
    destruct (Hother 1%nat cp' ltac:(cbn; lia) Hcp')
      as (cp & f & c & dd & Hcp & Hf & Hc & Hd & ->).
    injection Hcp as <-.
    vm_compute in Hf. injection Hf as <-.
    vm_compute in Hc. injection Hc as <-.
    vm_compute in Hd. injection Hd as <-.
    vm_compute. reflexivity.
Defined.

Lemma tool_triangulation_keeps_inliers_on_bad_xyz_witness :
  InterestPoint.bad_xyz Sample.track1_xyz = true
  ∧ RigCalibrator.triangulate_track (H := Sample.externals) Sample.cam_params
      Sample.cams Sample.world_to_cam Sample.keypoint_vec
      (Sample.inliers, [zero3; zero3]) (1%nat, Sample.track1)
    = Ok (Sample.inliers, [zero3; Sample.track1_xyz]).
Proof.
  split; [reflexivity|].
  apply (tool_triangulation_keeps_inliers_on_bad_xyz (H := Sample.externals)
           Sample.cam_params Sample.cams Sample.world_to_cam Sample.keypoint_vec
           Sample.inliers [zero3; zero3] 1 Sample.track1
           Sample.track1_focal_lengths Sample.track1_world_to_cam
           Sample.track1_pixels Sample.track1_xyz).
  - vm_compute. reflexivity.
  - cbn. lia.
  - vm_compute. reflexivity.
  - reflexivity.
Defined.

Lemma writeNvm_keeps_tracks_with_more_than_two_inliers_witness :
  InterestPoint.writeNvm (H := Sample.externals) Sample.cam_params Sample.cams
    Sample.world_to_cam Sample.keypoint_vec Sample.tracks Sample.inliers
    Sample.landmarks = Ok Sample.nvm_file
  ∧ Forall2 (λ pid_track pt,
               Sample.landmarks !! pid_track.1 = Some (InterestPoint.pt_xyz pt)
               ∧ length (InterestPoint.pt_measures pt)
                 = inlier_count Sample.inliers pid_track.1 pid_track.2
               ∧ ∀ cid, cid ∈ map InterestPoint.m_cid (InterestPoint.pt_measures pt) ↔
                        cid ∈ (inlier_items Sample.inliers pid_track.1 pid_track.2).*1)
            (filter (λ pid_track, more_than_two_inliers Sample.inliers pid_track)
                    (indexed Sample.tracks))
            (InterestPoint.nvm_points Sample.nvm_file).
Proof.
  assert (InterestPoint.writeNvm (H := Sample.externals) Sample.cam_params Sample.cams
            Sample.world_to_cam Sample.keypoint_vec Sample.tracks Sample.inliers
            Sample.landmarks = Ok Sample.nvm_file) as Hwrite.
  { assert (is_Ok (InterestPoint.writeNvm (H := Sample.externals) Sample.cam_params
                     Sample.cams Sample.world_to_cam Sample.keypoint_vec Sample.tracks
                     Sample.inliers Sample.landmarks) = true) as Hok
      by (vm_compute; reflexivity).
    unfold Sample.nvm_file.
    destruct (InterestPoint.writeNvm _ _ _ _ _ _ _) as [file|msg|];
      [reflexivity|discriminate Hok..]. }
  split; [exact Hwrite|].
  exact (writeNvm_keeps_tracks_with_more_than_two_inliers (H := Sample.externals)
           Sample.cam_params Sample.cams Sample.world_to_cam Sample.keypoint_vec
           Sample.tracks Sample.inliers Sample.landmarks Sample.nvm_file Hwrite).
Defined.

End Witnesses.

(** * Further properties of the code *)

(** ** Loops that visit an entry *)

(** The step a loop makes at one of its entries, between the states before
    and after it, when every step respects [Q]. *)
Lemma foldM_visit {A S} (Q : S → S → Prop) `{!Reflexive Q} `{!Transitive Q}
    (f : S → A → Result S) (a : A) (l : list A) :
  a ∈ l →
  (∀ s b s', b ∈ l → f s b = Ok s' → Q s s') →
  ∀ s s', foldM f s l = Ok s' →
  ∃ s1 s2, Q s s1 ∧ f s1 a = Ok s2 ∧ Q s2 s'.
Proof.
  induction l as [|b l IH]; intros Hin HQ s s' Hfold.
  - by apply elem_of_nil in Hin.
  - cbn [foldM] in Hfold. bind_inv Hfold as s1 Hs1.
    apply elem_of_cons in Hin as [->|Hin].
    + exists s, s1. split; [reflexivity|]. split; [done|].
      eapply (foldM_preserves Q); [|done].
      intros ? ? ? Hb. apply HQ. by constructor.
    + edestruct IH as (t1 & t2 & H1 & H2 & H3); [done| |done|].
      { intros ? ? ? Hb. apply HQ. by constructor. }
      exists t1, t2. split; [|done].
      transitivity s1; [|done]. eapply HQ; [constructor|done].
Qed.

(** The same when the entries are distinct and only the other steps respect
    [Q]. *)
Lemma foldM_split {A S} (Q : S → S → Prop) `{!Reflexive Q} `{!Transitive Q}
    (f : S → A → Result S) (a : A) (l : list A) :
  NoDup l → a ∈ l →
  (∀ s b s', b ∈ l → b ≠ a → f s b = Ok s' → Q s s') →
  ∀ s s', foldM f s l = Ok s' →
  ∃ s1 s2, Q s s1 ∧ f s1 a = Ok s2 ∧ Q s2 s'.
Proof.
  induction l as [|b l IH]; intros Hnd Hin HQ s s' Hfold.
  - by apply elem_of_nil in Hin.
  - cbn [foldM] in Hfold. bind_inv Hfold as s1 Hs1.
    apply NoDup_cons in Hnd as [Hnin Hnd].
    apply elem_of_cons in Hin as [->|Hin].
    + exists s, s1. split; [reflexivity|]. split; [done|].
      eapply (foldM_preserves Q); [|done].
      intros ? c ? Hc. apply HQ; [by constructor|]. by intros ->.
    + edestruct IH as (t1 & t2 & H1 & H2 & H3); [done|done| |done|].
      { intros ? ? ? Hb. apply HQ. by constructor. }
      exists t1, t2. split; [|done].
      transitivity s1; [|done].
      eapply HQ; [constructor| |done]. by intros ->.
Qed.

(** A loop whose steps never abort does not abort. *)
Lemma foldM_not_Fatal {A S} (P : S → Prop) (f : S → A → Result S) (l : list A) :
  (∀ s a, a ∈ l → P s → is_Fatal (f s a) = false ∧ ∀ s', f s a = Ok s' → P s') →
  ∀ s, P s → is_Fatal (foldM f s l) = false.
Proof.
  induction l as [|a l IH]; intros Hf s Hs; [done|].
  cbn [foldM]. destruct (Hf s a) as [Hnf HP]; [constructor|done|].
  destruct (f s a) as [s1| |]; cbn; [|done|done].
  apply IH; [|by apply HP]. intros ? ? Hin. apply Hf. by constructor.
Qed.

Lemma NoDup_indexed {A} (l : list A) : NoDup (indexed l).
Proof.
  apply (NoDup_fmap_1 fst). unfold indexed.
  rewrite fst_zip by (rewrite length_seq; lia). apply NoDup_seq.
Qed.

Lemma indexed_elem {A} (l : list A) (i : nat) (a : A) :
  (i, a) ∈ indexed l ↔ l !! i = Some a.
Proof.
  rewrite list_elem_of_lookup. split.
  - intros [k Hk]. by apply indexed_lookup in Hk as [-> ?].
  - intros Hi. exists i. by apply indexed_lookup.
Qed.

Lemma indexed_other {A} (l : list A) (i j : nat) (a b : A) :
  (i, a) ∈ indexed l → (j, b) ∈ indexed l → (j, b) ≠ (i, a) → j ≠ i.
Proof.
  rewrite !indexed_elem. intros Hi Hj Hne ->. congruence.
Qed.

Lemma map_items_NoDup' (track : gmap Z Z) : NoDup (map_items track).
Proof. apply (NoDup_fmap_1 fst), map_items_NoDup. Qed.

Lemma map_items_other (track : gmap Z Z) (cid fid c f : Z) :
  (cid, fid) ∈ map_items track → (c, f) ∈ map_items track →
  (c, f) ≠ (cid, fid) → c ≠ cid.
Proof.
  rewrite !map_items_elem. intros H1 H2 Hne ->. congruence.
Qed.

(** ** Entries that a step leaves alone *)

#[local] Instance agree_on_refl {T} (K : nat → Z → Z → Prop) :
  Reflexive (agree_on (T := T) K).
Proof. by intros m p c f _. Qed.

#[local] Instance agree_on_trans {T} (K : nat → Z → Z → Prop) :
  Transitive (agree_on (T := T) K).
Proof.
  intros m1 m2 m3 H12 H23 p c f HK. rewrite H23 by done. by apply H12.
Qed.

#[local] Instance same_track_refl {T} (pid : nat) : Reflexive (same_track (T := T) pid).
Proof. apply agree_on_refl. Qed.

#[local] Instance same_track_trans {T} (pid : nat) : Transitive (same_track (T := T) pid).
Proof. apply agree_on_trans. Qed.

#[local] Instance same_entry_refl {T} (pid : nat) (cid fid : Z) :
  Reflexive (same_entry (T := T) pid cid fid).
Proof. apply agree_on_refl. Qed.

#[local] Instance same_entry_trans {T} (pid : nat) (cid fid : Z) :
  Transitive (same_entry (T := T) pid cid fid).
Proof. apply agree_on_trans. Qed.

#[local] Instance tri_agree_refl (pid : nat) : Reflexive (tri_agree pid).
Proof. intros s. split; [reflexivity|done]. Qed.

#[local] Instance tri_agree_trans (pid : nat) : Transitive (tri_agree pid).
Proof.
  intros s1 s2 s3 (Hm & Hx & Hl) (Hm' & Hx' & Hl').
  split; [by transitivity s2.1|]. split; congruence.
Qed.

Lemma setMapValue_agree (K : nat → Z → Z → Prop) (m m' : PidCidFid Z)
    (pid : nat) (cid fid val : Z) :
  ¬ K pid cid fid → setMapValue m pid cid fid val = Ok m' → agree_on K m m'.
Proof.
  intros HK Hset p c f Hp. apply setMapValue_lookup3 in Hset as [_ ->].
  rewrite decide_False; [done|]. by intros (-> & -> & ->).
Qed.

Lemma mask_step_covers (tracks : list (gmap Z Z)) (m m' : PidCidFid Z) :
  mask_step m m' → mask_covers tracks m → mask_covers tracks m'.
Proof.
  intros Hstep Hcov pid track cid fid Ht Hf.
  destruct (Hstep pid cid fid) as [->|[_ ->]]; [by eapply Hcov|by eexists].
Qed.

(** ** [getMapValue] and [setMapValue] *)

(** X1: a value written by [setMapValue] is the one [getMapValue] reads
    back at the same indices; at all other indices [getMapValue] returns
    what it returned before, and the number of tracks is unchanged. *)
Theorem setMapValue_getMapValue (m m' : PidCidFid Z) (pid : nat) (cid fid val : Z) :
  setMapValue m pid cid fid val = Ok m' →
  getMapValue m' pid cid fid = Ok val
  ∧ (∀ p c f, ¬ (p = pid ∧ c = cid ∧ f = fid) →
              getMapValue m' p c f = getMapValue m p c f)
  ∧ length m' = length m.
Proof.
  unfold setMapValue. intros Hset.
  destruct (m !! pid) as [cm|] eqn:Hcm; [|done].
  destruct (cm !! cid) as [fm|] eqn:Hfm; [|done].
  destruct (fm !! fid) as [old|] eqn:Hold; [|done].
  injection Hset as <-.
  assert (pid < length m)%nat as Hlt by (by eapply lookup_lt_Some).
  unfold getMapValue, PidCidFid in *. split; [|split].
  - rewrite list_lookup_insert_eq by done. by rewrite !lookup_insert_eq.
  - intros p c f Hne. destruct (decide (p = pid)) as [->|Hp].
    + rewrite list_lookup_insert_eq by done. rewrite Hcm.
      destruct (decide (c = cid)) as [->|Hc].
      * rewrite lookup_insert_eq, Hfm.
        destruct (decide (f = fid)) as [->|Hf]; [tauto|].
        by rewrite lookup_insert_ne.
      * by rewrite lookup_insert_ne.
    + by rewrite list_lookup_insert_ne.
  - apply length_insert.
Qed.

(** X2: [setMapValue] never creates an entry: it returns exactly when
    [getMapValue] at the same indices does, and otherwise aborts with the
    message [getMapValue] aborts with. *)
Theorem setMapValue_needs_entry (m : PidCidFid Z) (pid : nat) (cid fid val : Z) :
  is_Ok (setMapValue m pid cid fid val) = is_Ok (getMapValue m pid cid fid)
  ∧ ∀ msg, setMapValue m pid cid fid val = Fatal msg
           ↔ getMapValue m pid cid fid = Fatal msg.
Proof.
  unfold setMapValue, getMapValue.
  destruct (m !! pid) as [cm|]; [|split; [done|intros; split; congruence]].
  destruct (cm !! cid) as [fm|]; [|split; [done|intros; split; congruence]].
  destruct (fm !! fid); split; first [done|intros; split; congruence].
Qed.

(** ** What boundary exclusion writes *)

Section ExclusionEntries.
Context `{Externals}.
Import RigCalibrator.

(** One step of the inner loop writes the entry of its feature and leaves
    every other entry alone. *)
Lemma exclusion_step_entry ref_cam_type excl cam_params cams keypoint_vec pid
    (m m' : PidCidFid Z) (cid fid : Z) :
  exclusion_step ref_cam_type excl cam_params cams keypoint_vec pid m (cid, fid) = Ok m' →
  (∀ p c f, ¬ (p = pid ∧ c = cid ∧ f = fid) → lookup3 m' p c f = lookup3 m p c f)
  ∧ ∃ cam, vec_at cams cid = Ok cam
      ∧ if camera_type cam =? ref_cam_type then
          ∃ dist_ip cp,
            keypoint_at keypoint_vec cid fid = Ok dist_ip
            ∧ vec_at cam_params (camera_type cam) = Ok cp
            ∧ lookup3 m' pid cid fid
              = Some (if near_boundary excl cp dist_ip then 0 else 1)
        else lookup3 m' pid cid fid = Some 1.
Proof.
  intros Hstep. cbn [exclusion_step] in Hstep.
  bind_inv Hstep as m1 Hassign. bind_inv Hstep as cam Hcam.
  pose proof (assignMapValue_lookup3 _ _ _ _ _ _ Hassign) as Hm1.
  assert (lookup3 m1 pid cid fid = Some 1) as Hone.
  { rewrite Hm1. by rewrite decide_True. }
  assert (∀ p c f, ¬ (p = pid ∧ c = cid ∧ f = fid) → lookup3 m1 p c f = lookup3 m p c f)
    as Hother.
  { intros p c f Hne. rewrite Hm1. by rewrite decide_False. }
  destruct (camera_type cam =? ref_cam_type) eqn:Href.
  - bind_inv Hstep as dist_ip Hkp. bind_inv Hstep as cp Hcp.
    fold (near_boundary excl cp dist_ip) in Hstep.
    destruct (near_boundary excl cp dist_ip) eqn:Hnear.
    + apply setMapValue_lookup3 in Hstep as [_ Hm']. split.
      * intros p c f Hne. rewrite Hm'. rewrite decide_False by done. by apply Hother.
      * exists cam. split; [done|]. rewrite Href. exists dist_ip, cp.
        rewrite Hnear. split; [done|]. split; [done|].
        rewrite Hm'. by rewrite decide_True.
    + injection Hstep as <-. split; [done|].
      exists cam. split; [done|]. rewrite Href. exists dist_ip, cp.
      by rewrite Hnear.
  - injection Hstep as <-. split; [done|].
    exists cam. split; [done|]. by rewrite Href.
Qed.

(** The entry of a feature of a track, when the function returns, is the one
    written by the step of the inner loop at that feature. *)
Lemma flagOutlierByExclusionDist_visit ref_cam_type excl cam_params cams
    (pid_to_cid_fid : list (gmap Z Z)) keypoint_vec (m_in m : PidCidFid Z)
    (pid : nat) (track : gmap Z Z) (cid fid : Z) :
  flagOutlierByExclusionDist ref_cam_type excl cam_params cams pid_to_cid_fid
    keypoint_vec m_in = Ok m →
  pid_to_cid_fid !! pid = Some track → track !! cid = Some fid →
  ∃ s1 s2,
    exclusion_step ref_cam_type excl cam_params cams keypoint_vec pid s1 (cid, fid) = Ok s2
    ∧ lookup3 m pid cid fid = lookup3 s2 pid cid fid.
Proof.
  intros Hrun Htrack Hfid. unfold flagOutlierByExclusionDist in Hrun.
  apply (foldM_split (same_track pid) _ (pid, track)) in Hrun
    as (t1 & t2 & _ & Hstep & Hafter).
  - apply (foldM_split (same_entry pid cid fid) _ (cid, fid)) in Hstep
      as (s1 & s2 & _ & Hstep & Hafter').
    + exists s1, s2. split; [done|].
      rewrite (Hafter pid cid fid) by done. by apply Hafter'.
    + apply map_items_NoDup'.
    + by apply map_items_elem.
    + intros s [c f] s' Hin Hne Hs p c' f' (-> & -> & ->).
      apply exclusion_step_entry in Hs as [Hother _]. apply Hother.
      intros (_ & -> & ->). done.
  - apply NoDup_indexed.
  - by apply indexed_elem.
  - intros s [p t] s' Hin Hne. apply (foldM_preserves (same_track pid)).
    intros u [c f] u' _ Hu p' c' f' ->.
    apply exclusion_step_entry in Hu as [Hother _]. apply Hother.
    intros (-> & _). eapply indexed_other; [| |done|done]; [|done].
    by apply indexed_elem.
Qed.

(** X3: when [flagOutlierByExclusionDist] returns, the entry of every feature
    of every track is 1, except that it is 0 for a feature of an image of
    the reference sensor whose pixel lies within the excluded margin; what
    the mask held on entry plays no part. *)
Theorem flagOutlierByExclusionDist_spec ref_cam_type excl cam_params cams
    (pid_to_cid_fid : list (gmap Z Z)) keypoint_vec (m_in m : PidCidFid Z)
    (pid : nat) (track : gmap Z Z) (cid fid : Z) :
  flagOutlierByExclusionDist ref_cam_type excl cam_params cams pid_to_cid_fid
    keypoint_vec m_in = Ok m →
  pid_to_cid_fid !! pid = Some track → track !! cid = Some fid →
  ∃ cam, vec_at cams cid = Ok cam
    ∧ if camera_type cam =? ref_cam_type then
        ∃ dist_ip cp,
          keypoint_at keypoint_vec cid fid = Ok dist_ip
          ∧ vec_at cam_params (camera_type cam) = Ok cp
          ∧ lookup3 m pid cid fid = Some (if near_boundary excl cp dist_ip then 0 else 1)
      else lookup3 m pid cid fid = Some 1.
Proof.
  intros Hrun Htrack Hfid.
  destruct (flagOutlierByExclusionDist_visit _ _ _ _ _ _ _ _ _ _ _ _ Hrun Htrack Hfid)
    as (s1 & s2 & Hstep & ->).
  by apply exclusion_step_entry in Hstep as [_ Hentry].
Qed.

Lemma flagOutlierByExclusionDist_covers ref_cam_type excl cam_params cams
    (pid_to_cid_fid : list (gmap Z Z)) keypoint_vec (m_in m : PidCidFid Z) :
  flagOutlierByExclusionDist ref_cam_type excl cam_params cams pid_to_cid_fid
    keypoint_vec m_in = Ok m →
  mask_covers pid_to_cid_fid m.
Proof.
  intros Hrun pid track cid fid Htrack Hfid.
  destruct (flagOutlierByExclusionDist_visit _ _ _ _ _ _ _ _ _ _ _ _ Hrun Htrack Hfid)
    as (s1 & s2 & Hstep & ->).
  apply exclusion_step_entry in Hstep as [_ (cam & _ & Hentry)].
  destruct (camera_type cam =? ref_cam_type); [|by eexists].
  destruct Hentry as (? & ? & _ & _ & ->). by eexists.
Qed.

End ExclusionEntries.

(** ** Triangulation, track by track *)

Section TriangulationTracks.
Context `{Externals}.

Lemma length_resize {A} (n : nat) (d : A) (v : list A) : length (resize n d v) = n.
Proof.
  unfold resize. rewrite length_app, length_take, length_replicate. lia.
Qed.

Lemma inlier_items_agree (m m' : PidCidFid Z) (pid : nat) (track : gmap Z Z) :
  same_track pid m m' → inlier_items m' pid track = inlier_items m pid track.
Proof.
  intros Hagree. unfold inlier_items. apply list_filter_iff. intros [cid fid].
  unfold is_inlier. cbn [fst snd]. by rewrite (Hagree pid cid fid).
Qed.


(** One ray is gathered for each inlier feature. *)
Lemma add_ray_count cam_params cams world_to_cam keypoint_vec (m : PidCidFid Z)
    (pid : nat) (items : list (Z * Z))
    (acc r : list double * list Affine3d * list Vector2d) :
  foldM (InterestPoint.add_ray cam_params cams world_to_cam keypoint_vec m pid)
        acc items = Ok r →
  let k := length (filter (λ cid_fid, is_inlier m pid cid_fid) items) in
  length r.1.1 = (length acc.1.1 + k)%nat
  ∧ length r.1.2 = (length acc.1.2 + k)%nat
  ∧ length r.2 = (length acc.2 + k)%nat.
Proof.
  revert acc. induction items as [|[cid fid] items IH]; intros acc Hfold.
  - injection Hfold as <-. cbn. lia.
  - cbn [foldM] in Hfold. bind_inv Hfold as acc1 Hstep.
    specialize (IH _ Hfold). cbn zeta in *.
    rewrite (filter_cons (λ cid_fid, is_inlier m pid cid_fid)).
    cbn [InterestPoint.add_ray] in Hstep. bind_inv Hstep as inlier Hget.
    rewrite (is_inlier_get _ _ _ _ _ Hget).
    destruct (Z.eqb_spec inlier 0) as [->|Hnz]; cbn [negb].
    + injection Hstep as <-. by rewrite decide_False by (by intros []).
    + rewrite decide_True by done.
      bind_inv Hstep as dist_ip Hkp. bind_inv Hstep as cp Hcp.
      bind_inv Hstep as w Hw. destruct acc as [[fv wv] pv].
      injection Hstep as <-. cbn [fst snd length] in *.
      rewrite !length_app in IH. cbn [length] in IH. lia.
Qed.

Lemma add_ray_not_Fatal cam_params cams world_to_cam keypoint_vec (m : PidCidFid Z)
    (pid : nat) (items : list (Z * Z))
    (acc : list double * list Affine3d * list Vector2d) :
  (∀ cid fid, (cid, fid) ∈ items → is_Some (lookup3 m pid cid fid)) →
  is_Fatal (foldM (InterestPoint.add_ray cam_params cams world_to_cam keypoint_vec m pid)
              acc items) = false.
Proof.
  intros Hsome. apply (foldM_not_Fatal (λ _, True)); [|done].
  intros [[fv wv] pv] [cid fid] Hin _. split; [|done].
  destruct (Hsome cid fid Hin) as [v Hv]. apply getMapValue_lookup3 in Hv.
  cbn [InterestPoint.add_ray]. rewrite Hv. cbn [mbind Result_bind].
  destruct (v =? 0); [done|].
  unfold keypoint_at, cam_params_of, vec_at.
  repeat (case_match; cbn [mbind Result_bind is_Fatal]; try done).
Qed.

(** Zeroing a track touches the entries of that track only. *)
Lemma set_track_outliers_agree (m m' : PidCidFid Z) (p pid : nat) (track : gmap Z Z) :
  p ≠ pid → set_track_outliers m p track = Ok m' → same_track pid m m'.
Proof.
  intros Hne. unfold set_track_outliers. apply (foldM_preserves (same_track pid)).
  intros s [c f] s' _. apply setMapValue_agree. done.
Qed.

Lemma set_track_outliers_zero (m m' : PidCidFid Z) (pid : nat) (track : gmap Z Z)
    (cid fid : Z) :
  set_track_outliers m pid track = Ok m' →
  track !! cid = Some fid → lookup3 m' pid cid fid = Some 0.
Proof.
  unfold set_track_outliers. intros Hset Hfid.
  apply map_items_elem in Hfid.
  apply (foldM_visit mask_step _ (cid, fid)) in Hset as (s1 & s2 & _ & Hstep & Hafter).
  - apply setMapValue_lookup3 in Hstep as [_ Hs2].
    destruct (Hafter pid cid fid) as [->|[_ ->]]; [|done].
    rewrite Hs2. by rewrite decide_True.
  - done.
  - intros s [c f] s' _. apply setMapValue_zero_step.
Qed.

(** What the iteration of the tool's loop for a track does to that track. *)
Lemma tool_triangulate_track_at cam_params cams world_to_cam keypoint_vec
    (m m' : PidCidFid Z) (xyz_vec xyz_vec' : list Vector3d) (pid : nat)
    (track : gmap Z Z) :
  RigCalibrator.triangulate_track cam_params cams world_to_cam keypoint_vec
    (m, xyz_vec) (pid, track) = Ok (m', xyz_vec') →
  ∃ fv wv pv,
    foldM (InterestPoint.add_ray cam_params cams world_to_cam keypoint_vec m pid)
          ([], [], []) (map_items track) = Ok (fv, wv, pv)
    ∧ length pv = inlier_count m pid track
    ∧ if (length pv <? 2)%nat then
        xyz_vec' = xyz_vec
        ∧ ∀ cid fid, track !! cid = Some fid → lookup3 m' pid cid fid = Some 0
      else
        ∃ xyz, InterestPoint.Triangulate fv wv pv = Ok xyz
               ∧ m' = m ∧ xyz_vec' = <[pid := xyz]> xyz_vec.
Proof.
  intros Hstep. cbn [RigCalibrator.triangulate_track] in Hstep.
  bind_inv Hstep as r Hrays. destruct r as [[fv wv] pv].
  exists fv, wv, pv. split; [done|].
  pose proof (add_ray_count _ _ _ _ _ _ _ _ _ Hrays) as (_ & _ & Hlen).
  cbn in Hlen. split; [done|].
  destruct (length pv <? 2)%nat.
  - bind_inv Hstep as m1 Hset. injection Hstep as <- <-.
    split; [done|]. intros cid fid. by eapply set_track_outliers_zero.
  - bind_inv Hstep as xyz Htri. injection Hstep as <- <-. by exists xyz.
Qed.

(** What the iteration for another track does to it: nothing. *)
Lemma tool_triangulate_track_other cam_params cams world_to_cam keypoint_vec
    (s s' : PidCidFid Z * list Vector3d) (p pid : nat) (track : gmap Z Z) :
  p ≠ pid →
  RigCalibrator.triangulate_track cam_params cams world_to_cam keypoint_vec
    s (p, track) = Ok s' →
  tri_agree pid s s'.
Proof.
  intros Hne Hstep. destruct s as [m xyz_vec].
  cbn [RigCalibrator.triangulate_track] in Hstep.
  bind_inv Hstep as r Hrays. destruct r as [[fv wv] pv].
  destruct (length pv <? 2)%nat.
  - bind_inv Hstep as m1 Hset. injection Hstep as <-.
    split; [|done]. by eapply set_track_outliers_agree.
  - bind_inv Hstep as xyz Htri. injection Hstep as <-.
    split; [reflexivity|]. cbn [fst snd]. split.
    + by apply list_lookup_insert_ne.
    + apply length_insert.
Qed.

(** The state in which the tool's loop reaches a track agrees on that track
    with the one the loop starts from, and the state it ends in with the one
    after the track's iteration. *)
Lemma tool_multiViewTriangulation_visit cam_params cams world_to_cam
    (pid_to_cid_fid : list (gmap Z Z)) keypoint_vec (m m' : PidCidFid Z)
    (xyz_vec xyz_vec' : list Vector3d) (pid : nat) (track : gmap Z Z) :
  RigCalibrator.multiViewTriangulation cam_params cams world_to_cam pid_to_cid_fid
    keypoint_vec m xyz_vec = Ok (m', xyz_vec') →
  pid_to_cid_fid !! pid = Some track →
  ∃ s1 s2,
    tri_agree pid (m, resize (length pid_to_cid_fid) uninit_xyz xyz_vec) s1
    ∧ RigCalibrator.triangulate_track cam_params cams world_to_cam keypoint_vec
        s1 (pid, track) = Ok s2
    ∧ tri_agree pid s2 (m', xyz_vec').
Proof.
  intros Hrun Htrack. unfold RigCalibrator.multiViewTriangulation in Hrun.
  apply (foldM_split (tri_agree pid) _ (pid, track)) in Hrun; [done|..].
  - apply NoDup_indexed.
  - by apply indexed_elem.
  - intros s [p t] s' Hin Hne. apply tool_triangulate_track_other.
    eapply indexed_other; [|done|done]. by apply indexed_elem.
Qed.

(** X4: when the tool's [multiViewTriangulation] returns, every feature of a
    track that had fewer than two inlier features on entry is an outlier, and
    the point of that track is what resizing [xyz_vec] left there. *)
Theorem tool_triangulation_flags_short_tracks cam_params cams world_to_cam
    (pid_to_cid_fid : list (gmap Z Z)) keypoint_vec (m m' : PidCidFid Z)
    (xyz_vec xyz_vec' : list Vector3d) (pid : nat) (track : gmap Z Z) :
  RigCalibrator.multiViewTriangulation cam_params cams world_to_cam pid_to_cid_fid
    keypoint_vec m xyz_vec = Ok (m', xyz_vec') →
  pid_to_cid_fid !! pid = Some track →
  (inlier_count m pid track < 2)%nat →
  (∀ cid fid, track !! cid = Some fid → lookup3 m' pid cid fid = Some 0)
  ∧ xyz_vec' !! pid = resize (length pid_to_cid_fid) uninit_xyz xyz_vec !! pid.
Proof.
  intros Hrun Htrack Hfew.
  destruct (tool_multiViewTriangulation_visit _ _ _ _ _ _ _ _ _ _ _ Hrun Htrack)
    as ([m1 x1] & [m2 x2] & (Hm1 & Hx1 & _) & Hstep & (Hm2 & Hx2 & _)).
  cbn [fst snd] in *.
  apply tool_triangulate_track_at in Hstep as (fv & wv & pv & _ & Hlen & Hcase).
  unfold inlier_count in *. rewrite (inlier_items_agree _ _ _ _ Hm1) in Hlen.
  rewrite <- Hlen in Hfew. apply Nat.ltb_lt in Hfew. rewrite Hfew in Hcase.
  destruct Hcase as [-> Hzero]. split; [|congruence].
  intros cid fid Hfid. rewrite (Hm2 pid cid fid) by done. by apply Hzero.
Qed.


Lemma tool_triangulate_track_not_Fatal cam_params cams world_to_cam keypoint_vec
    (m : PidCidFid Z) (xyz_vec : list Vector3d) (pid : nat) (track : gmap Z Z) :
  (∀ cid fid, track !! cid = Some fid → is_Some (lookup3 m pid cid fid)) →
  is_Fatal (RigCalibrator.triangulate_track cam_params cams world_to_cam keypoint_vec
              (m, xyz_vec) (pid, track)) = false.
Proof.
  intros Hsome.
  assert (∀ cid fid, (cid, fid) ∈ map_items track → is_Some (lookup3 m pid cid fid))
    as Hitems by (intros c f Hin; by apply Hsome, map_items_elem).
  pose proof (add_ray_not_Fatal cam_params cams world_to_cam keypoint_vec m pid
                (map_items track) ([], [], []) Hitems) as Hrays.
  cbn [RigCalibrator.triangulate_track].
  destruct (foldM _ _ _) as [[[fv wv] pv]| |] eqn:Hfold; [|done|done].
  cbn [mbind Result_bind].
  pose proof (add_ray_count _ _ _ _ _ _ _ _ _ Hfold) as (Hf & Hw & Hp).
  cbn in Hf, Hw, Hp.
  destruct (length pv <? 2)%nat eqn:Hlen.
  - destruct (set_outliers_fold pid (map_items track) m Hitems) as (m' & Hset & _).
    unfold set_track_outliers. by rewrite Hset.
  - apply Nat.ltb_ge in Hlen. unfold InterestPoint.Triangulate.
    rewrite Hf, Hw, Hp, !Nat.eqb_refl. cbn [negb orb].
    replace (_ <=? 1)%nat with false; [done|]. symmetry. apply Nat.leb_gt. lia.
Qed.

(** X6: once boundary exclusion has written the mask, and whatever entries
    were set to 0 since, the tool's [multiViewTriangulation] never aborts
    through [LOG(FATAL)] on the same tracks: the entries that [getMapValue]
    and [setMapValue] look for are there, and [Triangulate] is only called
    with two rays or more. *)
Theorem tool_triangulation_never_aborts ref_cam_type excl cam_params0 cams0
    keypoint_vec0 (m_in m0 m : PidCidFid Z)
    cam_params cams world_to_cam (pid_to_cid_fid : list (gmap Z Z)) keypoint_vec
    (xyz_vec : list Vector3d) :
  RigCalibrator.flagOutlierByExclusionDist ref_cam_type excl cam_params0 cams0
    pid_to_cid_fid keypoint_vec0 m_in = Ok m0 →
  mask_step m0 m →
  is_Fatal (RigCalibrator.multiViewTriangulation cam_params cams world_to_cam
              pid_to_cid_fid keypoint_vec m xyz_vec) = false.
Proof.
  intros Hexcl Hstep. apply flagOutlierByExclusionDist_covers in Hexcl.
  apply (mask_step_covers _ _ _ Hstep) in Hexcl.
  unfold RigCalibrator.multiViewTriangulation.
  apply (foldM_not_Fatal (λ s, mask_covers pid_to_cid_fid s.1)); [|done].
  intros [m1 x1] [pid track] Hin Hcov. apply indexed_elem in Hin. split.
  - apply tool_triangulate_track_not_Fatal. intros cid fid. by apply Hcov.
  - intros s' Hs'. apply tool_triangulate_track_step in Hs'.
    by eapply mask_step_covers.
Qed.

End TriangulationTracks.

(** ** The library's triangulation, track by track *)

Section LibraryTriangulation.
Context `{Externals}.

Lemma lib_triangulate_track_at cam_params cams world_to_cam keypoint_vec
    (m m' : PidCidFid Z) (xyz_vec xyz_vec' : list Vector3d) (pid : nat)
    (track : gmap Z Z) :
  InterestPoint.triangulate_track cam_params cams world_to_cam keypoint_vec
    (m, xyz_vec) (pid, track) = Ok (m', xyz_vec') →
  ∃ fv wv pv,
    foldM (InterestPoint.add_ray cam_params cams world_to_cam keypoint_vec m pid)
          ([], [], []) (map_items track) = Ok (fv, wv, pv)
    ∧ length pv = inlier_count m pid track
    ∧ if (length pv <? 2)%nat then
        xyz_vec' = xyz_vec
        ∧ ∀ cid fid, track !! cid = Some fid → lookup3 m' pid cid fid = Some 0
      else
        ∃ xyz, InterestPoint.Triangulate fv wv pv = Ok xyz
               ∧ xyz_vec' = <[pid := xyz]> xyz_vec
               ∧ if InterestPoint.bad_xyz xyz then
                   ∀ cid fid, track !! cid = Some fid → lookup3 m' pid cid fid = Some 0
                 else m' = m.
Proof.
  intros Hstep. cbn [InterestPoint.triangulate_track] in Hstep.
  bind_inv Hstep as r Hrays. destruct r as [[fv wv] pv].
  exists fv, wv, pv. split; [done|].
  pose proof (add_ray_count _ _ _ _ _ _ _ _ _ Hrays) as (_ & _ & Hlen).
  cbn in Hlen. split; [done|].
  destruct (length pv <? 2)%nat.
  - bind_inv Hstep as m1 Hset. injection Hstep as <- <-.
    split; [done|]. intros cid fid. by eapply set_track_outliers_zero.
  - bind_inv Hstep as xyz Htri. exists xyz. split; [done|].
    destruct (InterestPoint.bad_xyz xyz).
    + bind_inv Hstep as m1 Hset. injection Hstep as <- <-.
      split; [done|]. intros cid fid. by eapply set_track_outliers_zero.
    + by injection Hstep as <- <-.
Qed.

Lemma lib_triangulate_track_other cam_params cams world_to_cam keypoint_vec
    (s s' : PidCidFid Z * list Vector3d) (p pid : nat) (track : gmap Z Z) :
  p ≠ pid →
  InterestPoint.triangulate_track cam_params cams world_to_cam keypoint_vec
    s (p, track) = Ok s' →
  tri_agree pid s s'.
Proof.
  intros Hne Hstep. destruct s as [m xyz_vec].
  cbn [InterestPoint.triangulate_track] in Hstep.
  bind_inv Hstep as r Hrays. destruct r as [[fv wv] pv].
  destruct (length pv <? 2)%nat.
  - bind_inv Hstep as m1 Hset. injection Hstep as <-.
    split; [|done]. by eapply set_track_outliers_agree.
  - bind_inv Hstep as xyz Htri.
    assert (<[p := xyz]> xyz_vec !! pid = xyz_vec !! pid) as Hx
      by (by apply list_lookup_insert_ne).
    assert (length (<[p := xyz]> xyz_vec) = length xyz_vec) as Hl
      by apply length_insert.
    destruct (InterestPoint.bad_xyz xyz).
    + bind_inv Hstep as m1 Hset. injection Hstep as <-.
      split; [|done]. by eapply set_track_outliers_agree.
    + injection Hstep as <-. split; [reflexivity|done].
Qed.

Lemma lib_multiViewTriangulation_visit cam_params cams world_to_cam
    (pid_to_cid_fid : list (gmap Z Z)) keypoint_vec (m m' : PidCidFid Z)
    (xyz_vec' : list Vector3d) (pid : nat) (track : gmap Z Z) :
  InterestPoint.multiViewTriangulation cam_params cams world_to_cam pid_to_cid_fid
    keypoint_vec m = Ok (m', xyz_vec') →
  pid_to_cid_fid !! pid = Some track →
  ∃ s1 s2,
    tri_agree pid (m, resize (length pid_to_cid_fid) uninit_xyz []) s1
    ∧ InterestPoint.triangulate_track cam_params cams world_to_cam keypoint_vec
        s1 (pid, track) = Ok s2
    ∧ tri_agree pid s2 (m', xyz_vec').
Proof.
  intros Hrun Htrack. unfold InterestPoint.multiViewTriangulation in Hrun.
  apply (foldM_split (tri_agree pid) _ (pid, track)) in Hrun; [done|..].
  - apply NoDup_indexed.
  - by apply indexed_elem.
  - intros s [p t] s' Hin Hne. apply lib_triangulate_track_other.
    eapply indexed_other; [|done|done]. by apply indexed_elem.
Qed.

(** X7: when the library's [multiViewTriangulation] returns, a feature that
    is still an inlier belongs to a track that had at least two inlier
    features on entry, whose mask entries are untouched and whose point has
    no NaN or Inf coefficient. *)
Theorem lib_triangulation_survivors_are_finite cam_params cams world_to_cam
    (pid_to_cid_fid : list (gmap Z Z)) keypoint_vec (m m' : PidCidFid Z)
    (xyz_vec' : list Vector3d) (pid : nat) (track : gmap Z Z) (cid fid v : Z) :
  InterestPoint.multiViewTriangulation cam_params cams world_to_cam pid_to_cid_fid
    keypoint_vec m = Ok (m', xyz_vec') →
  pid_to_cid_fid !! pid = Some track → track !! cid = Some fid →
  lookup3 m' pid cid fid = Some v → v ≠ 0 →
  (2 ≤ inlier_count m pid track)%nat
  ∧ (∀ c f, lookup3 m' pid c f = lookup3 m pid c f)
  ∧ ∃ xyz, xyz_vec' !! pid = Some xyz ∧ InterestPoint.bad_xyz xyz = false.
Proof.
  intros Hrun Htrack Hfid Hv Hnz.
  destruct (lib_multiViewTriangulation_visit _ _ _ _ _ _ _ _ _ _ Hrun Htrack)
    as ([m1 x1] & [m2 x2] & (Hm1 & Hx1 & Hl1) & Hstep & (Hm2 & Hx2 & _)).
  cbn [fst snd] in *.
  apply lib_triangulate_track_at in Hstep as (fv & wv & pv & _ & Hlen & Hcase).
  unfold inlier_count in *. rewrite (inlier_items_agree _ _ _ _ Hm1) in Hlen.
  rewrite (Hm2 pid cid fid) in Hv by done.
  destruct (length pv <? 2)%nat eqn:Hshort.
  { destruct Hcase as [_ Hzero]. rewrite (Hzero cid fid Hfid) in Hv. congruence. }
  apply Nat.ltb_ge in Hshort. destruct Hcase as (xyz & _ & -> & Hcase).
  destruct (InterestPoint.bad_xyz xyz) eqn:Hbad.
  { rewrite (Hcase cid fid Hfid) in Hv. congruence. }
  subst m2. split; [lia|]. split.
  - intros c f. rewrite (Hm2 pid c f) by done. by apply Hm1.
  - exists xyz. split; [|done]. rewrite Hx2. apply list_lookup_insert_eq.
    rewrite Hl1, length_resize. by eapply lookup_lt_Some.
Qed.

End LibraryTriangulation.

(** ** The filters by angle and by reprojection error *)

Section Filters.
Context `{Externals}.
Import RigCalibrator.












End Filters.

(** ** World-to-camera transforms *)

Section WorldToCam.
Context `{Externals}.
Import RigCalibrator.

(** X10: with a rig, [calc_world_to_cam_transforms] returns one transform
    per image, in the order of the images: the one that
    [calc_world_to_cam_trans] computes from the bracketing reference poses
    of the image, the extrinsics and the timestamp offset of its sensor.
    What [world_to_cam] held before plays no part. *)
Theorem calc_world_to_cam_transforms_rig_spec (cams : list cameraImage)
    (world_to_ref_vec ref_timestamps ref_to_cam_vec world_to_cam_vec
     ref_to_cam_timestamp_offsets : list double) (w_in w : list Affine3d) :
  calc_world_to_cam_transforms false cams world_to_ref_vec ref_timestamps
    ref_to_cam_vec world_to_cam_vec ref_to_cam_timestamp_offsets w_in = Ok w →
  Forall2 (λ cam t,
             ∃ beg_ref_stamp end_ref_stamp offset,
               vec_at ref_timestamps (beg_ref_index cam) = Ok beg_ref_stamp
               ∧ vec_at ref_timestamps (end_ref_index cam) = Ok end_ref_stamp
               ∧ vec_at ref_to_cam_timestamp_offsets (camera_type cam) = Ok offset
               ∧ calc_world_to_cam_trans (world_to_ref_vec, beg_ref_index cam)
                   (world_to_ref_vec, end_ref_index cam)
                   (ref_to_cam_vec, camera_type cam)
                   beg_ref_stamp end_ref_stamp offset (timestamp cam) = Ok t)
          cams w.
Proof.
  cbn [calc_world_to_cam_transforms negb]. unfold calc_world_to_cam_transforms_rig.
  intros Hrun. bind_inv Hrun as u1 Hc1. bind_inv Hrun as u2 Hc2.
  rewrite (foldM_ext _
             (λ acc cam,
                (vec_at ref_timestamps (beg_ref_index cam) ≫= λ beg_ref_stamp,
                 vec_at ref_timestamps (end_ref_index cam) ≫= λ end_ref_stamp,
                 vec_at ref_to_cam_timestamp_offsets (camera_type cam) ≫= λ offset,
                 calc_world_to_cam_trans (world_to_ref_vec, beg_ref_index cam)
                   (world_to_ref_vec, end_ref_index cam)
                   (ref_to_cam_vec, camera_type cam)
                   beg_ref_stamp end_ref_stamp offset (timestamp cam))
                ≫= λ t, Ok (acc ++ [t]))) in Hrun.
  2: { intros acc cam.
       destruct (vec_at ref_timestamps (beg_ref_index cam)); [|done|done].
       destruct (vec_at ref_timestamps (end_ref_index cam)); [|done|done].
       by destruct (vec_at ref_to_cam_timestamp_offsets (camera_type cam)). }
  apply foldM_append in Hrun as (new & -> & Hnew). cbn [app].
  eapply Forall2_impl; [exact Hnew|]. intros cam t Ht. cbn beta in Ht.
  bind_inv Ht as b Hb. bind_inv Ht as e He. bind_inv Ht as o Ho.
  by exists b, e, o.
Qed.

Lemma calc_world_to_cam_no_extrinsics_from (world_to_cam_vec : list double)
    (n k : nat) (w w' : list Affine3d) :
  foldM (λ world_to_cam cid,
           read_rigid (world_to_cam_vec, Z.of_nat cid) ≫= λ t,
           vec_set world_to_cam (Z.of_nat cid) t)
        w (seq k n) = Ok w' →
  length w' = length w
  ∧ (k + n ≤ length w ∨ n = 0)%nat
  ∧ ∀ cid : nat,
      ((cid < k ∨ k + n ≤ cid)%nat → w' !! cid = w !! cid)
      ∧ ((k ≤ cid < k + n)%nat →
         ∃ t, read_rigid (world_to_cam_vec, Z.of_nat cid) = Ok t ∧ w' !! cid = Some t).
Proof.
  revert k w. induction n as [|n IH]; intros k w Hfold.
  - injection Hfold as <-. split; [done|]. split; [by right|].
    intros cid. split; [done|lia].
  - cbn [seq foldM] in Hfold. bind_inv Hfold as w1 Hstep.
    bind_inv Hstep as t Ht. apply vec_set_Ok_inv in Hstep as (_ & Hlt & ->).
    rewrite Nat2Z.id in *.
    destruct (IH _ _ Hfold) as (Hlen & Hfit & Hat).
    rewrite length_insert in Hlen, Hfit. split; [done|]. split; [left; lia|].
    intros cid. destruct (Hat cid) as [Hout Hin]. split.
    + intros Hcid. rewrite Hout by lia. apply list_lookup_insert_ne. lia.
    + intros Hcid. destruct (decide (cid = k)) as [->|Hne].
      * exists t. split; [done|]. rewrite Hout by lia.
        by apply list_lookup_insert_eq.
      * apply Hin. lia.
Qed.

(** X11: with --no_extrinsics, [calc_world_to_cam_transforms] keeps the size
    of [world_to_cam], which must hold at least one transform per image; it
    replaces the transform of each image by the one stored for that image in
    [world_to_cam_vec] and leaves the transforms after the last image as
    they are. *)
Theorem calc_world_to_cam_transforms_no_extrinsics_spec (cams : list cameraImage)
    (world_to_ref_vec ref_timestamps ref_to_cam_vec world_to_cam_vec
     ref_to_cam_timestamp_offsets : list double) (w_in w : list Affine3d) :
  calc_world_to_cam_transforms true cams world_to_ref_vec ref_timestamps
    ref_to_cam_vec world_to_cam_vec ref_to_cam_timestamp_offsets w_in = Ok w →
  Z.of_nat (length world_to_cam_vec) = Z.of_nat (length cams) * NUM_RIGID_PARAMS
  ∧ length w = length w_in
  ∧ (length cams ≤ length w_in)%nat
  ∧ ∀ cid : nat,
      ((length cams ≤ cid)%nat → w !! cid = w_in !! cid)
      ∧ ((cid < length cams)%nat →
         ∃ t, read_rigid (world_to_cam_vec, Z.of_nat cid) = Ok t ∧ w !! cid = Some t).
Proof.
  cbn [calc_world_to_cam_transforms negb]. unfold calc_world_to_cam_no_extrinsics.
  intros Hrun. bind_inv Hrun as u Hsize.
  destruct (Z.eqb_spec (Z.of_nat (length world_to_cam_vec))
              (Z.of_nat (length cams) * NUM_RIGID_PARAMS)) as [Heq|]; [|done].
  apply calc_world_to_cam_no_extrinsics_from in Hrun as (Hlen & Hfit & Hat).
  split; [done|]. split; [done|]. split; [lia|].
  intros cid. destruct (Hat cid) as [Hout Hin]. split.
  - intros Hcid. apply Hout. lia.
  - intros Hcid. apply Hin. lia.
Qed.

End WorldToCam.

(** ** The value of a depth lookup *)

Section DepthValue.
Import RigCalibrator.

(** X12: when [depthValue] returns [true], the point it returns is the entry
    of the cloud at the rounded pixel, which lies inside the cloud, and is
    not (0, 0, 0); when it returns [false], the point is (0, 0, 0). *)
Theorem depthValue_result (depth_cloud : Mat) (dist_ip : Vector2d)
    (found : bool) (depth_xyz : Vector3d) :
  depthValue depth_cloud dist_ip = Ok (found, depth_xyz) →
  if found then
    vec3_eqb depth_xyz zero3 = false
    ∧ ∃ col row,
        Fp.round_to_int dist_ip.1 = Ok col ∧ Fp.round_to_int dist_ip.2 = Ok row
        ∧ 0 ≤ col < cols depth_cloud ∧ 0 ≤ row < rows depth_cloud
        ∧ mat_at depth_cloud row col = Ok depth_xyz
  else depth_xyz = zero3.
Proof.
  unfold depthValue. intros Hval.
  destruct ((cols depth_cloud =? 0) && (rows depth_cloud =? 0)).
  { by injection Hval as <- <-. }
  bind_inv Hval as col Hcol. bind_inv Hval as row Hrow.
  destruct ((col <? 0) || (row <? 0) || (cols depth_cloud <? col)
            || (rows depth_cloud <? row)) eqn:Hrange; [done|].
  destruct ((col =? cols depth_cloud) || (row =? rows depth_cloud)) eqn:Hedge.
  { by injection Hval as <- <-. }
  bind_inv Hval as v Hv. destruct (vec3_eqb v zero3) eqn:Hzero.
  { by injection Hval as <- <-. }
  injection Hval as <- <-. split; [done|]. exists col, row.
  split; [done|]. split; [done|]. split; [lia|]. split; [lia|done].
Qed.

End DepthValue.

(** ** The calls of a run that stops early *)

Section CallPrefix.
Context `{RigCalibrator.Pipeline}.
Import RigCalibrator.

Lemma ops_upto_bind {A B} (c : Run A) (f : A → Run B) (ops1 ops2 : list Op) :
  ops_upto c ops1 → (∀ a, ops_upto (f a) ops2) →
  ops_upto (run_bind c f) (ops1 ++ ops2).
Proof.
  unfold ops_upto. intros [Hpre Hall] Hf.
  destruct c as [tr [a| |]]; cbn [run_bind fst snd] in *.
  - specialize (Hf a). destruct (f a) as [tr' r] eqn:Hfa.
    destruct Hf as [Hpre' Hall']. cbn [fst snd] in *.
    rewrite map_app, (Hall a eq_refl). split.
    + by apply prefix_app.
    + intros b Hb. by rewrite (Hall' b Hb).
  - split; [by apply prefix_app_r|done].
  - split; [by apply prefix_app_r|done].
Qed.

Lemma ops_upto_lift {A} (r : Result A) : ops_upto (lift r) [].
Proof. by split. Qed.

Lemma ops_upto_call {A} (op : Op) (r : Result A) (get : A → PidCidFid Z) :
  ops_upto (call op r get) [op].
Proof.
  destruct r; (split; [|done]); cbn; [done|apply prefix_nil..].
Qed.

Lemma ops_upto_ret {A} (a : A) : ops_upto (run_ret a) [].
Proof. by split. Qed.

Lemma optimization_pass_ops_upto FLAGS cfg imgs orig pass st :
  ops_upto (optimization_pass FLAGS cfg imgs orig pass st) (pass_ops pass).
Proof.
  unfold optimization_pass, pass_ops.
  apply (ops_upto_bind _ _ []); [apply ops_upto_lift|]. intros w2c.
  apply (ops_upto_bind _ _ [_] [_; _]); [apply ops_upto_call|]. intros [mask xyz_vec].
  apply (ops_upto_bind _ _ [_] [_]); [apply ops_upto_call|]. intros [st1 sol].
  apply (ops_upto_bind _ _ [] [_]); [apply ops_upto_lift|]. intros w2c'.
  apply (ops_upto_bind _ _ [_] []); [apply ops_upto_call|]. intros mask'.
  apply ops_upto_ret.
Qed.

Lemma run_passes_ops_upto FLAGS cfg imgs orig n pass st :
  ops_upto (run_passes FLAGS cfg imgs orig n pass st) (flat_map pass_ops (seq pass n)).
Proof.
  revert pass st. induction n as [|n IH]; intros pass st; [apply ops_upto_ret|].
  cbn [run_passes seq flat_map].
  apply ops_upto_bind; [apply optimization_pass_ops_upto|]. intros st'. apply IH.
Qed.

(** X13: whatever the outcome of a run of [main], also when it aborts, the
    calls it has made are an initial segment of: reading the configuration,
    matching features, boundary exclusion, and then for each pass
    triangulation, solve and the filters by angle and reprojection error. *)
Theorem main_calls_are_a_prefix (HAVE_ASTROBEE : bool) (FLAGS : Flags) :
  map ev_op (main HAVE_ASTROBEE FLAGS).1
    `prefix_of` driver_ops (Z.to_nat (refiner_num_passes FLAGS)).
Proof.
  assert (ops_upto (main HAVE_ASTROBEE FLAGS)
            (driver_ops (Z.to_nat (refiner_num_passes FLAGS)))) as [Hpre _]; [|done].
  unfold main, driver_ops.
  apply (ops_upto_bind _ _ []); [apply ops_upto_lift|]. intros _.
  apply (ops_upto_bind _ _ [_] (_ :: _ :: _)); [apply ops_upto_call|]. intros cfg.
  apply (ops_upto_bind _ _ []); [apply ops_upto_lift|]. intros [[fl oc] ds].
  apply (ops_upto_bind _ _ [_] (_ :: _)); [apply ops_upto_call|]. intros imgs.
  apply (ops_upto_bind _ _ [_]); [apply ops_upto_call|]. intros mask.
  apply run_passes_ops_upto.
Qed.

(** The arrays of intrinsics: one entry per sensor, unless some sensor has
    no distortion coefficient. *)
Lemma intrinsics_arrays_from (cps : list CameraParameters)
    (fl : list double) (oc : list Vector2d) (ds : list (list double)) :
  foldM (λ '(focal_lengths, optical_centers, distortions) cp,
           fatal_if (length (GetDistortion cp) =? 0)%nat
             "The cameras are expected to have distortion." ≫= λ _,
           Ok (focal_lengths ++ [GetFocalLength cp],
               optical_centers ++ [GetOpticalOffset cp],
               distortions ++ [GetDistortion cp]))
        (fl, oc, ds) cps
  = if forallb (λ cp, negb (length (GetDistortion cp) =? 0)%nat) cps
    then Ok (fl ++ map GetFocalLength cps, oc ++ map GetOpticalOffset cps,
             ds ++ map GetDistortion cps)
    else Fatal "The cameras are expected to have distortion.".
Proof.
  revert fl oc ds. induction cps as [|cp cps IH]; intros fl oc ds.
  - cbn. by rewrite !app_nil_r.
  - cbn [foldM forallb map]. destruct (length (GetDistortion cp) =? 0)%nat; [done|].
    cbn [fatal_if mbind Result_bind negb andb]. rewrite IH.
    by rewrite <- !app_assoc.
Qed.

(** X14: when the configuration holds a sensor without distortion
    coefficients, [main] aborts right after reading the configuration: no
    features are matched and no pass is run. *)
Theorem main_aborts_without_distortion (HAVE_ASTROBEE : bool) (FLAGS : Flags)
    (cfg : Config) (cp : CameraParameters) :
  parameterValidation HAVE_ASTROBEE FLAGS = Ok tt →
  read_config FLAGS = Ok cfg →
  cp ∈ cfg_cam_params cfg → GetDistortion cp = [] →
  main HAVE_ASTROBEE FLAGS
  = ([ {| ev_op := OpReadConfig; ev_inlier := [] |} ],
     Fatal "The cameras are expected to have distortion.").
Proof.
  intros Hvalid Hcfg Hin Hnone. unfold main. rewrite Hvalid, Hcfg.
  cbn [lift call run_bind]. unfold intrinsics_arrays.
  rewrite intrinsics_arrays_from.
  replace (forallb _ _) with false; [done|]. symmetry.
  apply not_true_is_false. intros Hall. rewrite forallb_forall in Hall.
  apply list_elem_of_In in Hin. specialize (Hall cp Hin). by rewrite Hnone in Hall.
Qed.

End CallPrefix.

(** ** The intrinsics of the reference sensor, in general *)

Section RefIntrinsics.
Context `{RigCalibrator.Pipeline}.
Import RigCalibrator.

Lemma restore_ref_intrinsics_cases (FLAGS : Flags) (ref_cam_type : Z)
    (orig cps cps' : list CameraParameters) :
  restore_ref_intrinsics FLAGS ref_cam_type orig cps = Ok cps' →
  length cps' = length cps
  ∧ if ref_intrinsics_fixed FLAGS then
      ∃ cp, vec_at orig ref_cam_type = Ok cp
            ∧ vec_at cps' ref_cam_type = Ok cp
            ∧ ∀ it : nat, Z.of_nat it ≠ ref_cam_type → cps' !! it = cps !! it
    else cps' = cps.
Proof.
  unfold restore_ref_intrinsics. fold (ref_intrinsics_fixed FLAGS).
  destruct (ref_intrinsics_fixed FLAGS); intros Hrestore.
  - bind_inv Hrestore as cp Hcp.
    apply vec_set_Ok_inv in Hrestore as (Hpos & Hlt & ->).
    split; [apply length_insert|]. exists cp. split; [done|]. split.
    + unfold vec_at. destruct (Z.ltb_spec ref_cam_type 0); [lia|].
      by rewrite list_lookup_insert_eq.
    + intros it Hne. apply list_lookup_insert_ne. lia.
  - by injection Hrestore as <-.
Qed.

(** X15: after a pass, the reference sensor has the intrinsics read from
    the configuration exactly when none of its intrinsics floats or no
    solver iteration is allowed; otherwise it has, like every other sensor,
    the optimized focal length (in both coordinates), optical centre and
    distortion.  The number of sensors never changes. *)
Theorem ref_intrinsics_after_pass (FLAGS : Flags) (cfg : Config) (imgs : Images)
    (orig_cam_params : list CameraParameters) (pass : nat) (st st' : DriverState)
    (tr : list Event) :
  optimization_pass FLAGS cfg imgs orig_cam_params pass st = (tr, Ok st') →
  length (cam_params st') = length (cam_params st)
  ∧ (∀ (it : nat) cp',
       (ref_intrinsics_fixed FLAGS = true → Z.of_nat it ≠ cfg_ref_cam_type cfg) →
       cam_params st' !! it = Some cp' →
       ∃ cp f c d,
         cam_params st !! it = Some cp
         ∧ focal_lengths st' !! it = Some f
         ∧ optical_centers st' !! it = Some c
         ∧ distortions st' !! it = Some d
         ∧ cp' = SetDistortion (SetOpticalOffset (SetFocalLength cp (f, f)) c) d)
  ∧ (ref_intrinsics_fixed FLAGS = true →
     ∃ cp, vec_at orig_cam_params (cfg_ref_cam_type cfg) = Ok cp
           ∧ vec_at (cam_params st') (cfg_ref_cam_type cfg) = Ok cp).
Proof.
  intros Hpass.
  apply optimization_pass_Ok_inv in Hpass
    as (_ & w2c & mask & xyz_vec & sol & st1 & _ & Hcopy & -> & -> & -> & ->).
  unfold copy_back in Hcopy. bind_inv Hcopy as cw Hcams. destruct cw as [w2c' w2r].
  bind_inv Hcopy as cps Hintr. bind_inv Hcopy as cps' Hrestore.
  injection Hcopy as <-. cbn [cam_params focal_lengths optical_centers distortions].
  apply copy_back_intrinsics_spec in Hintr as [Hlen Hintr].
  apply restore_ref_intrinsics_cases in Hrestore as [Hlen' Hrestore].
  cbn [cam_params set_inlier set_world_to_cam] in *.
  split; [congruence|].
  destruct (ref_intrinsics_fixed FLAGS).
  - destruct Hrestore as (cp & Horig & Hcp & Hother). split.
    + intros it cp' Hne Hcp'. rewrite Hother in Hcp' by auto. by apply Hintr.
    + intros _. by exists cp.
  - subst cps'. split; [|done]. intros it cp' _ Hcp'. by apply Hintr.
Qed.

Lemma run_passes_ref_intrinsics FLAGS cfg imgs orig n pass st tr st' :
  ref_intrinsics_fixed FLAGS = true →
  run_passes FLAGS cfg imgs orig n pass st = (tr, Ok st') →
  length (cam_params st') = length (cam_params st)
  ∧ (n = 0%nat ∧ st' = st
     ∨ ∃ cp, vec_at orig (cfg_ref_cam_type cfg) = Ok cp
             ∧ vec_at (cam_params st') (cfg_ref_cam_type cfg) = Ok cp).
Proof.
  intros Hfixed. revert pass st tr. induction n as [|n IH]; intros pass st tr Hrun.
  - injection Hrun as <- <-. split; [done|by left].
  - cbn [run_passes] in Hrun.
    apply run_bind_Ok_inv in Hrun as (tr1 & st1 & tr2 & Hpass & Hrest & ->).
    assert (length (cam_params st1) = length (cam_params st)
            ∧ ∃ cp, vec_at orig (cfg_ref_cam_type cfg) = Ok cp
                    ∧ vec_at (cam_params st1) (cfg_ref_cam_type cfg) = Ok cp)
      as [Hlen1 Href1].
    { apply optimization_pass_Ok_inv in Hpass
        as (_ & w2c & mask & xyz_vec & sol & st2 & _ & Hcopy & -> & _).
      unfold copy_back in Hcopy. bind_inv Hcopy as cw Hcams.
      destruct cw as [w2c' w2r].
      bind_inv Hcopy as cps Hintr. bind_inv Hcopy as cps' Hrestore.
      injection Hcopy as <-. cbn [cam_params].
      apply copy_back_intrinsics_spec in Hintr as [Hlen _].
      apply restore_ref_intrinsics_cases in Hrestore as [Hlen' Hrestore].
      rewrite Hfixed in Hrestore. destruct Hrestore as (cp & Horig & Hcp & _).
      cbn [cam_params set_inlier set_world_to_cam] in *.
      split; [congruence|by exists cp]. }
    destruct (IH _ _ _ Hrest) as [Hlen [[-> ->]|Href]].
    + split; [done|by right].
    + split; [congruence|by right].
Qed.

(** X16: when none of the intrinsics of the reference sensor floats, or no
    solver iteration is allowed, the state [main] ends in has as many
    sensors as the configuration, and the reference sensor has the
    intrinsics read from the configuration, however many passes were run. *)
Theorem main_keeps_ref_intrinsics (HAVE_ASTROBEE : bool) (FLAGS : Flags)
    (cfg : Config) (tr : list Event) (st : DriverState) :
  ref_intrinsics_fixed FLAGS = true →
  read_config FLAGS = Ok cfg →
  main HAVE_ASTROBEE FLAGS = (tr, Ok st) →
  length (cam_params st) = length (cfg_cam_params cfg)
  ∧ vec_at (cam_params st) (cfg_ref_cam_type cfg)
    = vec_at (cfg_cam_params cfg) (cfg_ref_cam_type cfg).
Proof.
  intros Hfixed Hcfg Hmain. unfold main in Hmain.
  apply run_bind_Ok_inv in Hmain as (tr0 & u & tr0' & _ & Hmain & ->).
  apply run_bind_Ok_inv in Hmain as (tr1 & cfg' & tr1' & Hread & Hmain & ->).
  apply call_Ok_inv in Hread as [Hread _].
  rewrite Hcfg in Hread. injection Hread as <-.
  apply run_bind_Ok_inv in Hmain as (tr2 & arrays & tr2' & _ & Hmain & ->).
  destruct arrays as [[fl oc] ds].
  apply run_bind_Ok_inv in Hmain as (tr3 & imgs & tr3' & _ & Hmain & ->).
  apply run_bind_Ok_inv in Hmain as (tr4 & mask & tr4' & _ & Hmain & ->).
  apply (run_passes_ref_intrinsics _ _ _ _ _ _ _ _ _ Hfixed) in Hmain
    as [Hlen [[_ ->]|(cp & Horig & Hcp)]]; cbn [cam_params] in *.
  - done.
  - split; [done|congruence].
Qed.

End RefIntrinsics.

(** ** What [WriteNVM] and [writeNvm] put in the file *)

Section NvmContent.
Context `{Externals}.
Import InterestPoint.

Lemma CHECK_Ok (cond : bool) (msg : string) (u : unit) :
  CHECK cond msg = Ok u → cond = true.
Proof. by destruct cond. Qed.

Lemma WriteNVM_cameras_inv (cid_to_filename : list string)
    (focal_lengths : list double) (cid_to_cam_t_global : list Affine3d)
    (cameras : list NvmCamera) :
  foldM (λ cameras '(cid, filename),
           vec_at focal_lengths (Z.of_nat cid) ≫= λ focal,
           vec_at cid_to_cam_t_global (Z.of_nat cid) ≫= λ t,
           Ok (cameras ++ [ {| nvm_filename := filename; nvm_focal := focal;
                               nvm_cam_t_global := t |} ]))
        [] (indexed cid_to_filename) = Ok cameras →
  Forall2 (λ cid_name cam,
             nvm_filename cam = cid_name.2
             ∧ focal_lengths !! cid_name.1 = Some (nvm_focal cam)
             ∧ cid_to_cam_t_global !! cid_name.1 = Some (nvm_cam_t_global cam))
          (indexed cid_to_filename) cameras.
Proof.
  intros Hfold.
  erewrite (foldM_ext _
    (λ acc a, (vec_at focal_lengths (Z.of_nat a.1) ≫= λ focal,
               vec_at cid_to_cam_t_global (Z.of_nat a.1) ≫= λ t,
               Ok {| nvm_filename := a.2; nvm_focal := focal; nvm_cam_t_global := t |})
              ≫= λ b, Ok (acc ++ [b]))) in Hfold.
  2:{ intros acc [cid name]. cbn [fst snd].
      destruct (vec_at focal_lengths (Z.of_nat cid)); cbn; [|done|done].
      by destruct (vec_at cid_to_cam_t_global (Z.of_nat cid)). }
  apply foldM_append in Hfold as (new & -> & Hnew). cbn [app].
  eapply Forall2_impl; [exact Hnew|]. intros [cid name] cam Hcam. cbn [fst snd] in *.
  bind_inv Hcam as focal Hfocal. bind_inv Hcam as t Ht. injection Hcam as <-.
  cbn. split; [done|]. split; by apply vec_at_nat.
Qed.

Lemma WriteNVM_measures_inv (cid_to_keypoint_map : list (list Vector2d))
    (items : list (Z * Z)) (measures : list NvmMeasure) :
  foldM (λ measures '(cid, fid),
           vec_at cid_to_keypoint_map cid ≫= λ kps,
           vec_at kps fid ≫= λ pix,
           Ok (measures ++ [ {| m_cid := cid; m_fid := fid; m_pix := pix |} ]))
        [] items = Ok measures →
  Forall2 (λ cid_fid ms,
             m_cid ms = cid_fid.1 ∧ m_fid ms = cid_fid.2
             ∧ keypoint_at cid_to_keypoint_map cid_fid.1 cid_fid.2 = Ok (m_pix ms))
          items measures.
Proof.
  intros Hfold.
  erewrite (foldM_ext _
    (λ acc a, (vec_at cid_to_keypoint_map a.1 ≫= λ kps,
               vec_at kps a.2 ≫= λ pix,
               Ok {| m_cid := a.1; m_fid := a.2; m_pix := pix |})
              ≫= λ b, Ok (acc ++ [b]))) in Hfold.
  2:{ intros acc [cid fid]. cbn [fst snd].
      destruct (vec_at cid_to_keypoint_map cid) as [kps| |]; cbn; [|done|done].
      by destruct (vec_at kps fid). }
  apply foldM_append in Hfold as (new & -> & Hnew). cbn [app].
  eapply Forall2_impl; [exact Hnew|]. intros [cid fid] ms Hms. cbn [fst snd] in *.
  unfold keypoint_at. bind_inv Hms as kps Hkps. rewrite Hkps. cbn [mbind Result_bind].
  bind_inv Hms as pix Hpix. injection Hms as <-. done.
Qed.

Lemma WriteNVM_inv (cid_to_keypoint_map : list (list Vector2d))
    (cid_to_filename : list string) (focal_lengths : list double)
    (pid_to_cid_fid : list (gmap Z Z)) (pid_to_xyz : list Vector3d)
    (cid_to_cam_t_global : list Affine3d) (file : NvmFile) :
  WriteNVM cid_to_keypoint_map cid_to_filename focal_lengths pid_to_cid_fid
    pid_to_xyz cid_to_cam_t_global = Ok file →
  (length cid_to_filename = length cid_to_keypoint_map
   ∧ length pid_to_cid_fid = length pid_to_xyz
   ∧ length cid_to_filename = length cid_to_cam_t_global)
  ∧ Forall2 (λ cid_name cam,
               nvm_filename cam = cid_name.2
               ∧ focal_lengths !! cid_name.1 = Some (nvm_focal cam)
               ∧ cid_to_cam_t_global !! cid_name.1 = Some (nvm_cam_t_global cam))
            (indexed cid_to_filename) (nvm_cameras file)
  ∧ Forall2 (λ pid_track pt,
               (2 ≤ size pid_track.2)%nat
               ∧ pid_to_xyz !! pid_track.1 = Some (pt_xyz pt)
               ∧ Forall2 (λ cid_fid ms,
                            m_cid ms = cid_fid.1 ∧ m_fid ms = cid_fid.2
                            ∧ keypoint_at cid_to_keypoint_map cid_fid.1 cid_fid.2
                              = Ok (m_pix ms))
                         (map_items pid_track.2) (pt_measures pt))
            (indexed pid_to_cid_fid) (nvm_points file).
Proof.
  unfold WriteNVM. intros Hwrite.
  bind_inv Hwrite as u1 Hc1. apply CHECK_Ok, Nat.eqb_eq in Hc1.
  bind_inv Hwrite as u2 Hc2. apply CHECK_Ok, Nat.eqb_eq in Hc2.
  bind_inv Hwrite as u3 Hc3. apply CHECK_Ok, Nat.eqb_eq in Hc3.
  bind_inv Hwrite as cameras Hcams. bind_inv Hwrite as points Hpoints.
  injection Hwrite as <-. cbn [nvm_points nvm_cameras].
  split; [done|]. split; [by apply WriteNVM_cameras_inv|].
  erewrite (foldM_ext _
    (λ acc a, (vec_at pid_to_xyz (Z.of_nat a.1) ≫= λ xyz,
               CHECK (1 <? size a.2)%nat "PID has too few measurements" ≫= λ _,
               foldM (λ measures '(cid, fid),
                        vec_at cid_to_keypoint_map cid ≫= λ kps,
                        vec_at kps fid ≫= λ pix,
                        Ok (measures ++ [ {| m_cid := cid; m_fid := fid; m_pix := pix |} ]))
                     [] (map_items a.2) ≫= λ measures,
               Ok {| pt_xyz := xyz; pt_measures := measures |})
              ≫= λ b, Ok (acc ++ [b]))) in Hpoints.
  2:{ intros acc [pid track]. cbn [fst snd].
      destruct (vec_at pid_to_xyz (Z.of_nat pid)); cbn; [|done|done].
      destruct (CHECK _ _); cbn; [|done|done].
      match goal with |- ?m ≫= _ = _ => by destruct m end. }
  apply foldM_append in Hpoints as (new & -> & Hnew). cbn [app].
  eapply Forall2_impl; [exact Hnew|].
  intros [pid track] pt Hpt. cbn [fst snd] in *.
  bind_inv Hpt as xyz Hxyz. bind_inv Hpt as u Hu. bind_inv Hpt as measures Hms.
  injection Hpt as <-. cbn [pt_xyz pt_measures].
  apply CHECK_Ok, Nat.ltb_lt in Hu. split; [lia|]. split.
  - by apply vec_at_nat.
  - by apply WriteNVM_measures_inv.
Qed.

(** X17: when [WriteNVM] returns, the three size checks held and every track
    had at least two observations; the file has one camera per file name,
    with the focal length and transform at the same index, and one point per
    track, with the point at the same index and one measure per observation
    of the track, in increasing order of the images, carrying the image, the
    feature and the keypoint stored for that feature. *)
Theorem WriteNVM_spec (cid_to_keypoint_map : list (list Vector2d))
    (cid_to_filename : list string) (focal_lengths : list double)
    (pid_to_cid_fid : list (gmap Z Z)) (pid_to_xyz : list Vector3d)
    (cid_to_cam_t_global : list Affine3d) (file : NvmFile) :
  WriteNVM cid_to_keypoint_map cid_to_filename focal_lengths pid_to_cid_fid
    pid_to_xyz cid_to_cam_t_global = Ok file →
  length cid_to_filename = length cid_to_keypoint_map
  ∧ length pid_to_cid_fid = length pid_to_xyz
  ∧ length cid_to_filename = length cid_to_cam_t_global
  ∧ Forall (λ track, (2 ≤ size track)%nat) pid_to_cid_fid
  ∧ Forall2 (λ cid_name cam,
               nvm_filename cam = cid_name.2
               ∧ focal_lengths !! cid_name.1 = Some (nvm_focal cam)
               ∧ cid_to_cam_t_global !! cid_name.1 = Some (nvm_cam_t_global cam))
            (indexed cid_to_filename) (nvm_cameras file)
  ∧ Forall2 (λ pid_track pt,
               pid_to_xyz !! pid_track.1 = Some (pt_xyz pt)
               ∧ Forall2 (λ cid_fid ms,
                            m_cid ms = cid_fid.1 ∧ m_fid ms = cid_fid.2
                            ∧ keypoint_at cid_to_keypoint_map cid_fid.1 cid_fid.2
                              = Ok (m_pix ms))
                         (map_items pid_track.2) (pt_measures pt))
            (indexed pid_to_cid_fid) (nvm_points file).
Proof.
  intros Hwrite. apply WriteNVM_inv in Hwrite as ((H1 & H2 & H3) & Hcams & Hpoints).
  split; [done|]. split; [done|]. split; [done|]. split; [|split; [done|]].
  - apply Forall_forall. intros track Hin.
    apply list_elem_of_lookup in Hin as [pid Hpid].
    apply Forall2_same_length_lookup in Hpoints as [Hlen Hpoints].
    destruct (nvm_points file !! pid) as [pt|] eqn:Hpt.
    + destruct (Hpoints pid (pid, track) pt) as [Hsize _]; [|done|done].
      by apply indexed_lookup.
    + apply lookup_ge_None in Hpt. apply lookup_lt_Some in Hpid.
      rewrite length_indexed in Hlen. lia.
  - eapply Forall2_impl; [exact Hpoints|]. by intros ? ? (_ & ? & ?).
Qed.

(** Storing the keypoint of an inlier keeps what was stored before. *)
Lemma nvm_add_inlier_inv cam_params cams keypoint_vec (mask : PidCidFid Z)
    (pid : nat) (track : gmap Z Z) (kp kp' : list (list Vector2d))
    (fc fc' : list Z) (nv nv' : gmap Z Z) (cid fid : Z) :
  nvm_add_inlier cam_params cams keypoint_vec mask pid (kp, fc, nv) (cid, fid)
    = Ok (kp', fc', nv') →
  track !! cid = Some fid →
  nvm_recorded cam_params cams keypoint_vec mask pid track (kp, fc) nv →
  kp_grows (kp, fc) (kp', fc')
  ∧ nvm_recorded cam_params cams keypoint_vec mask pid track (kp', fc') nv'.
Proof.
  intros Hstep Hfid Hrec. cbn [nvm_add_inlier] in Hstep.
  bind_inv Hstep as inlier Hget.
  pose proof (is_inlier_get _ _ _ _ _ Hget) as Hinl.
  destruct (Z.eqb_spec inlier 0) as [->|Hnz].
  { injection Hstep as <- <- <-. split; [|done].
    intros c n Hn. exists n. split; [done|]. split; [lia|done]. }
  cbn [negb] in Hinl.
  bind_inv Hstep as dist_ip Hkp. bind_inv Hstep as cp Hcp.
  bind_inv Hstep as kps Hkps. bind_inv Hstep as count Hcount.
  bind_inv Hstep as kps' Hkps'. bind_inv Hstep as kp1 Hkp1.
  bind_inv Hstep as fc1 Hfc1. injection Hstep as <- <- <-.
  fold (shifted_pixel cp dist_ip) in Hkps'.
  apply vec_set_Ok_inv in Hkps' as (Hcount0 & Hcountlt & ->).
  apply vec_set_Ok_inv in Hkp1 as (Hcid0 & Hcidlt & ->).
  destruct (Z.leb_spec (count + 1) Fp.int_max); [|done].
  apply vec_set_Ok_inv in Hfc1 as (_ & Hfclt & ->).
  assert (kp !! Z.to_nat cid = Some kps) as Hkps_nat.
  { unfold vec_at_checked in Hkps. destruct (cid <? 0); [done|].
    by destruct (kp !! Z.to_nat cid) as [x|]; [injection Hkps as ->|]. }
  assert (∀ c, c ≠ cid →
            vec_at (<[Z.to_nat cid := count + 1]> fc) c = vec_at fc c) as Hfc_other.
  { intros c Hc. unfold vec_at. destruct (Z.ltb_spec c 0); [done|].
    rewrite list_lookup_insert_ne; [done|]. lia. }
  assert (vec_at (<[Z.to_nat cid := count + 1]> fc) cid = Ok (count + 1)) as Hfc_cid.
  { unfold vec_at. destruct (Z.ltb_spec cid 0); [lia|].
    by rewrite list_lookup_insert_eq. }
  assert (∀ c k, c ≠ cid ∨ k ≠ count →
            keypoint_at (<[Z.to_nat cid := <[Z.to_nat count := shifted_pixel cp dist_ip]> kps]> kp) c k
            = keypoint_at kp c k) as Hkp_other.
  { intros c k Hck. unfold keypoint_at, vec_at, Vector2d in *.
    destruct (Z.ltb_spec c 0); [done|].
    destruct (decide (c = cid)) as [->|Hc].
    - rewrite list_lookup_insert_eq by done. rewrite Hkps_nat.
      cbn [mbind Result_bind]. destruct (Z.ltb_spec k 0); [done|].
      rewrite list_lookup_insert_ne; [done|]. lia.
    - rewrite list_lookup_insert_ne; [done|]. lia. }
  assert (keypoint_at (<[Z.to_nat cid := <[Z.to_nat count := shifted_pixel cp dist_ip]> kps]> kp) cid count
          = Ok (shifted_pixel cp dist_ip)) as Hkp_cid.
  { unfold keypoint_at, vec_at. destruct (Z.ltb_spec cid 0); [lia|].
    rewrite list_lookup_insert_eq by done. cbn [mbind Result_bind].
    destruct (Z.ltb_spec count 0); [lia|]. by rewrite list_lookup_insert_eq. }
  assert (kp_grows (kp, fc)
            (<[Z.to_nat cid := <[Z.to_nat count := shifted_pixel cp dist_ip]> kps]> kp,
             <[Z.to_nat cid := count + 1]> fc)) as Hgrows.
  { intros c n Hn. cbn [fst snd] in *. destruct (decide (c = cid)) as [->|Hc].
    - rewrite Hcount in Hn. injection Hn as <-. exists (count + 1).
      split; [done|]. split; [lia|]. intros k pix Hk Hpix.
      rewrite Hkp_other; [done|]. right. lia.
    - exists n. rewrite Hfc_other by done. split; [done|]. split; [lia|].
      intros k pix _ Hpix. rewrite Hkp_other; [done|]. by left. }
  split; [done|].
  intros c k Hck. destruct (decide (c = cid)) as [->|Hc].
  - rewrite lookup_insert_eq in Hck. injection Hck as <-.
    exists fid, dist_ip, cp, (count + 1). cbn [fst snd].
    split; [done|]. split; [by rewrite Hinl; destruct (inlier =? 0) eqn:E; [lia|]|].
    split; [done|]. split; [done|]. split; [done|]. split; [lia|done].
  - rewrite lookup_insert_ne in Hck by done.
    destruct (Hrec c k Hck) as (f & dp & cp' & n & Hf & Hi & Hd & Hcp' & Hn & Hk & Hpix).
    cbn [fst snd] in *. exists f, dp, cp', n.
    split; [done|]. split; [done|]. split; [done|]. split; [done|].
    rewrite Hfc_other by done. split; [done|]. split; [done|].
    rewrite Hkp_other; [done|]. by left.
Qed.

#[local] Instance kp_grows_refl : Reflexive kp_grows.
Proof. intros s cid c Hc. exists c. split; [done|]. split; [lia|done]. Qed.

#[local] Instance kp_grows_trans : Transitive kp_grows.
Proof.
  intros s1 s2 s3 H12 H23 cid c Hc.
  destruct (H12 cid c Hc) as (c2 & Hc2 & Hle2 & Hkeep2).
  destruct (H23 cid c2 Hc2) as (c3 & Hc3 & Hle3 & Hkeep3).
  exists c3. split; [done|]. split; [lia|]. intros k pix Hk Hpix.
  apply Hkeep3; [lia|]. by apply Hkeep2.
Qed.

Lemma nvm_recorded_grows cam_params cams keypoint_vec (mask : PidCidFid Z)
    (pid : nat) (track : gmap Z Z) (s s' : list (list Vector2d) * list Z)
    (nv : gmap Z Z) :
  kp_grows s s' →
  nvm_recorded cam_params cams keypoint_vec mask pid track s nv →
  nvm_recorded cam_params cams keypoint_vec mask pid track s' nv.
Proof.
  intros Hgrows Hrec cid k Hk.
  destruct (Hrec cid k Hk) as (f & dp & cp & n & Hf & Hi & Hd & Hcp & Hn & Hkn & Hpix).
  destruct (Hgrows cid n Hn) as (n' & Hn' & Hle & Hkeep).
  exists f, dp, cp, n'. split; [done|]. split; [done|]. split; [done|].
  split; [done|]. split; [done|]. split; [lia|]. by apply Hkeep.
Qed.

Lemma nvm_add_inlier_fold_inv cam_params cams keypoint_vec (mask : PidCidFid Z)
    (pid : nat) (track : gmap Z Z) (items : list (Z * Z))
    (kp kp' : list (list Vector2d)) (fc fc' : list Z) (nv nv' : gmap Z Z) :
  foldM (nvm_add_inlier cam_params cams keypoint_vec mask pid) (kp, fc, nv) items
    = Ok (kp', fc', nv') →
  (∀ cid fid, (cid, fid) ∈ items → track !! cid = Some fid) →
  nvm_recorded cam_params cams keypoint_vec mask pid track (kp, fc) nv →
  kp_grows (kp, fc) (kp', fc')
  ∧ nvm_recorded cam_params cams keypoint_vec mask pid track (kp', fc') nv'.
Proof.
  revert kp fc nv. induction items as [|[cid fid] items IH];
    intros kp fc nv Hfold Htrack Hrec.
  - injection Hfold as <- <- <-. split; [reflexivity|done].
  - cbn [foldM] in Hfold. bind_inv Hfold as acc1 Hstep.
    destruct acc1 as [[kp1 fc1] nv1].
    eapply nvm_add_inlier_inv in Hstep as [Hgrows1 Hrec1];
      [|apply Htrack; constructor|exact Hrec].
    destruct (IH _ _ _ Hfold) as [Hgrows Hrec']; [|done|].
    { intros c f Hin. apply Htrack. by constructor. }
    split; [|done]. by transitivity (kp1, fc1).
Qed.

Lemma nvm_add_track_inv cam_params cams keypoint_vec (mask : PidCidFid Z)
    (xyz_vec : list Vector3d) (pid : nat) (track : gmap Z Z)
    kp fc ts xs kp' fc' ts' xs' :
  nvm_add_track cam_params cams keypoint_vec mask xyz_vec (kp, fc, ts, xs) (pid, track)
    = Ok (kp', fc', ts', xs') →
  kp_grows (kp, fc) (kp', fc')
  ∧ if more_than_two_inliers mask (pid, track)
    then ∃ nv, ts' = ts ++ [nv]
               ∧ nvm_recorded cam_params cams keypoint_vec mask pid track (kp', fc') nv
    else ts' = ts.
Proof.
  unfold nvm_add_track. intros Hadd. bind_inv Hadd as r Hfold.
  destruct r as [[kp1 fc1] nv].
  pose proof Hfold as Hsize.
  apply nvm_add_inlier_fold in Hsize as [_ Hsize];
    [|apply map_items_NoDup|intros; apply lookup_empty].
  cbn [snd] in Hsize. rewrite map_size_empty in Hsize. cbn in Hsize.
  apply (nvm_add_inlier_fold_inv _ _ _ _ _ track) in Hfold as [Hgrows Hrec].
  2: { intros c f. apply map_items_elem. }
  2: { intros c k Hk. by rewrite lookup_empty in Hk. }
  unfold more_than_two_inliers, inlier_count, inlier_items. cbn [fst snd].
  rewrite <- Hsize. destruct (2 <? size nv)%nat.
  - bind_inv Hadd as xyz Hxyz. injection Hadd as <- <- <- <-.
    split; [done|]. by exists nv.
  - by injection Hadd as <- <- <- <-.
Qed.

Lemma nvm_add_track_fold_inv cam_params cams keypoint_vec (mask : PidCidFid Z)
    (xyz_vec : list Vector3d) (l : list (nat * gmap Z Z))
    kp fc ts xs kp' fc' ts' xs' :
  foldM (nvm_add_track cam_params cams keypoint_vec mask xyz_vec)
        (kp, fc, ts, xs) l = Ok (kp', fc', ts', xs') →
  kp_grows (kp, fc) (kp', fc')
  ∧ ∃ new : list (gmap Z Z),
      ts' = ts ++ new
      ∧ Forall2 (λ pid_track nv,
                   nvm_recorded cam_params cams keypoint_vec mask pid_track.1
                     pid_track.2 (kp', fc') nv)
                (filter (λ pid_track, more_than_two_inliers mask pid_track) l) new.
Proof.
  revert kp fc ts xs. induction l as [|[pid track] l IH]; intros kp fc ts xs Hfold.
  - injection Hfold as <- <- <- <-. split; [reflexivity|].
    exists []. by rewrite app_nil_r.
  - cbn [foldM] in Hfold. bind_inv Hfold as acc1 Hstep.
    destruct acc1 as [[[kp1 fc1] ts1] xs1].
    apply nvm_add_track_inv in Hstep as [Hgrows1 Hstep].
    destruct (IH _ _ _ _ Hfold) as (Hgrows & new & -> & Hnew).
    split; [by transitivity (kp1, fc1)|].
    rewrite (filter_cons (λ pid_track, more_than_two_inliers mask pid_track)).
    destruct (more_than_two_inliers mask (pid, track)).
    + destruct Hstep as (nv & -> & Hrec). rewrite decide_True by done.
      exists (nv :: new). split; [by rewrite <- app_assoc|].
      constructor; [|done]. cbn [fst snd]. by eapply nvm_recorded_grows.
    + subst ts1. rewrite decide_False by (by intros []). by exists new.
Qed.

(** Cutting the keypoints of each image down to the number stored keeps the
    keypoints that a cut table has. *)
Lemma keypoint_at_take (kp : list (list Vector2d)) (fc : list Z) (cid k : Z)
    (pix : Vector2d) :
  keypoint_at (zip_with (λ (kps : list Vector2d) (count : Z), take (Z.to_nat count) kps)
                 kp fc) cid k = Ok pix →
  keypoint_at kp cid k = Ok pix.
Proof.
  unfold keypoint_at, vec_at. destruct (cid <? 0); [done|].
  rewrite lookup_zip_with.
  destruct (kp !! Z.to_nat cid) as [kps|]; [|done]. cbn [mbind option_bind].
  destruct (fc !! Z.to_nat cid) as [count|]; [|done].
  cbn [mbind option_bind Result_bind]. destruct (k <? 0); [done|].
  destruct (take (Z.to_nat count) kps !! Z.to_nat k) as [p|] eqn:Hp; [|done].
  apply lookup_take_Some in Hp as [-> _]. done.
Qed.

(** X18: every measure that [writeNvm] writes for a track stands for an
    inlier feature of that track in the image of the measure, and its pixel
    is the keypoint of that feature minus the optical centre of the sensor of
    the image, coordinate by coordinate. *)
Theorem writeNvm_pixels_are_shifted_keypoints
    (cam_params : list CameraParameters) (cams : list cameraImage)
    (world_to_cam : list Affine3d) (keypoint_vec : list (list Vector2d))
    (pid_to_cid_fid : list (gmap Z Z)) (mask : PidCidFid Z)
    (xyz_vec : list Vector3d) (file : NvmFile) :
  writeNvm cam_params cams world_to_cam keypoint_vec pid_to_cid_fid mask xyz_vec
    = Ok file →
  Forall2 (λ pid_track pt,
             ∀ ms, ms ∈ pt_measures pt →
               ∃ fid dist_ip cp,
                 pid_track.2 !! m_cid ms = Some fid
                 ∧ is_inlier mask pid_track.1 (m_cid ms, fid) = true
                 ∧ keypoint_at keypoint_vec (m_cid ms) fid = Ok dist_ip
                 ∧ cam_params_of cam_params cams (m_cid ms) = Ok cp
                 ∧ m_pix ms = (Fp.sub dist_ip.1 (GetOpticalOffset cp).1,
                               Fp.sub dist_ip.2 (GetOpticalOffset cp).2))
          (filter (λ pid_track, more_than_two_inliers mask pid_track)
                  (indexed pid_to_cid_fid))
          (nvm_points file).
Proof.
  unfold writeNvm. intros Hwrite.
  do 4 (bind_inv Hwrite as u Hu; clear u Hu).
  bind_inv Hwrite as focal_lengths Hfocal.
  bind_inv Hwrite as r Hinliers. destruct r as [[[kp fc] ts] xs].
  unfold writeNvm_inliers in Hinliers.
  apply nvm_add_track_fold_inv in Hinliers as (_ & new & Hts & Hnew).
  cbn [app] in Hts. subst ts.
  apply WriteNVM_inv in Hwrite as (_ & _ & Hpoints).
  apply Forall2_same_length_lookup. apply Forall2_same_length_lookup in Hnew.
  apply Forall2_same_length_lookup in Hpoints.
  destruct Hnew as [Hlen Hnew], Hpoints as [Hlen' Hpoints].
  rewrite length_indexed in Hlen'. split; [congruence|].
  intros i [pid track] pt Hi Hpt.
  destruct (new !! i) as [nv|] eqn:Hnvi.
  2:{ apply lookup_ge_None in Hnvi. apply lookup_lt_Some in Hi. lia. }
  pose proof (Hnew i _ _ Hi Hnvi) as Hrec. cbn [fst snd] in *.
  destruct (Hpoints i (i, nv) pt) as (_ & _ & Hms); [by apply indexed_lookup|done|].
  cbn [fst snd] in Hms. intros ms Hin.
  apply list_elem_of_lookup in Hin as [j Hj].
  apply Forall2_same_length_lookup in Hms as [Hlenms Hms].
  destruct (map_items nv !! j) as [[cid k]|] eqn:Hitem.
  2:{ apply lookup_ge_None in Hitem. apply lookup_lt_Some in Hj. lia. }
  destruct (Hms j _ _ Hitem Hj) as (Hcid & Hfid & Hpix). cbn [fst snd] in *.
  apply list_elem_of_lookup_2, map_items_elem in Hitem.
  destruct (Hrec cid k Hitem)
    as (fid & dist_ip & cp & c & Htrack & Hinl & Hdist & Hcp & _ & _ & Hstored).
  cbn [fst snd] in Hstored. apply keypoint_at_take in Hpix.
  rewrite Hcid. exists fid, dist_ip, cp.
  split; [done|]. split; [done|]. split; [done|]. split; [done|].
  unfold shifted_pixel in Hstored. congruence.
Qed.

End NvmContent.

(** ** Affine transforms as twelve numbers *)

Section AffineNumbers.
Import RigCalibrator.

(** X19: twelve numbers read by [vecToAffine] give the matrix of an affine
    transform from which [affineToStr] prints the same twelve numbers, in
    the same order. *)
Theorem affineToStr_vecToAffine (vals : list double) :
  length vals = 12%nat →
  ∃ M, vecToAffine vals = Ok M ∧ affine_matrix M ∧ affineToStr M = Ok vals.
Proof.
  intros Hlen.
  do 12 (destruct vals as [|? vals]; [discriminate Hlen|]).
  destruct vals; [|discriminate Hlen].
  eexists. split; [reflexivity|]. split; [|reflexivity].
  by do 12 eexists.
Qed.

(** X20: the twelve numbers that [affineToStr] prints for the matrix of an
    affine transform are read back by [vecToAffine] as the same matrix. *)
Theorem vecToAffine_affineToStr (M : MatrixXd) :
  affine_matrix M →
  ∃ vals, affineToStr M = Ok vals ∧ length vals = 12%nat ∧ vecToAffine vals = Ok M.
Proof.
  intros (m00 & m01 & m02 & m03 & m10 & m11 & m12 & m13 & m20 & m21 & m22 & m23 & ->).
  eexists. split; [reflexivity|]. split; reflexivity.
Qed.

End AffineNumbers.

(** ** Saving the rig configuration *)

Section RigConfig.
Context `{Externals}.
Context (NO_DISTORION FISHEYE_DISTORTION RADTAN_DISTORTION : string)
        (uninit_matrix : RigCalibrator.MatrixXd).
Import RigCalibrator.

Lemma write_sensor_inv (model_rig : bool) (cam_names : list string)
    (cam_params : list CameraParameters) (ref_to_cam_trans depth_to_image : list MatrixXd)
    (offsets : list double) (f f' : list ConfigLine) (cam_type : nat) :
  write_sensor NO_DISTORION FISHEYE_DISTORTION RADTAN_DISTORTION uninit_matrix
    model_rig cam_names cam_params ref_to_cam_trans depth_to_image offsets f cam_type
    = Ok f' →
  length f' = (length f + 12)%nat
  ∧ ∃ cp, cam_params !! cam_type = Some cp
          ∧ (length (GetDistortion cp) = 1
             ∨ 4 ≤ length (GetDistortion cp) ≤ 5)%nat.
Proof.
  unfold write_sensor. intros Hw.
  bind_inv Hw as name Hname. bind_inv Hw as cp Hcp. apply vec_at_nat in Hcp.
  bind_inv Hw as f1 Htype.
  assert (length f1 = (length f + 7)%nat
          ∧ (length (GetDistortion cp) = 1 ∨ 4 ≤ length (GetDistortion cp) ≤ 5)%nat)
    as [Hlen Hsize].
  { destruct (Nat.eqb_spec (length (GetDistortion cp)) 0) as [H0|H0].
    - rewrite H0 in Htype. done.
    - destruct (Nat.eqb_spec (length (GetDistortion cp)) 1) as [H1|H1].
      + injection Htype as <-. rewrite !length_app. cbn. lia.
      + destruct (Nat.leb_spec 4 (length (GetDistortion cp)));
          destruct (Nat.leb_spec (length (GetDistortion cp)) 5);
          cbn [andb] in Htype; try done.
        injection Htype as <-. rewrite !length_app. cbn. lia. }
  bind_inv Hw as T Ht. bind_inv Hw as vals Hvals.
  bind_inv Hw as T' Ht'. bind_inv Hw as vals' Hvals'.
  bind_inv Hw as offset Hoffset. injection Hw as <-.
  split; [|by exists cp]. rewrite !length_app. cbn. lia.
Qed.

Lemma write_sensors_inv (model_rig : bool) (cam_names : list string)
    (cam_params : list CameraParameters) (ref_to_cam_trans depth_to_image : list MatrixXd)
    (offsets : list double) (l : list nat) (f f' : list ConfigLine) :
  foldM (write_sensor NO_DISTORION FISHEYE_DISTORTION RADTAN_DISTORTION uninit_matrix
           model_rig cam_names cam_params ref_to_cam_trans depth_to_image offsets)
        f l = Ok f' →
  length f' = (length f + 12 * length l)%nat
  ∧ ∀ cam_type, cam_type ∈ l →
      ∃ cp, cam_params !! cam_type = Some cp
            ∧ (length (GetDistortion cp) = 1
               ∨ 4 ≤ length (GetDistortion cp) ≤ 5)%nat.
Proof.
  revert f. induction l as [|k l IH]; intros f Hfold.
  - injection Hfold as <-. split; [cbn; lia|]. intros k Hk.
    by apply elem_of_nil in Hk.
  - cbn [foldM] in Hfold. bind_inv Hfold as f1 Hstep.
    apply write_sensor_inv in Hstep as [Hlen1 Hcp].
    destruct (IH _ Hfold) as [Hlen Hall]. split; [cbn [length]; lia|].
    intros k' Hk'. apply elem_of_cons in Hk' as [->|Hk']; [done|by apply Hall].
Qed.

(** X21: when [writeRigConfig] returns, the reference sensor is sensor 0,
    the file could be opened, and every sensor has 1, 4 or 5 distortion
    coefficients: a sensor with none makes it abort, after the line naming
    its distortion type, although the message lists 0 among the numbers
    expected.  The file holds one line for the reference sensor and twelve
    lines per sensor. *)
Theorem writeRigConfig_spec (file_is_open model_rig : bool) (ref_cam_type : Z)
    (cam_names : list string) (cam_params : list CameraParameters)
    (ref_to_cam_trans depth_to_image : list MatrixXd) (offsets : list double)
    (f : list ConfigLine) :
  writeRigConfig NO_DISTORION FISHEYE_DISTORTION RADTAN_DISTORTION uninit_matrix
    file_is_open model_rig ref_cam_type cam_names cam_params ref_to_cam_trans
    depth_to_image offsets = Ok f →
  ref_cam_type = 0 ∧ file_is_open = true
  ∧ Forall (λ cp, (length (GetDistortion cp) = 1
                   ∨ 4 ≤ length (GetDistortion cp) ≤ 5)%nat) cam_params
  ∧ length f = (1 + 12 * length cam_params)%nat.
Proof.
  unfold writeRigConfig. intros Hw.
  bind_inv Hw as u1 Href. destruct (Z.eqb_spec ref_cam_type 0) as [->|]; [|done].
  bind_inv Hw as u2 Hopen. destruct file_is_open; [|done].
  cbn [Z.to_nat] in Hw. rewrite Nat.sub_0_r in Hw.
  apply write_sensors_inv in Hw as [Hlen Hall].
  rewrite length_seq in Hlen. cbn [length] in Hlen.
  split; [done|]. split; [done|]. split; [|lia].
  apply Forall_forall. intros cp Hin.
  apply list_elem_of_lookup in Hin as [k Hk].
  destruct (Hall k) as (cp' & Hcp' & Hsize).
  { apply elem_of_seq. apply lookup_lt_Some in Hk. lia. }
  congruence.
Qed.

End RigConfig.

(** ** The pairs of images that are matched *)

Section ImagePairs.

Lemma size_t_wrap_small (n : Z) : 0 ≤ n < 2 ^ 64 → InterestPoint.size_t_wrap n = n.
Proof. intros Hn. unfold InterestPoint.size_t_wrap. by apply Z.mod_small. Qed.

Lemma int_wrap_small (n : Z) : 0 ≤ n < 2 ^ 31 → InterestPoint.int_wrap n = n.
Proof.
  intros Hn. unfold InterestPoint.int_wrap. rewrite Z.mod_small; lia.
Qed.

Lemma image_pairs_elem (num_cams : nat) (num_overlaps i j : Z) :
  0 ≤ num_overlaps → Z.of_nat num_cams + num_overlaps ≤ Fp.int_max →
  (i, j) ∈ InterestPoint.image_pairs num_cams num_overlaps
  ↔ 0 ≤ i ∧ i < j ∧ j < Z.of_nat num_cams ∧ j ≤ i + num_overlaps.
Proof.
  intros Hk Hmax. unfold Fp.int_max in Hmax.
  unfold InterestPoint.image_pairs.
  rewrite list_elem_of_In, in_flat_map. setoid_rewrite in_seq.
  setoid_rewrite <- list_elem_of_In. setoid_rewrite list_elem_of_fmap.
  setoid_rewrite elem_of_seqZ.
  assert (∀ it1 : nat, (it1 < num_cams)%nat →
            InterestPoint.size_t_wrap
              (InterestPoint.size_t_wrap (Z.of_nat it1 + InterestPoint.size_t_wrap num_overlaps) + 1)
            = Z.of_nat it1 + num_overlaps + 1) as Hbound.
  { intros it1 Hit1. rewrite (size_t_wrap_small num_overlaps) by lia.
    rewrite (size_t_wrap_small (Z.of_nat it1 + num_overlaps)) by lia.
    apply size_t_wrap_small. lia. }
  split.
  - intros (it1 & [_ Hit1] & it2 & [= -> ->] & Hit2). cbn in Hit1.
    rewrite Hbound in Hit2 by done.
    rewrite !int_wrap_small by lia. lia.
  - intros (Hi & Hij & Hjn & Hjk). exists (Z.to_nat i). split; [lia|].
    exists j. rewrite Hbound by lia. rewrite !int_wrap_small by lia.
    split; [f_equal; lia|]. lia.
Qed.

(** X22: for a non-negative [num_overlaps] (and sizes that fit an [int]),
    the pairs of images that [detectMatchFeatures] matches are the pairs
    (i, j) of images with i < j <= i + num_overlaps, and they are the pairs
    for which the tool's [saveInlinerMatchPairs] keeps matches. *)
Theorem image_pairs_spec (num_cams : nat) (num_overlaps i j : Z) :
  0 ≤ num_overlaps → Z.of_nat num_cams + num_overlaps ≤ Fp.int_max →
  ((i, j) ∈ InterestPoint.image_pairs num_cams num_overlaps
   ↔ 0 ≤ i ∧ i < j ∧ j < Z.of_nat num_cams ∧ j ≤ i + num_overlaps)
  ∧ (0 ≤ i → j < Z.of_nat num_cams →
     ((i, j) ∈ InterestPoint.image_pairs num_cams num_overlaps
      ↔ RigCalibrator.is_good num_overlaps i j = Ok true)).
Proof.
  intros Hk Hmax. split; [by apply image_pairs_elem|].
  intros Hi Hj. rewrite image_pairs_elem by done.
  unfold Fp.int_max in Hmax.
  unfold RigCalibrator.is_good, InterestPoint.int_add, Fp.int_min, Fp.int_max.
  destruct (Z.ltb_spec i j) as [Hij|Hij].
  - replace ((- 2 ^ 31 <=? i + num_overlaps) && (i + num_overlaps <=? 2 ^ 31 - 1))
      with true by (symmetry; apply andb_true_intro; split; apply Z.leb_le; lia).
    cbn [mbind Result_bind].
    replace ((- 2 ^ 31 <=? i + num_overlaps + 1) && (i + num_overlaps + 1 <=? 2 ^ 31 - 1))
      with true by (symmetry; apply andb_true_intro; split; apply Z.leb_le; lia).
    cbn [mbind Result_bind].
    destruct (Z.ltb_spec j (i + num_overlaps + 1)); split; try done; lia.
  - split; [lia|done].
Qed.

End ImagePairs.

(** ** Triangulating all the tracks of a map *)

Section TriangulateTracks.
Context `{Externals}.
Context (tri_minDepth : list (double * Affine3d * Vector2d) → double).
Import InterestPoint.

Lemma Triangulate_tracks_from (rm_invalid_xyz : bool) (focal_length : double)
    (cid_to_cam_t_global : list Affine3d) (cid_to_keypoint_map : list (list Vector2d))
    (pre post tracks' : list (gmap Z Z)) (pre_x post_x xyzs' : list Vector3d) :
  length pre_x = length pre →
  foldM (λ '(pid_to_cid_fid, pid_to_xyz) pid,
           vec_at_checked pid_to_cid_fid (Z.of_nat pid) ≫= λ track,
           track_rays focal_length cid_to_cam_t_global cid_to_keypoint_map track
             ≫= λ rays,
           let solution := tri_compute rays in
           if rm_invalid_xyz
              && (Fp.isnan solution.1.1 || Fp.ltb (tri_minDepth rays) (Fp.of_int 0))
           then Ok (delete pid pid_to_cid_fid, delete pid pid_to_xyz)
           else
             vec_set_checked pid_to_xyz (Z.of_nat pid) solution ≫= λ pid_to_xyz,
             Ok (pid_to_cid_fid, pid_to_xyz))
        (pre ++ post, pre_x ++ post_x) (reverse (seq 0 (length pre)))
    = Ok (tracks', xyzs') →
  ∃ rays_of,
    Forall2 (λ track rays,
               track_rays focal_length cid_to_cam_t_global cid_to_keypoint_map track
               = Ok rays) pre rays_of
    ∧ tracks' = (kept_tracks tri_minDepth rm_invalid_xyz (zip pre rays_of)).*1 ++ post
    ∧ xyzs' = map (λ tr, tri_compute tr.2)
                  (kept_tracks tri_minDepth rm_invalid_xyz (zip pre rays_of)) ++ post_x.
Proof.
  revert pre_x post post_x.
  induction pre as [|t pre0 IH] using rev_ind; intros pre_x post post_x Hlen Hfold.
  - destruct pre_x; [|done]. injection Hfold as <- <-. exists []. by split.
  - rewrite length_app in Hlen, Hfold. cbn [length] in Hlen, Hfold.
    rewrite Nat.add_1_r in Hlen, Hfold. rewrite seq_S, reverse_snoc in Hfold.
    cbn [foldM plus] in Hfold.
    destruct pre_x as [|x pre_x0 _] using rev_ind; [done|].
    rewrite length_app in Hlen. cbn [length] in Hlen.
    assert (length pre_x0 = length pre0) as Hlen0 by lia. clear Hlen.
    bind_inv Hfold as st Hstep. bind_inv Hstep as track Htrack.
    assert (track = t) as ->.
    { unfold vec_at_checked in Htrack.
      destruct (Z.ltb_spec (Z.of_nat (length pre0)) 0); [lia|].
      rewrite Nat2Z.id, <- app_assoc in Htrack. cbn [app] in Htrack.
      rewrite list_lookup_middle in Htrack by done. by injection Htrack. }
    bind_inv Hstep as rays Hrays. cbn zeta in Hstep.
    fold (invalid_solution tri_minDepth rm_invalid_xyz rays) in Hstep.
    destruct (invalid_solution tri_minDepth rm_invalid_xyz rays) eqn:Hinvalid.
    + injection Hstep as <-.
      rewrite <- !app_assoc in Hfold. cbn [app] in Hfold.
      rewrite delete_middle in Hfold.
      rewrite <- Hlen0, delete_middle in Hfold. rewrite Hlen0 in Hfold.
      destruct (IH _ _ _ Hlen0 Hfold) as (rays_of & Hall & -> & ->).
      exists (rays_of ++ [rays]). split; [by apply Forall2_app; [|constructor]|].
      unfold kept_tracks.
      rewrite zip_with_app by (by eapply Forall2_length).
      rewrite filter_app. cbn [zip_with]. rewrite filter_cons, filter_nil. cbn [snd].
      rewrite decide_False by (by rewrite Hinvalid). by rewrite !app_nil_r.
    + bind_inv Hstep as xyz1 Hset. injection Hstep as <-.
      assert (xyz1 = pre_x0 ++ tri_compute rays :: post_x) as ->.
      { unfold vec_set_checked in Hset.
        destruct (Z.ltb_spec (Z.of_nat (length pre0)) 0); [lia|].
        destruct (_ <? _)%nat; [|done]. injection Hset as <-.
        rewrite Nat2Z.id, <- app_assoc, <- Hlen0. cbn [app].
        replace (length pre_x0) with (length pre_x0 + 0)%nat at 1 by lia.
        by rewrite insert_app_r. }
      rewrite <- app_assoc in Hfold. cbn [app] in Hfold.
      destruct (IH _ _ _ Hlen0 Hfold) as (rays_of & Hall & -> & ->).
      exists (rays_of ++ [rays]). split; [by apply Forall2_app; [|constructor]|].
      unfold kept_tracks.
      rewrite zip_with_app by (by eapply Forall2_length).
      rewrite filter_app. cbn [zip_with]. rewrite filter_cons, filter_nil. cbn [snd].
      rewrite decide_True by done.
      rewrite fmap_app, map_app, <- !app_assoc. done.
Qed.

(** X23: [Triangulate] over the tracks of a map returns, in their order,
    the tracks it keeps and the point triangulated for each of them: with
    [rm_invalid_xyz] it erases the tracks for which the first coordinate of
    the point is NaN or the least depth is negative, and only those;
    without, it keeps every track. *)
Theorem Triangulate_tracks_spec (rm_invalid_xyz : bool) (focal_length : double)
    (cid_to_cam_t_global : list Affine3d) (cid_to_keypoint_map : list (list Vector2d))
    (pid_to_cid_fid tracks' : list (gmap Z Z)) (pid_to_xyz xyzs' : list Vector3d) :
  Triangulate_tracks tri_minDepth rm_invalid_xyz focal_length cid_to_cam_t_global
    cid_to_keypoint_map pid_to_cid_fid pid_to_xyz = Ok (tracks', xyzs') →
  ∃ rays_of,
    Forall2 (λ track rays,
               track_rays focal_length cid_to_cam_t_global cid_to_keypoint_map track
               = Ok rays) pid_to_cid_fid rays_of
    ∧ tracks'
      = (kept_tracks tri_minDepth rm_invalid_xyz (zip pid_to_cid_fid rays_of)).*1
    ∧ xyzs' = map (λ tr, tri_compute tr.2)
                  (kept_tracks tri_minDepth rm_invalid_xyz (zip pid_to_cid_fid rays_of))
    ∧ (rm_invalid_xyz = false → tracks' = pid_to_cid_fid).
Proof.
  unfold Triangulate_tracks. intros Hrun.
  pose proof (Triangulate_tracks_from rm_invalid_xyz focal_length cid_to_cam_t_global
                cid_to_keypoint_map pid_to_cid_fid [] tracks'
                (resize (length pid_to_cid_fid) uninit_xyz pid_to_xyz) [] xyzs'
                (length_resize _ _ _)) as Hfrom.
  rewrite !app_nil_r in Hfrom.
  destruct (Hfrom Hrun) as (rays_of & Hall & Htracks & Hxyz).
  rewrite app_nil_r in Htracks, Hxyz.
  exists rays_of. split; [done|]. split; [done|]. split; [done|].
  intros ->. subst tracks'. unfold kept_tracks, invalid_solution. cbn [andb].
  apply Forall2_length in Hall. clear -Hall. revert rays_of Hall.
  induction pid_to_cid_fid as [|t l IH]; intros [|r rs] Hlen; try done.
  cbn [zip_with]. rewrite filter_cons_True by done.
  cbn [fmap list_fmap fst]. f_equal. apply IH. by injection Hlen.
Qed.

End TriangulateTracks.

(** ** Intersections with the mesh *)

Section MeshTriangulations.
Context `{Externals}.
Context (ray_mesh_intersect : Vector2d → CameraParameters → Affine3d → bool * Vector3d)
        (vec3_add : Vector3d → Vector3d → Vector3d)
        (vec3_div : Vector3d → Z → Vector3d).
Import RigCalibrator.

#[local] Instance mesh_agree_refl (pid : nat) : Reflexive (mesh_agree pid).
Proof. intros s. split; [reflexivity|done]. Qed.

#[local] Instance mesh_agree_trans (pid : nat) : Transitive (mesh_agree pid).
Proof.
  intros s1 s2 s3 (Hm & Hx & Hl) (Hm' & Hx' & Hl').
  split; [by transitivity s2.1|]. split; congruence.
Qed.

Lemma assignMapValue_at_lookup3 {T} (m m' : PidCidFid T) (pid : nat) (cid fid : Z)
    (val : T) :
  assignMapValue_at m pid cid fid val = Ok m' →
  ∀ p c f, lookup3 m' p c f =
           if decide (p = pid ∧ c = cid ∧ f = fid) then Some val
           else lookup3 m p c f.
Proof.
  unfold assignMapValue_at. intros Hassign.
  destruct (m !! pid) as [cm|] eqn:Hcm; [|done].
  injection Hassign as <-. intros p c f. by apply lookup3_insert.
Qed.

Lemma int_add_Ok (a b c : Z) : InterestPoint.int_add a b = Ok c → c = a + b.
Proof.
  unfold InterestPoint.int_add. destruct (_ && _); [|done]. by intros [= <-].
Qed.

Lemma mesh_step_inv cam_params cams world_to_cam (mask : PidCidFid Z) keypoint_vec
    (bad_xyz : Vector3d) (pid : nat) (mm mm' : PidCidFid Vector3d)
    (avg avg' : Vector3d) (num num' : Z) (cid fid : Z) :
  mesh_step ray_mesh_intersect vec3_add cam_params cams world_to_cam mask
    keypoint_vec bad_xyz pid (mm, avg, num) (cid, fid) = Ok (mm', avg', num') →
  let hit := mesh_hit ray_mesh_intersect cam_params cams world_to_cam mask
               keypoint_vec pid (cid, fid) in
  (∀ p c f, ¬ (p = pid ∧ c = cid ∧ f = fid) → lookup3 mm' p c f = lookup3 mm p c f)
  ∧ lookup3 mm' pid cid fid = Some (default bad_xyz hit)
  ∧ avg' = from_option (vec3_add avg) avg hit
  ∧ num' = num + from_option (λ _, 1) 0 hit.
Proof.
  intros Hstep. cbn zeta. cbn [mesh_step] in Hstep.
  bind_inv Hstep as mm1 Hassign.
  pose proof (assignMapValue_at_lookup3 _ _ _ _ _ _ Hassign) as Hmm1.
  bind_inv Hstep as inlier Hget.
  unfold mesh_hit. cbn [fst snd]. rewrite (is_inlier_get _ _ _ _ _ Hget).
  destruct (Z.eqb_spec inlier 0) as [->|Hnz]; cbn [negb].
  { injection Hstep as <- <- <-. cbn. split; [|split; [|split; [done|lia]]].
    - intros p c f Hne. rewrite Hmm1. by rewrite decide_False.
    - rewrite Hmm1. by rewrite decide_True. }
  bind_inv Hstep as dist_ip Hkp. bind_inv Hstep as cp Hcp. bind_inv Hstep as w Hw.
  rewrite Hkp, Hcp, Hw.
  destruct (ray_mesh_intersect dist_ip cp w) as [have mesh_xyz]. cbn [fst snd].
  destruct have.
  - bind_inv Hstep as mm2 Hassign2.
    pose proof (assignMapValue_at_lookup3 _ _ _ _ _ _ Hassign2) as Hmm2.
    bind_inv Hstep as num2 Hnum. apply int_add_Ok in Hnum as ->.
    injection Hstep as <- <- <-. cbn. split; [|split; [|done]].
    + intros p c f Hne. rewrite Hmm2, decide_False by done.
      rewrite Hmm1. by rewrite decide_False.
    + rewrite Hmm2. by rewrite decide_True.
  - injection Hstep as <- <- <-. cbn. split; [|split; [|split; [done|lia]]].
    + intros p c f Hne. rewrite Hmm1. by rewrite decide_False.
    + rewrite Hmm1. by rewrite decide_True.
Qed.

Lemma mesh_fold_inv cam_params cams world_to_cam (mask : PidCidFid Z) keypoint_vec
    (bad_xyz : Vector3d) (pid : nat) (items : list (Z * Z))
    (mm mm' : PidCidFid Vector3d) (avg avg' : Vector3d) (num num' : Z) :
  foldM (mesh_step ray_mesh_intersect vec3_add cam_params cams world_to_cam mask
           keypoint_vec bad_xyz pid) (mm, avg, num) items = Ok (mm', avg', num') →
  NoDup items.*1 →
  let hits := omap (mesh_hit ray_mesh_intersect cam_params cams world_to_cam mask
                      keypoint_vec pid) items in
  (∀ p c f, p ≠ pid ∨ c ∉ items.*1 → lookup3 mm' p c f = lookup3 mm p c f)
  ∧ (∀ cid fid, (cid, fid) ∈ items →
       lookup3 mm' pid cid fid
       = Some (default bad_xyz
                 (mesh_hit ray_mesh_intersect cam_params cams world_to_cam mask
                    keypoint_vec pid (cid, fid))))
  ∧ avg' = foldl vec3_add avg hits
  ∧ num' = num + Z.of_nat (length hits).
Proof.
  revert mm avg num. induction items as [|[cid fid] items IH];
    intros mm avg num Hfold Hnd; cbn zeta.
  - injection Hfold as <- <- <-. split; [done|]. split.
    + intros c f Hin. by apply elem_of_nil in Hin.
    + cbn. split; [done|lia].
  - cbn [foldM] in Hfold. bind_inv Hfold as st Hstep. destruct st as [[mm1 avg1] num1].
    cbn [fmap list_fmap fst] in Hnd. apply NoDup_cons in Hnd as [Hnin Hnd].
    apply mesh_step_inv in Hstep as (Hother1 & Hentry1 & -> & ->).
    destruct (IH _ _ _ Hfold Hnd) as (Hother & Hentry & -> & ->).
    cbn [fmap list_fmap fst omap list_omap]. split; [|split; [|split]].
    + intros p c f Hne. rewrite Hother.
      * apply Hother1. intros (-> & -> & ->). destruct Hne as [?|Hc]; [done|].
        apply Hc. constructor.
      * destruct Hne as [?|Hc]; [by left|]. right. intros Hin. apply Hc.
        by constructor.
    + intros c f Hin. apply elem_of_cons in Hin as [[= -> ->]|Hin].
      * rewrite Hother by (by right). exact Hentry1.
      * by apply Hentry.
    + by destruct (mesh_hit _ _ _ _ _ _ _ _).
    + destruct (mesh_hit _ _ _ _ _ _ _ _); cbn [from_option length]; lia.
Qed.

(** X24: when [meshTriangulations] returns, every feature of every track has
    an entry in [pid_cid_fid_mesh_xyz]: the point where its ray meets the
    mesh when the feature is an inlier and the ray meets the mesh, [bad_xyz]
    otherwise.  The point of a track in [pid_mesh_xyz] is [bad_xyz] when no
    ray of the track meets the mesh, and otherwise the sum of the meeting
    points, added in the order of the images starting from (0, 0, 0),
    divided by their number. *)
Theorem meshTriangulations_spec cam_params cams world_to_cam
    (pid_to_cid_fid : list (gmap Z Z)) (mask : PidCidFid Z) keypoint_vec
    (bad_xyz : Vector3d) (mm_in mm : PidCidFid Vector3d)
    (pm_in pm : list Vector3d) (pid : nat) (track : gmap Z Z) :
  meshTriangulations ray_mesh_intersect vec3_add vec3_div cam_params cams
    world_to_cam pid_to_cid_fid mask keypoint_vec bad_xyz mm_in pm_in = Ok (mm, pm) →
  pid_to_cid_fid !! pid = Some track →
  let hit := mesh_hit ray_mesh_intersect cam_params cams world_to_cam mask
               keypoint_vec pid in
  let hits := omap hit (map_items track) in
  (∀ cid fid, track !! cid = Some fid →
     lookup3 mm pid cid fid = Some (default bad_xyz (hit (cid, fid))))
  ∧ pm !! pid = Some (if decide (hits = []) then bad_xyz
                      else vec3_div (foldl vec3_add zero3 hits)
                             (Z.of_nat (length hits))).
Proof.
  intros Hrun Htrack. cbn zeta. unfold meshTriangulations in Hrun.
  apply (foldM_split (mesh_agree pid) _ (pid, track)) in Hrun
    as ([mm1 pm1] & [mm2 pm2] & (_ & _ & Hl1) & Hstep & (Hm2 & Hx2 & _)).
  - cbn [fst snd] in *. bind_inv Hstep as st Hfold. destruct st as [[mm3 avg] num].
    bind_inv Hstep as pm3 Hset. injection Hstep as <- <-.
    apply mesh_fold_inv in Hfold as (_ & Hentry & -> & ->);
      [|apply map_items_NoDup].
    apply vec_set_Ok_inv in Hset as (_ & Hlt & ->). rewrite Nat2Z.id in *. split.
    + intros cid fid Hfid. rewrite (Hm2 pid cid fid) by done.
      apply Hentry. by apply map_items_elem.
    + rewrite Hx2, list_lookup_insert_eq by done. f_equal.
      destruct (omap _ (map_items track)) as [|x hits]; [done|].
      rewrite decide_False by done. cbn [length].
      replace (1 <=? 0 + Z.of_nat (S (length hits))) with true; [done|].
      symmetry. apply Z.leb_le. lia.
  - apply NoDup_indexed.
  - by apply indexed_elem.
  - intros [mm1 pm1] [p t] [mm2 pm2] Hin Hne Hstep.
    assert (p ≠ pid) as Hp.
    { eapply indexed_other; [|done|done]. by apply indexed_elem. }
    bind_inv Hstep as st Hfold. destruct st as [[mm3 avg] num].
    bind_inv Hstep as pm3 Hset. injection Hstep as <- <-.
    apply mesh_fold_inv in Hfold as (Hother & _); [|apply map_items_NoDup].
    apply vec_set_Ok_inv in Hset as (_ & Hlt & ->). rewrite Nat2Z.id in *.
    split; [|split].
    + intros p' c f ->. cbn [fst]. apply Hother. by left.
    + by apply list_lookup_insert_ne.
    + apply length_insert.
Qed.

End MeshTriangulations.

(** ** The matches saved between inliers *)

Section SavedMatches.
Import InterestPoint.

Lemma foldM_invariant_preserves {A S} (P : S → Prop) (Q : S → S → Prop)
    `{!Reflexive Q} `{!Transitive Q} (f : S → A → Result S) (l : list A) :
  (∀ s b s', b ∈ l → P s → f s b = Ok s' → P s' ∧ Q s s') →
  ∀ s s', P s → foldM f s l = Ok s' → P s' ∧ Q s s'.
Proof.
  induction l as [|b l IH]; intros HQ s s' Hs Hfold.
  - injection Hfold as <-. split; [done|reflexivity].
  - cbn [foldM] in Hfold. bind_inv Hfold as s1 Hs1.
    destruct (HQ s b s1 ltac:(constructor) Hs Hs1) as [HP1 HQ1].
    destruct (IH ltac:(intros ? ? ? Hb; apply HQ; by constructor) _ _ HP1 Hfold)
      as [HP' HQ'].
    split; [done|by transitivity s1].
Qed.

Lemma foldM_visit_inv {A S} (P : S → Prop) (Q : S → S → Prop)
    `{!Reflexive Q} `{!Transitive Q} (f : S → A → Result S) (a : A) (l : list A) :
  a ∈ l →
  (∀ s b s', b ∈ l → P s → f s b = Ok s' → P s' ∧ Q s s') →
  ∀ s s', P s → foldM f s l = Ok s' →
  ∃ s1 s2, P s1 ∧ Q s s1 ∧ f s1 a = Ok s2 ∧ Q s2 s'.
Proof.
  induction l as [|b l IH]; intros Hin HQ s s' Hs Hfold.
  - by apply elem_of_nil in Hin.
  - cbn [foldM] in Hfold. bind_inv Hfold as s1 Hs1.
    destruct (HQ s b s1 ltac:(constructor) Hs Hs1) as [HP1 HQ1].
    apply elem_of_cons in Hin as [->|Hin].
    + exists s, s1. split; [done|]. split; [reflexivity|]. split; [done|].
      eapply (foldM_invariant_preserves P Q); [|exact HP1|exact Hfold].
      intros ? ? ? Hb. apply HQ. by constructor.
    + edestruct IH as (t1 & t2 & HP & H1 & H2 & H3); [done| |exact HP1|done|].
      { intros ? ? ? Hb. apply HQ. by constructor. }
      exists t1, t2. split; [done|]. split; [by transitivity s1|done].
Qed.

#[local] Instance matches_grow_refl : Reflexive matches_grow.
Proof. intros m key l r Hm. exists [], []. by rewrite !app_nil_r. Qed.

#[local] Instance matches_grow_trans : Transitive matches_grow.
Proof.
  intros m1 m2 m3 H12 H23 key l r Hm.
  destruct (H12 _ _ _ Hm) as (l2 & r2 & Hm2).
  destruct (H23 _ _ _ Hm2) as (l3 & r3 & Hm3).
  exists (l2 ++ l3), (r2 ++ r3). by rewrite !app_assoc.
Qed.

(** What one step of the innermost loop does. *)
Lemma add_match_inv (is_good : Z → Z → Result bool) keypoint_vec (mask : PidCidFid Z)
    (pid : nat) (cid1 fid1 cid2 fid2 : Z) (m m' : MATCH_MAP) :
  add_match is_good keypoint_vec mask pid (cid1, fid1) m (cid2, fid2) = Ok m' →
  ∃ good, is_good cid1 cid2 = Ok good
    ∧ if good && is_inlier mask pid (cid1, fid1) && is_inlier mask pid (cid2, fid2)
      then ∃ ip1 ip2,
             feature_match keypoint_vec mask pid cid1 fid1 cid2 fid2 ip1 ip2
             ∧ m' = <[(cid1, cid2) :=
                       ((default ([], []) (m !! (cid1, cid2))).1 ++ [ip1],
                        (default ([], []) (m !! (cid1, cid2))).2 ++ [ip2])]> m
      else m' = m.
Proof.
  intros Hadd. cbn [add_match] in Hadd. bind_inv Hadd as good Hgood.
  exists good. split; [done|]. destruct good; cbn [negb andb] in *; [|by injection Hadd].
  bind_inv Hadd as inlier1 Hget1. rewrite (is_inlier_get _ _ _ _ _ Hget1).
  destruct (Z.eqb_spec inlier1 0) as [->|Hnz1]; cbn [negb andb].
  { cbn in Hadd. by injection Hadd. }
  bind_inv Hadd as skip Hskip. bind_inv Hskip as inlier2 Hget2.
  injection Hskip as <-. rewrite (is_inlier_get _ _ _ _ _ Hget2).
  destruct (Z.eqb_spec inlier2 0) as [->|Hnz2]; cbn [negb]; [by injection Hadd|].
  bind_inv Hadd as kp1 Hkp1. bind_inv Hadd as ip1 Hip1.
  bind_inv Hadd as kp2 Hkp2. bind_inv Hadd as ip2 Hip2.
  injection Hadd as <-. exists ip1, ip2. split; [|done].
  split; [|split].
  - rewrite (is_inlier_get _ _ _ _ _ Hget1). by destruct (Z.eqb_spec inlier1 0).
  - rewrite (is_inlier_get _ _ _ _ _ Hget2). by destruct (Z.eqb_spec inlier2 0).
  - by exists kp1, kp2.
Qed.

Lemma add_match_step (is_good : Z → Z → Result bool)
    (pid_to_cid_fid : list (gmap Z Z)) keypoint_vec (mask : PidCidFid Z)
    (pid : nat) (track : gmap Z Z) (cid1 fid1 cid2 fid2 : Z) (m m' : MATCH_MAP) :
  pid_to_cid_fid !! pid = Some track →
  track !! cid1 = Some fid1 → track !! cid2 = Some fid2 →
  matches_sound is_good pid_to_cid_fid keypoint_vec mask m →
  add_match is_good keypoint_vec mask pid (cid1, fid1) m (cid2, fid2) = Ok m' →
  matches_sound is_good pid_to_cid_fid keypoint_vec mask m' ∧ matches_grow m m'.
Proof.
  intros Htrack Hf1 Hf2 Hsound Hadd.
  apply add_match_inv in Hadd as (good & Hgood & Hcase).
  destruct (good && _ && _) eqn:Hcond; [|subst m'; split; [done|reflexivity]].
  unfold matches_sound, matches_grow, MATCH_MAP, MATCH_PAIR in *.
  apply andb_prop in Hcond as [Hcond _]. apply andb_prop in Hcond as [-> _].
  destruct Hcase as (ip1 & ip2 & Hmatch & ->).
  set (old := default ([], []) (m !! (cid1, cid2))).
  assert (length old.1 = length old.2
          ∧ ∀ (i : nat) p1 p2, old.1 !! i = Some p1 → old.2 !! i = Some p2 →
              ∃ pid track fid1 fid2,
                pid_to_cid_fid !! pid = Some track
                ∧ track !! cid1 = Some fid1 ∧ track !! cid2 = Some fid2
                ∧ feature_match keypoint_vec mask pid cid1 fid1 cid2 fid2 p1 p2)
    as [Hlen Hold].
  { unfold old. destruct (m !! (cid1, cid2)) as [[l r]|] eqn:Hm; cbn [default fst snd].
    - by destruct (Hsound _ _ _ _ Hm) as (_ & ? & _ & ?).
    - split; [done|]. intros i p1 p2 Hp1. by rewrite lookup_nil in Hp1. }
  split.
  - intros c1 c2 l r Hm'. destruct (decide ((c1, c2) = (cid1, cid2))) as [[= -> ->]|Hne].
    + rewrite lookup_insert_eq in Hm'. injection Hm' as <- <-.
      split; [done|]. split; [rewrite !length_app; cbn; lia|].
      split; [by destruct old.1|]. intros i p1 p2 Hp1 Hp2.
      destruct (decide (i < length old.1)%nat) as [Hi|Hi].
      * rewrite lookup_app_l in Hp1 by done. rewrite lookup_app_l in Hp2 by lia.
        by eapply Hold.
      * rewrite lookup_app_r in Hp1 by lia. rewrite lookup_app_r in Hp2 by lia.
        rewrite <- Hlen in Hp2.
        destruct (i - length old.1)%nat; [|done]. cbn in Hp1, Hp2.
        injection Hp1 as <-. injection Hp2 as <-. by exists pid, track, fid1, fid2.
    + rewrite lookup_insert_ne in Hm' by done. by apply Hsound.
  - intros key l r Hm. destruct (decide (key = (cid1, cid2))) as [->|Hne].
    + rewrite lookup_insert_eq. unfold old. rewrite Hm. cbn. by eexists _, _.
    + rewrite lookup_insert_ne by done. exists [], []. by rewrite !app_nil_r.
Qed.

Lemma track_loops_step (is_good : Z → Z → Result bool)
    (pid_to_cid_fid : list (gmap Z Z)) keypoint_vec (mask : PidCidFid Z)
    (pid : nat) (track : gmap Z Z) (cid1 fid1 : Z) (m m' : MATCH_MAP) :
  pid_to_cid_fid !! pid = Some track → track !! cid1 = Some fid1 →
  matches_sound is_good pid_to_cid_fid keypoint_vec mask m →
  foldM (add_match is_good keypoint_vec mask pid (cid1, fid1)) m (map_items track)
    = Ok m' →
  matches_sound is_good pid_to_cid_fid keypoint_vec mask m' ∧ matches_grow m m'.
Proof.
  intros Htrack Hf1 Hsound Hfold.
  eapply (foldM_invariant_preserves
            (matches_sound is_good pid_to_cid_fid keypoint_vec mask) matches_grow);
    [|exact Hsound|exact Hfold].
  intros x [cid2 fid2] y Hin Hx Hstep. apply map_items_elem in Hin.
  by apply (add_match_step _ _ _ _ pid track cid1 fid1 cid2 fid2).
Qed.

Lemma track_step (is_good : Z → Z → Result bool)
    (pid_to_cid_fid : list (gmap Z Z)) keypoint_vec (mask : PidCidFid Z)
    (pid : nat) (track : gmap Z Z) (m m' : MATCH_MAP) :
  pid_to_cid_fid !! pid = Some track →
  matches_sound is_good pid_to_cid_fid keypoint_vec mask m →
  foldM (λ matches cid_fid1,
           foldM (add_match is_good keypoint_vec mask pid cid_fid1)
                 matches (map_items track))
        m (map_items track) = Ok m' →
  matches_sound is_good pid_to_cid_fid keypoint_vec mask m' ∧ matches_grow m m'.
Proof.
  intros Htrack Hsound Hfold.
  eapply (foldM_invariant_preserves
            (matches_sound is_good pid_to_cid_fid keypoint_vec mask) matches_grow);
    [|exact Hsound|exact Hfold].
  intros x [cid1 fid1] y Hin Hx Hstep. apply map_items_elem in Hin.
  by apply (track_loops_step _ _ _ _ pid track cid1 fid1).
Qed.

Lemma matches_sound_empty (is_good : Z → Z → Result bool)
    (pid_to_cid_fid : list (gmap Z Z)) keypoint_vec (mask : PidCidFid Z) :
  matches_sound is_good pid_to_cid_fid keypoint_vec mask ∅.
Proof.
  intros c1 c2 l r Hm. unfold MATCH_MAP, MATCH_PAIR in *.
  by rewrite lookup_empty in Hm.
Qed.

Lemma gather_matches_sound (is_good : Z → Z → Result bool)
    (pid_to_cid_fid : list (gmap Z Z)) keypoint_vec (mask : PidCidFid Z)
    (m : MATCH_MAP) :
  gather_matches is_good pid_to_cid_fid keypoint_vec mask = Ok m →
  matches_sound is_good pid_to_cid_fid keypoint_vec mask m.
Proof.
  unfold gather_matches.
  apply foldM_invariant; [|apply matches_sound_empty].
  intros x [pid track] y Hin Hx Hstep. apply indexed_elem in Hin.
  by destruct (track_step _ _ _ _ pid track x y Hin Hx Hstep).
Qed.

Lemma gather_matches_complete (is_good : Z → Z → Result bool)
    (pid_to_cid_fid : list (gmap Z Z)) keypoint_vec (mask : PidCidFid Z)
    (m : MATCH_MAP) (pid : nat) (track : gmap Z Z) (cid1 fid1 cid2 fid2 : Z) :
  gather_matches is_good pid_to_cid_fid keypoint_vec mask = Ok m →
  pid_to_cid_fid !! pid = Some track →
  track !! cid1 = Some fid1 → track !! cid2 = Some fid2 →
  is_inlier mask pid (cid1, fid1) = true → is_inlier mask pid (cid2, fid2) = true →
  ∃ good, is_good cid1 cid2 = Ok good
    ∧ (good = true →
       ∃ l r (i : nat) ip1 ip2,
         m !! (cid1, cid2) = Some (l, r)
         ∧ l !! i = Some ip1 ∧ r !! i = Some ip2
         ∧ feature_match keypoint_vec mask pid cid1 fid1 cid2 fid2 ip1 ip2).
Proof.
  intros Hrun Htrack Hf1 Hf2 Hin1 Hin2. unfold gather_matches in Hrun.
  set (P := matches_sound is_good pid_to_cid_fid keypoint_vec mask).
  apply (foldM_visit_inv P matches_grow _ (pid, track)) in Hrun
    as (s1 & s2 & Hs1 & _ & Hstep & Hafter).
  2: by apply indexed_elem.
  2: { intros x [p t] y Hin Hx Hxy. apply indexed_elem in Hin.
       by apply (track_step _ _ _ _ p t). }
  2: apply matches_sound_empty.
  apply (foldM_visit_inv P matches_grow _ (cid1, fid1)) in Hstep
    as (t1 & t2 & Ht1 & _ & Hstep & Hafter1).
  2: by apply map_items_elem.
  2: { intros x [c f] y Hin Hx Hxy. apply map_items_elem in Hin.
       by apply (track_loops_step _ _ _ _ pid track c f). }
  2: done.
  apply (foldM_visit_inv P matches_grow _ (cid2, fid2)) in Hstep
    as (u1 & u2 & Hu1 & _ & Hstep & Hafter2).
  2: by apply map_items_elem.
  2: { intros x [c f] y Hin Hx Hxy. apply map_items_elem in Hin.
       by apply (add_match_step _ _ _ _ pid track cid1 fid1 c f). }
  2: done.
  apply add_match_inv in Hstep as (good & Hgood & Hcase).
  exists good. split; [done|]. intros ->. rewrite Hin1, Hin2 in Hcase.
  destruct Hcase as (ip1 & ip2 & Hmatch & Hu2).
  set (old := default ([], []) (u1 !! (cid1, cid2))) in Hu2.
  assert (length old.1 = length old.2) as Hlen.
  { unfold old. destruct (u1 !! (cid1, cid2)) as [[l r]|] eqn:Hm; [|done].
    by destruct (Hu1 _ _ _ _ Hm) as (_ & ? & _). }
  assert (matches_grow u2 m) as Hgrow.
  { transitivity t2; [done|]. by transitivity s2. }
  destruct (Hgrow (cid1, cid2) (old.1 ++ [ip1]) (old.2 ++ [ip2])) as (l' & r' & Hm).
  { subst u2. unfold MATCH_MAP, MATCH_PAIR in *. by rewrite lookup_insert_eq. }
  exists ((old.1 ++ [ip1]) ++ l'), ((old.2 ++ [ip2]) ++ r'), (length old.1), ip1, ip2.
  split; [done|]. split; [|split; [|done]].
  - rewrite <- app_assoc. cbn [app]. by apply list_lookup_middle.
  - rewrite <- app_assoc. cbn [app]. by apply list_lookup_middle.
Qed.

Lemma tool_is_good_true (num_overlaps cid1 cid2 : Z) :
  RigCalibrator.is_good num_overlaps cid1 cid2 = Ok true →
  cid1 < cid2 ∧ cid2 ≤ cid1 + num_overlaps.
Proof.
  unfold RigCalibrator.is_good. destruct (Z.ltb_spec cid1 cid2); [|done].
  intros Hgood. bind_inv Hgood as s Hs. apply int_add_Ok in Hs as ->.
  bind_inv Hgood as b Hb. apply int_add_Ok in Hb as ->.
  injection Hgood as Hlt. apply Z.ltb_lt in Hlt. lia.
Qed.

(** X25: in the matches that the tool's [saveInlinerMatchPairs] gathers,
    every pair of images (cid1, cid2) that has matches satisfies
    cid1 < cid2 <= cid1 + num_overlaps; its two vectors of interest points
    have the same, positive length, and at each index they hold the keypoints
    of two inlier features of one track, in image cid1 and in image cid2. *)
Theorem tool_saved_matches_are_between_inliers (num_overlaps : Z)
    (pid_to_cid_fid : list (gmap Z Z)) keypoint_vec (mask : PidCidFid Z)
    (m : MATCH_MAP) (cid1 cid2 : Z) (l r : list InterestPoint) :
  gather_matches (RigCalibrator.is_good num_overlaps) pid_to_cid_fid keypoint_vec mask
    = Ok m →
  m !! (cid1, cid2) = Some (l, r) →
  cid1 < cid2 ∧ cid2 ≤ cid1 + num_overlaps
  ∧ length l = length r ∧ l ≠ []
  ∧ ∀ (i : nat) ip1 ip2, l !! i = Some ip1 → r !! i = Some ip2 →
      ∃ pid track fid1 fid2,
        pid_to_cid_fid !! pid = Some track
        ∧ track !! cid1 = Some fid1 ∧ track !! cid2 = Some fid2
        ∧ feature_match keypoint_vec mask pid cid1 fid1 cid2 fid2 ip1 ip2.
Proof.
  intros Hrun Hm. apply gather_matches_sound in Hrun.
  destruct (Hrun _ _ _ _ Hm) as (Hgood & Hlen & Hne & Hall).
  apply tool_is_good_true in Hgood as [? ?]. done.
Qed.

(** X26: conversely, when the tool's [saveInlinerMatchPairs] gathers the
    matches without stopping, two inlier features of a track, in images
    cid1 < cid2 <= cid1 + num_overlaps, give a match of the pair
    (cid1, cid2): their interest points stand at the same index of the two
    vectors of the pair. *)
Theorem tool_saved_matches_have_all_inlier_pairs (num_overlaps : Z)
    (pid_to_cid_fid : list (gmap Z Z)) keypoint_vec (mask : PidCidFid Z)
    (m : MATCH_MAP) (pid : nat) (track : gmap Z Z) (cid1 fid1 cid2 fid2 : Z) :
  gather_matches (RigCalibrator.is_good num_overlaps) pid_to_cid_fid keypoint_vec mask
    = Ok m →
  pid_to_cid_fid !! pid = Some track →
  track !! cid1 = Some fid1 → track !! cid2 = Some fid2 →
  is_inlier mask pid (cid1, fid1) = true → is_inlier mask pid (cid2, fid2) = true →
  cid1 < cid2 → cid2 ≤ cid1 + num_overlaps →
  ∃ l r (i : nat) ip1 ip2,
    m !! (cid1, cid2) = Some (l, r)
    ∧ l !! i = Some ip1 ∧ r !! i = Some ip2
    ∧ feature_match keypoint_vec mask pid cid1 fid1 cid2 fid2 ip1 ip2.
Proof.
  intros Hrun Htrack Hf1 Hf2 Hin1 Hin2 Hlt Hle.
  destruct (gather_matches_complete _ _ _ _ _ _ _ _ _ _ _ Hrun Htrack Hf1 Hf2 Hin1 Hin2)
    as (good & Hgood & Hcase).
  apply Hcase. unfold RigCalibrator.is_good in Hgood.
  destruct (Z.ltb_spec cid1 cid2); [|lia].
  bind_inv Hgood as s Hs. apply int_add_Ok in Hs as ->.
  bind_inv Hgood as b Hb. apply int_add_Ok in Hb as ->.
  injection Hgood as <-. apply Z.ltb_lt. lia.
Qed.

(** X27: the copy of [saveInlinerMatchPairs] in interest_point.cc with
    [num_overlaps] equal to 0 gathers matches for a pair of images exactly
    when cid1 < cid2 and some track has an inlier feature in both, however
    far apart the images are; the copy of the tool gathers none then. *)
Theorem lib_saved_matches_without_overlaps
    (pid_to_cid_fid : list (gmap Z Z)) keypoint_vec (mask : PidCidFid Z)
    (m : MATCH_MAP) (cid1 cid2 : Z) :
  gather_matches (is_good 0) pid_to_cid_fid keypoint_vec mask = Ok m →
  (is_Some (m !! (cid1, cid2))
   ↔ cid1 < cid2
     ∧ ∃ pid track fid1 fid2,
         pid_to_cid_fid !! pid = Some track
         ∧ track !! cid1 = Some fid1 ∧ track !! cid2 = Some fid2
         ∧ is_inlier mask pid (cid1, fid1) = true
         ∧ is_inlier mask pid (cid2, fid2) = true)
  ∧ ∀ m_tool,
      gather_matches (RigCalibrator.is_good 0) pid_to_cid_fid keypoint_vec mask
        = Ok m_tool →
      m_tool = ∅.
Proof.
  intros Hrun. split; [split|].
  - intros [[l r] Hm]. pose proof (gather_matches_sound _ _ _ _ _ Hrun) as Hsound.
    destruct (Hsound _ _ _ _ Hm) as (Hgood & Hlen & Hne & Hall). split.
    + unfold is_good in Hgood. by destruct (Z.ltb_spec cid1 cid2).
    + destruct l as [|ip1 l]; [done|]. destruct r as [|ip2 r]; [done|].
      destruct (Hall 0%nat ip1 ip2 eq_refl eq_refl)
        as (pid & track & fid1 & fid2 & Ht & Hf1 & Hf2 & Hi1 & Hi2 & _).
      by exists pid, track, fid1, fid2.
  - intros (Hlt & pid & track & fid1 & fid2 & Ht & Hf1 & Hf2 & Hi1 & Hi2).
    destruct (gather_matches_complete _ _ _ _ _ _ _ _ _ _ _ Hrun Ht Hf1 Hf2 Hi1 Hi2)
      as (good & Hgood & Hcase).
    destruct Hcase as (l & r & _ & _ & _ & Hm & _); [|by eexists].
    unfold is_good in Hgood. destruct (Z.ltb_spec cid1 cid2); [|lia].
    cbn in Hgood. by injection Hgood.
  - intros m_tool Htool. apply gather_matches_sound in Htool.
    unfold matches_sound, MATCH_MAP, MATCH_PAIR in *.
    apply map_eq. intros [c1 c2]. rewrite lookup_empty.
    destruct (m_tool !! (c1, c2)) as [[l r]|] eqn:Hm; [|done].
    destruct (Htool _ _ _ _ Hm) as (Hgood & _).
    apply tool_is_good_true in Hgood. lia.
Qed.

End SavedMatches.

(** ** Where the two copies of [multiViewTriangulation] agree *)

Section TriangulationCopies.
Context `{Externals}.

(** A loop gives the same result with another body that agrees with its own
    at each state the loop goes through. *)
Lemma foldM_ext_run {A S} (f g : S → A → Result S) (l : list A) (s s' : S) :
  foldM f s l = Ok s' →
  (∀ pre a post s1 s2,
     l = pre ++ a :: post → foldM f s pre = Ok s1 → f s1 a = Ok s2 →
     foldM f s2 post = Ok s' → g s1 a = Ok s2) →
  foldM g s l = Ok s'.
Proof.
  revert s. induction l as [|a l IH]; intros s Hfold Hagree; [done|].
  cbn [foldM] in *. bind_inv Hfold as s1 Hs1.
  rewrite (Hagree [] a l s s1 eq_refl eq_refl Hs1 Hfold). cbn [mbind Result_bind].
  apply IH; [done|]. intros pre b post t1 t2 -> Hpre Hb Hpost.
  apply (Hagree (a :: pre) b post t1 t2); [done| |done|done].
  cbn [foldM]. by rewrite Hs1.
Qed.

Lemma tool_triangulate_tracks_other cam_params cams world_to_cam keypoint_vec
    (l : list (nat * gmap Z Z)) (pid : nat) (s s' : PidCidFid Z * list Vector3d) :
  pid ∉ l.*1 →
  foldM (RigCalibrator.triangulate_track cam_params cams world_to_cam keypoint_vec)
        s l = Ok s' →
  tri_agree pid s s'.
Proof.
  intros Hnin. apply (foldM_preserves (tri_agree pid)).
  intros t [p tr] t' Hin. apply tool_triangulate_track_other.
  intros ->. apply Hnin. apply list_elem_of_fmap. by exists (pid, tr).
Qed.

(** X28: the copy of [multiViewTriangulation] in rig_calibrator.cc, started
    with an empty vector of points, returns what the copy in
    interest_point.cc returns on the same input, provided none of the points
    it triangulated for a track with two inlier features or more has a NaN
    or Inf coefficient. *)
Theorem triangulation_copies_agree_on_finite_points cam_params cams world_to_cam
    (pid_to_cid_fid : list (gmap Z Z)) keypoint_vec (m m' : PidCidFid Z)
    (xyz_vec' : list Vector3d) :
  RigCalibrator.multiViewTriangulation cam_params cams world_to_cam pid_to_cid_fid
    keypoint_vec m [] = Ok (m', xyz_vec') →
  (∀ pid track xyz,
     pid_to_cid_fid !! pid = Some track →
     (2 ≤ inlier_count m pid track)%nat →
     xyz_vec' !! pid = Some xyz → InterestPoint.bad_xyz xyz = false) →
  InterestPoint.multiViewTriangulation cam_params cams world_to_cam pid_to_cid_fid
    keypoint_vec m = Ok (m', xyz_vec').
Proof.
  unfold RigCalibrator.multiViewTriangulation, InterestPoint.multiViewTriangulation.
  intros Hrun Hfinite. eapply foldM_ext_run; [exact Hrun|].
  intros pre [pid track] post [m1 x1] [m2 x2] Hsplit Hpre Hstep Hpost.
  pose proof (NoDup_indexed pid_to_cid_fid) as Hnd.
  apply (NoDup_fmap_2_strong fst) in Hnd.
  2: { intros [p t] [p' t'] Hp Hp' Heq. cbn in Heq. subst p'.
       apply indexed_elem in Hp, Hp'. congruence. }
  rewrite Hsplit, fmap_app, fmap_cons in Hnd. cbn [fst] in Hnd.
  apply NoDup_app in Hnd as (_ & Hpre_nin & Hnd). apply NoDup_cons in Hnd as [Hpost_nin _].
  assert (pid_to_cid_fid !! pid = Some track) as Htrack.
  { apply indexed_elem. rewrite Hsplit. apply elem_of_app. right. constructor. }
  apply tool_triangulate_tracks_other with (pid := pid) in Hpre as (Hm1 & _ & Hl1).
  2: { intros Hin. by apply (Hpre_nin pid); [|constructor]. }
  apply tool_triangulate_tracks_other with (pid := pid) in Hpost as (_ & Hx2 & _);
    [|done].
  cbn [fst snd] in *.
  pose proof Hstep as Hat.
  apply tool_triangulate_track_at in Hat as (fv & wv & pv & Hrays & Hlen & Hcase).
  unfold inlier_count in Hlen. rewrite (inlier_items_agree _ _ _ _ Hm1) in Hlen.
  cbn [RigCalibrator.triangulate_track] in Hstep.
  cbn [InterestPoint.triangulate_track]. rewrite Hrays in Hstep |- *.
  cbn [mbind Result_bind] in Hstep |- *.
  destruct (length pv <? 2)%nat eqn:Hshort; [done|].
  apply Nat.ltb_ge in Hshort. destruct Hcase as (xyz & Htri & -> & ->).
  rewrite Htri. cbn [mbind Result_bind].
  rewrite (Hfinite pid track xyz Htrack); [done|unfold inlier_count; lia|].
  rewrite Hx2. apply list_lookup_insert_eq.
  rewrite Hl1, length_resize. by eapply lookup_lt_Some.
Qed.

End TriangulationCopies.

(** ** The mask that [main] ends with *)

Section FinalMask.
Context `{RigCalibrator.Pipeline}.
Import RigCalibrator.

Lemma mask_chain_last_step (m : PidCidFid Z) (tr : list Event) :
  mask_chain m tr → mask_step m (last_mask m tr).
Proof.
  revert m. induction tr as [|e tr IH]; intros m Hchain; [reflexivity|].
  destruct Hchain as [Hstep Hchain]. rewrite last_mask_cons.
  transitivity (ev_inlier e); [done|by apply IH].
Qed.

(** X29: when [main] returns, the inlier mask it ends with comes from the
    mask that boundary exclusion wrote after matching, with nothing but
    entries set to 0 since: it holds an entry, 0 or 1, for every feature of
    every track, so that the lookups of the code that runs after the passes
    find their entries. *)
Theorem main_final_mask (HAVE_ASTROBEE : bool) (FLAGS : Flags)
    (tr : list Event) (st : DriverState) :
  main HAVE_ASTROBEE FLAGS = (tr, Ok st) →
  ∃ cfg imgs m0,
    read_config FLAGS = Ok cfg
    ∧ detect_match_features FLAGS cfg = Ok imgs
    ∧ flagOutlierByExclusionDist (cfg_ref_cam_type cfg)
        (nav_cam_num_exclude_boundary_pixels FLAGS) (cfg_cam_params cfg)
        (img_cams imgs) (img_pid_to_cid_fid imgs) (img_keypoint_vec imgs) [] = Ok m0
    ∧ mask_step m0 (pid_cid_fid_inlier st)
    ∧ mask_binary (pid_cid_fid_inlier st)
    ∧ mask_covers (img_pid_to_cid_fid imgs) (pid_cid_fid_inlier st).
Proof.
  intros Hmain. unfold main in Hmain.
  apply run_bind_Ok_inv in Hmain as (tr0 & u & tr0' & _ & Hmain & ->).
  apply run_bind_Ok_inv in Hmain as (tr1 & cfg & tr1' & Hread & Hmain & ->).
  apply call_Ok_inv in Hread as [Hread _].
  apply run_bind_Ok_inv in Hmain as (tr2 & arrays & tr2' & _ & Hmain & ->).
  destruct arrays as [[fl oc] ds].
  apply run_bind_Ok_inv in Hmain as (tr3 & imgs & tr3' & Hdetect & Hmain & ->).
  apply call_Ok_inv in Hdetect as [Hdetect _].
  apply run_bind_Ok_inv in Hmain as (tr4 & m0 & tr4' & Hexcl & Hmain & ->).
  apply call_Ok_inv in Hexcl as [Hexcl _].
  exists cfg, imgs, m0. split; [done|]. split; [done|]. split; [done|].
  match type of Hmain with
  | run_passes ?F ?c ?i ?o ?n ?p ?s = _ =>
      pose proof (run_passes_chain F c i o n p s) as [Hchain Hlast]
  end.
  rewrite Hmain in Hchain, Hlast. cbn [fst snd pid_cid_fid_inlier] in Hchain, Hlast.
  assert (mask_step m0 (pid_cid_fid_inlier st)) as Hstep.
  { transitivity (last_mask m0 tr4'); [by apply mask_chain_last_step|by apply Hlast]. }
  split; [done|]. split.
  - eapply mask_step_binary; [done|].
    eapply flagOutlierByExclusionDist_binary; [|done].
    intros pid cid fid v Hv. by rewrite lookup3_nil in Hv.
  - eapply mask_step_covers; [done|].
    by eapply flagOutlierByExclusionDist_covers.
Qed.

End FinalMask.

(** * Instances of the further properties on the sample rig *)

(** A run on the sample rig returns the value named for it. *)
Ltac sample_run :=
  match goal with
  | |- ?r = Ok ?x =>
      let Hok := fresh "Hok" in
      assert (is_Ok r = true) as Hok by (vm_compute; reflexivity);
      unfold x; destruct r; [reflexivity|discriminate Hok..]
  end.

Section FurtherWitnesses.
Import RigCalibrator.

Lemma setMapValue_getMapValue_witness :
  setMapValue Sample.inliers 1 2 1 0
    = Ok [Sample.all_inliers Sample.track0; {[ 0 := {[ 1 := 1 ]}; 2 := {[ 1 := 0 ]} ]}]
  ∧ getMapValue (T := Z)
      [Sample.all_inliers Sample.track0; {[ 0 := {[ 1 := 1 ]}; 2 := {[ 1 := 0 ]} ]}]
      1 2 1 = Ok 0.
Proof.
  assert (setMapValue Sample.inliers 1 2 1 0
          = Ok [Sample.all_inliers Sample.track0;
                {[ 0 := {[ 1 := 1 ]}; 2 := {[ 1 := 0 ]} ]}]) as Hset
    by (vm_compute; reflexivity).
  split; [exact Hset|].
  exact (proj1 (setMapValue_getMapValue _ _ _ _ _ _ Hset)).
Defined.

Lemma flagOutlierByExclusionDist_spec_witness :
  flagOutlierByExclusionDist 0 15 Sample.cam_params Sample.cams Sample.tracks
    Sample.keypoint_vec []
  = Ok [ {[ 0 := {[ 0 := 0 ]}; 1 := {[ 0 := 1 ]}; 2 := {[ 0 := 0 ]} ]};
         {[ 0 := {[ 1 := 1 ]}; 2 := {[ 1 := 1 ]} ]} ]
  ∧ ∃ cam, vec_at Sample.cams 0 = Ok cam
      ∧ if camera_type cam =? 0 then
          ∃ dist_ip cp,
            keypoint_at Sample.keypoint_vec 0 0 = Ok dist_ip
            ∧ vec_at Sample.cam_params (camera_type cam) = Ok cp
            ∧ lookup3 [ {[ 0 := {[ 0 := 0 ]}; 1 := {[ 0 := 1 ]}; 2 := {[ 0 := 0 ]} ]};
                        {[ 0 := {[ 1 := 1 ]}; 2 := {[ 1 := 1 ]} ]} ] 0 0 0
              = Some (if near_boundary 15 cp dist_ip then 0 else 1)
        else lookup3 [ {[ 0 := {[ 0 := 0 ]}; 1 := {[ 0 := 1 ]}; 2 := {[ 0 := 0 ]} ]};
                       {[ 0 := {[ 1 := 1 ]}; 2 := {[ 1 := 1 ]} ]} ] 0 0 0
             = Some 1.
Proof.
  assert (flagOutlierByExclusionDist 0 15 Sample.cam_params Sample.cams Sample.tracks
            Sample.keypoint_vec []
          = Ok [ {[ 0 := {[ 0 := 0 ]}; 1 := {[ 0 := 1 ]}; 2 := {[ 0 := 0 ]} ]};
                 {[ 0 := {[ 1 := 1 ]}; 2 := {[ 1 := 1 ]} ]} ]) as Hrun
    by (vm_compute; reflexivity).
  split; [exact Hrun|].
  exact (flagOutlierByExclusionDist_spec 0 15 Sample.cam_params Sample.cams Sample.tracks
           Sample.keypoint_vec [] _ 0 Sample.track0 0 0 Hrun eq_refl eq_refl).
Defined.

Lemma tool_triangulation_flags_short_tracks_witness :
  multiViewTriangulation (H := Sample.externals) Sample.cam_params Sample.cams
    Sample.world_to_cam [Sample.track0] Sample.keypoint_vec Sample.one_inlier []
  = Ok Sample.tool_short
  ∧ (inlier_count Sample.one_inlier 0 Sample.track0 < 2)%nat
  ∧ lookup3 Sample.tool_short.1 0 0 0 = Some 0.
Proof.
  assert (multiViewTriangulation (H := Sample.externals) Sample.cam_params Sample.cams
            Sample.world_to_cam [Sample.track0] Sample.keypoint_vec Sample.one_inlier []
          = Ok (Sample.tool_short.1, Sample.tool_short.2)) as Hrun.
  { rewrite <- surjective_pairing. sample_run. }
  assert (inlier_count Sample.one_inlier 0 Sample.track0 < 2)%nat as Hfew
    by (vm_compute; lia).
  split; [by rewrite (surjective_pairing Sample.tool_short)|]. split; [exact Hfew|].
  destruct (tool_triangulation_flags_short_tracks (H := Sample.externals) _ _ _ _ _ _ _ _ _
              0 Sample.track0 Hrun eq_refl Hfew) as [Hzero _].
  apply Hzero. reflexivity.
Defined.


Lemma tool_triangulation_never_aborts_witness :
  flagOutlierByExclusionDist 0 0 Sample.cam_params Sample.cams Sample.tracks
    Sample.keypoint_vec [] = Ok Sample.inliers
  ∧ is_Fatal (multiViewTriangulation (H := Sample.externals) Sample.cam_params
                Sample.cams Sample.world_to_cam Sample.tracks Sample.keypoint_vec
                Sample.inliers []) = false.
Proof.
  assert (flagOutlierByExclusionDist 0 0 Sample.cam_params Sample.cams Sample.tracks
            Sample.keypoint_vec [] = Ok Sample.inliers) as Hexcl
    by (vm_compute; reflexivity).
  split; [exact Hexcl|].
  apply (tool_triangulation_never_aborts (H := Sample.externals) _ _ _ _ _ _ _ _ _ _ _ _ _ _
           Hexcl).
  reflexivity.
Defined.

Lemma lib_triangulation_survivors_are_finite_witness :
  InterestPoint.multiViewTriangulation (H := Sample.externals) Sample.cam_params
    Sample.cams Sample.world_to_cam Sample.tracks Sample.keypoint_vec Sample.inliers
  = Ok Sample.lib_long
  ∧ lookup3 Sample.lib_long.1 0 0 0 = Some 1
  ∧ ∃ xyz, Sample.lib_long.2 !! 0%nat = Some xyz ∧ InterestPoint.bad_xyz xyz = false.
Proof.
  assert (InterestPoint.multiViewTriangulation (H := Sample.externals) Sample.cam_params
            Sample.cams Sample.world_to_cam Sample.tracks Sample.keypoint_vec
            Sample.inliers
          = Ok (Sample.lib_long.1, Sample.lib_long.2)) as Hrun.
  { rewrite <- surjective_pairing. sample_run. }
  assert (lookup3 Sample.lib_long.1 0 0 0 = Some 1) as Hv by (vm_compute; reflexivity).
  split; [by rewrite (surjective_pairing Sample.lib_long)|]. split; [exact Hv|].
  destruct (lib_triangulation_survivors_are_finite (H := Sample.externals) _ _ _ _ _ _ _ _
              0 Sample.track0 0 0 1 Hrun eq_refl eq_refl Hv ltac:(lia))
    as (_ & _ & Hxyz).
  exact Hxyz.
Defined.



Lemma calc_world_to_cam_transforms_rig_spec_witness :
  calc_world_to_cam_transforms (H := Sample.externals) false Sample.cams
    (Sample.identity_block ++ Sample.identity_block) [Sample.d 0; Sample.d 1]
    (Sample.identity_block ++ Sample.identity_block) [] [Sample.d 0; Sample.d 0] []
  = Ok Sample.rig_world_to_cam
  ∧ length Sample.rig_world_to_cam = length Sample.cams.
Proof.
  assert (calc_world_to_cam_transforms (H := Sample.externals) false Sample.cams
            (Sample.identity_block ++ Sample.identity_block) [Sample.d 0; Sample.d 1]
            (Sample.identity_block ++ Sample.identity_block) []
            [Sample.d 0; Sample.d 0] []
          = Ok Sample.rig_world_to_cam) as Hrun by sample_run.
  split; [exact Hrun|]. symmetry.
  exact (Forall2_length _ _ _
           (calc_world_to_cam_transforms_rig_spec (H := Sample.externals)
              _ _ _ _ _ _ _ _ Hrun)).
Defined.

Lemma calc_world_to_cam_transforms_no_extrinsics_spec_witness :
  calc_world_to_cam_transforms (H := Sample.externals) true Sample.cams [] [] []
    (Sample.identity_block ++ Sample.identity_block ++ Sample.identity_block) []
    [[]; []; []; []]
  = Ok Sample.free_world_to_cam
  ∧ length Sample.free_world_to_cam = 4%nat
  ∧ Sample.free_world_to_cam !! 3%nat = Some [].
Proof.
  assert (calc_world_to_cam_transforms (H := Sample.externals) true Sample.cams [] [] []
            (Sample.identity_block ++ Sample.identity_block ++ Sample.identity_block) []
            [[]; []; []; []]
          = Ok Sample.free_world_to_cam) as Hrun by sample_run.
  split; [exact Hrun|].
  destruct (calc_world_to_cam_transforms_no_extrinsics_spec (H := Sample.externals)
              _ _ _ _ _ _ _ _ Hrun) as (_ & Hlen & _ & Hat).
  split; [exact Hlen|]. destruct (Hat 3%nat) as [Hout _]. apply Hout. cbn. lia.
Defined.

Lemma depthValue_result_witness :
  depthValue Sample.depth_cloud (Sample.d 0, Sample.d 1)
    = Ok (true, (Sample.d 2, Sample.d 2, Sample.d 2))
  ∧ vec3_eqb (Sample.d 2, Sample.d 2, Sample.d 2) zero3 = false.
Proof.
  assert (depthValue Sample.depth_cloud (Sample.d 0, Sample.d 1)
          = Ok (true, (Sample.d 2, Sample.d 2, Sample.d 2))) as Hval
    by (vm_compute; reflexivity).
  split; [exact Hval|].
  exact (proj1 (depthValue_result _ _ true _ Hval)).
Defined.

Lemma main_aborts_without_distortion_witness :
  parameterValidation false Sample.flags = Ok tt
  ∧ main (H0 := Sample.bare_pipeline) false Sample.flags
    = ([ {| ev_op := OpReadConfig; ev_inlier := [] |} ],
       Fatal "The cameras are expected to have distortion.").
Proof.
  assert (parameterValidation false Sample.flags = Ok tt) as Hvalid
    by (vm_compute; reflexivity).
  split; [exact Hvalid|].
  apply (main_aborts_without_distortion (H0 := Sample.bare_pipeline) false Sample.flags
           Sample.bare_config Sample.bare_sensor Hvalid eq_refl).
  - apply list_elem_of_further, list_elem_of_here.
  - reflexivity.
Defined.

Lemma ref_intrinsics_after_pass_witness :
  optimization_pass (H0 := Sample.pipeline) Sample.flags Sample.config
    Sample.images Sample.cam_params 0 Sample.state0
    = (Sample.pass0.1, Ok Sample.pass0_state)
  ∧ length (cam_params Sample.pass0_state) = length (cam_params Sample.state0)
  ∧ ∃ cp, vec_at Sample.cam_params 0 = Ok cp
          ∧ vec_at (cam_params Sample.pass0_state) 0 = Ok cp.
Proof.
  assert (optimization_pass (H0 := Sample.pipeline) Sample.flags Sample.config
            Sample.images Sample.cam_params 0 Sample.state0
          = (Sample.pass0.1, Ok Sample.pass0_state)) as Hpass.
  { assert (is_Ok Sample.pass0.2 = true) as Hok by (vm_compute; reflexivity).
    change (Sample.pass0 = (Sample.pass0.1, Ok Sample.pass0_state)).
    unfold Sample.pass0_state.
    destruct Sample.pass0 as [tr [st|msg|]]; [reflexivity|discriminate Hok..]. }
  split; [exact Hpass|].
  destruct (ref_intrinsics_after_pass (H0 := Sample.pipeline) Sample.flags
              Sample.config Sample.images Sample.cam_params 0 Sample.state0
              Sample.pass0_state Sample.pass0.1 Hpass) as (Hlen & _ & Href).
  split; [exact Hlen|]. apply Href. reflexivity.
Defined.

Lemma main_keeps_ref_intrinsics_witness :
  main (H0 := Sample.pipeline) false Sample.flags
    = (Sample.run.1, Ok Sample.final_state)
  ∧ vec_at (cam_params Sample.final_state) 0 = Ok (Sample.sensor 100).
Proof.
  assert (main (H0 := Sample.pipeline) false Sample.flags
          = (Sample.run.1, Ok Sample.final_state)) as Hrun.
  { assert (is_Ok Sample.run.2 = true) as Hok by (vm_compute; reflexivity).
    change (Sample.run = (Sample.run.1, Ok Sample.final_state)).
    unfold Sample.final_state.
    destruct Sample.run as [tr [st|msg|]]; [reflexivity|discriminate Hok..]. }
  split; [exact Hrun|].
  exact (proj2 (main_keeps_ref_intrinsics (H0 := Sample.pipeline) false Sample.flags
                  Sample.config Sample.run.1 Sample.final_state eq_refl eq_refl Hrun)).
Defined.

Lemma WriteNVM_spec_witness :
  InterestPoint.WriteNVM (H := Sample.externals) Sample.keypoint_vec Sample.filenames
    Sample.image_focal_lengths Sample.tracks Sample.landmarks Sample.world_to_cam
  = Ok Sample.written_file
  ∧ Forall (λ track : gmap Z Z, (2 ≤ size track)%nat) Sample.tracks.
Proof.
  assert (InterestPoint.WriteNVM (H := Sample.externals) Sample.keypoint_vec
            Sample.filenames Sample.image_focal_lengths Sample.tracks Sample.landmarks
            Sample.world_to_cam = Ok Sample.written_file) as Hwrite by sample_run.
  split; [exact Hwrite|].
  destruct (WriteNVM_spec (H := Sample.externals) _ _ _ _ _ _ _ Hwrite)
    as (_ & _ & _ & Hsizes & _).
  exact Hsizes.
Defined.

Lemma writeNvm_pixels_are_shifted_keypoints_witness :
  InterestPoint.writeNvm (H := Sample.externals) Sample.cam_params Sample.cams
    Sample.world_to_cam Sample.keypoint_vec Sample.tracks Sample.inliers
    Sample.landmarks = Ok Sample.nvm_file
  ∧ Forall2 (λ pid_track pt,
               ∀ ms, ms ∈ InterestPoint.pt_measures pt →
                 ∃ fid dist_ip cp,
                   pid_track.2 !! InterestPoint.m_cid ms = Some fid
                   ∧ is_inlier Sample.inliers pid_track.1 (InterestPoint.m_cid ms, fid)
                     = true
                   ∧ keypoint_at Sample.keypoint_vec (InterestPoint.m_cid ms) fid
                     = Ok dist_ip
                   ∧ cam_params_of Sample.cam_params Sample.cams (InterestPoint.m_cid ms)
                     = Ok cp
                   ∧ InterestPoint.m_pix ms
                     = (Fp.sub dist_ip.1 (GetOpticalOffset cp).1,
                        Fp.sub dist_ip.2 (GetOpticalOffset cp).2))
            (filter (λ pid_track, more_than_two_inliers Sample.inliers pid_track)
                    (indexed Sample.tracks))
            (InterestPoint.nvm_points Sample.nvm_file).
Proof.
  assert (InterestPoint.writeNvm (H := Sample.externals) Sample.cam_params Sample.cams
            Sample.world_to_cam Sample.keypoint_vec Sample.tracks Sample.inliers
            Sample.landmarks = Ok Sample.nvm_file) as Hwrite by sample_run.
  split; [exact Hwrite|].
  exact (writeNvm_pixels_are_shifted_keypoints (H := Sample.externals)
           Sample.cam_params Sample.cams Sample.world_to_cam Sample.keypoint_vec
           Sample.tracks Sample.inliers Sample.landmarks Sample.nvm_file Hwrite).
Defined.

Lemma affineToStr_vecToAffine_witness :
  ∃ M, vecToAffine (map Sample.d [1; 2; 3; 4; 5; 6; 7; 8; 9; 10; 11; 12]) = Ok M
       ∧ affine_matrix M
       ∧ affineToStr M = Ok (map Sample.d [1; 2; 3; 4; 5; 6; 7; 8; 9; 10; 11; 12]).
Proof.
  apply (affineToStr_vecToAffine (map Sample.d [1; 2; 3; 4; 5; 6; 7; 8; 9; 10; 11; 12])).
  reflexivity.
Defined.

Lemma vecToAffine_affineToStr_witness :
  affine_matrix Identity
  ∧ ∃ vals, affineToStr Identity = Ok vals ∧ length vals = 12%nat
            ∧ vecToAffine vals = Ok Identity.
Proof.
  assert (affine_matrix Identity) as Haff by (by do 12 eexists).
  split; [exact Haff|]. exact (vecToAffine_affineToStr Identity Haff).
Defined.

Lemma writeRigConfig_spec_witness :
  writeRigConfig (H := Sample.externals) "none" "fisheye" "radtan" Identity true true 0
    Sample.cam_names Sample.cam_params Sample.rig_transforms Sample.rig_transforms
    [Sample.d 0; Sample.d 0] = Ok Sample.rig_config_lines
  ∧ length Sample.rig_config_lines = 25%nat.
Proof.
  assert (writeRigConfig (H := Sample.externals) "none" "fisheye" "radtan" Identity
            true true 0 Sample.cam_names Sample.cam_params Sample.rig_transforms
            Sample.rig_transforms [Sample.d 0; Sample.d 0]
          = Ok Sample.rig_config_lines) as Hw by sample_run.
  split; [exact Hw|].
  destruct (writeRigConfig_spec (H := Sample.externals) _ _ _ _ _ _ _ _ _ _ _ _ _ Hw)
    as (_ & _ & _ & Hlen).
  exact Hlen.
Defined.

Lemma image_pairs_spec_witness :
  (0, 1) ∈ InterestPoint.image_pairs 3 1
  ∧ RigCalibrator.is_good 1 0 1 = Ok true.
Proof.
  destruct (image_pairs_spec 3 1 0 1 ltac:(lia) ltac:(vm_compute; discriminate))
    as [Helem Hgood].
  assert ((0, 1) ∈ InterestPoint.image_pairs 3 1) as Hin
    by (apply Helem; cbn; lia).
  split; [exact Hin|]. apply Hgood; [lia|cbn; lia|exact Hin].
Defined.

Lemma Triangulate_tracks_spec_witness :
  InterestPoint.Triangulate_tracks (H := Sample.externals) Sample.min_depth true
    (Sample.d 100) Sample.world_to_cam Sample.keypoint_vec Sample.tracks []
  = Ok Sample.triangulated_tracks
  ∧ ∃ rays_of,
      Sample.triangulated_tracks.1
      = (kept_tracks (H := Sample.externals) Sample.min_depth true
           (zip Sample.tracks rays_of)).*1.
Proof.
  assert (InterestPoint.Triangulate_tracks (H := Sample.externals) Sample.min_depth true
            (Sample.d 100) Sample.world_to_cam Sample.keypoint_vec Sample.tracks []
          = Ok (Sample.triangulated_tracks.1, Sample.triangulated_tracks.2)) as Hrun.
  { rewrite <- surjective_pairing. sample_run. }
  split; [by rewrite (surjective_pairing Sample.triangulated_tracks)|].
  destruct (Triangulate_tracks_spec (H := Sample.externals) Sample.min_depth _ _ _ _ _ _ _ _
              Hrun) as (rays_of & _ & Htracks & _).
  by exists rays_of.
Defined.

Lemma meshTriangulations_spec_witness :
  meshTriangulations (H := Sample.externals) Sample.ray_hits Sample.add3 Sample.div3
    Sample.cam_params Sample.cams Sample.world_to_cam Sample.tracks Sample.inliers
    Sample.keypoint_vec Sample.no_point [] [] = Ok Sample.mesh_points
  ∧ lookup3 Sample.mesh_points.1 1 0 1 = Some Sample.no_point
  ∧ Sample.mesh_points.2 !! 1%nat = Some Sample.no_point.
Proof.
  assert (meshTriangulations (H := Sample.externals) Sample.ray_hits Sample.add3
            Sample.div3 Sample.cam_params Sample.cams Sample.world_to_cam Sample.tracks
            Sample.inliers Sample.keypoint_vec Sample.no_point [] []
          = Ok (Sample.mesh_points.1, Sample.mesh_points.2)) as Hrun.
  { rewrite <- surjective_pairing. sample_run. }
  split; [by rewrite (surjective_pairing Sample.mesh_points)|].
  destruct (meshTriangulations_spec (H := Sample.externals) Sample.ray_hits Sample.add3
              Sample.div3 _ _ _ _ _ _ _ _ _ _ _ 1 Sample.track1 Hrun eq_refl)
    as [Hentry Hpoint].
  split.
  - rewrite (Hentry 0 1 eq_refl). vm_compute. reflexivity.
  - rewrite Hpoint. vm_compute. reflexivity.
Defined.

Lemma tool_saved_matches_are_between_inliers_witness :
  InterestPoint.gather_matches (is_good 1) Sample.tracks Sample.keypoint_vec
    Sample.inliers = Ok Sample.saved_matches
  ∧ Sample.saved_matches !! (0, 1)
    = Some ([Sample.ip 10 10], [Sample.ip 20 12])
  ∧ (0 : Z) < 1 ∧ (1 : Z) ≤ 0 + 1.
Proof.
  assert (InterestPoint.gather_matches (is_good 1) Sample.tracks Sample.keypoint_vec
            Sample.inliers = Ok Sample.saved_matches) as Hrun by sample_run.
  assert (Sample.saved_matches !! (0, 1)
          = Some ([Sample.ip 10 10], [Sample.ip 20 12])) as Hm
    by (vm_compute; reflexivity).
  split; [exact Hrun|]. split; [exact Hm|].
  destruct (tool_saved_matches_are_between_inliers 1 _ _ _ _ 0 1 _ _ Hrun Hm)
    as (Hlt & Hle & _).
  split; [exact Hlt|exact Hle].
Defined.

Lemma tool_saved_matches_have_all_inlier_pairs_witness :
  InterestPoint.gather_matches (is_good 1) Sample.tracks Sample.keypoint_vec
    Sample.inliers = Ok Sample.saved_matches
  ∧ ∃ l r (i : nat) ip1 ip2,
      Sample.saved_matches !! (1, 2) = Some (l, r)
      ∧ l !! i = Some ip1 ∧ r !! i = Some ip2
      ∧ feature_match Sample.keypoint_vec Sample.inliers 0 1 0 2 0 ip1 ip2.
Proof.
  assert (InterestPoint.gather_matches (is_good 1) Sample.tracks Sample.keypoint_vec
            Sample.inliers = Ok Sample.saved_matches) as Hrun by sample_run.
  split; [exact Hrun|].
  apply (tool_saved_matches_have_all_inlier_pairs 1 _ _ _ _ 0 Sample.track0 1 0 2 0
           Hrun eq_refl eq_refl eq_refl eq_refl eq_refl); lia.
Defined.

Lemma lib_saved_matches_without_overlaps_witness :
  InterestPoint.gather_matches (InterestPoint.is_good 0) Sample.tracks
    Sample.keypoint_vec Sample.inliers = Ok Sample.lib_saved_matches
  ∧ is_Some (Sample.lib_saved_matches !! (0, 2)).
Proof.
  assert (InterestPoint.gather_matches (InterestPoint.is_good 0) Sample.tracks
            Sample.keypoint_vec Sample.inliers = Ok Sample.lib_saved_matches) as Hrun
    by sample_run.
  split; [exact Hrun|].
  destruct (lib_saved_matches_without_overlaps _ _ _ _ 0 2 Hrun) as [Hiff _].
  apply Hiff. split; [lia|].
  exists 0%nat, Sample.track0, 0, 0. repeat split; reflexivity.
Defined.

Lemma triangulation_copies_agree_on_finite_points_witness :
  multiViewTriangulation (H := Sample.externals) Sample.cam_params Sample.cams
    Sample.world_to_cam [Sample.track0] Sample.keypoint_vec
    [Sample.all_inliers Sample.track0] []
  = Ok Sample.tool_first
  ∧ InterestPoint.multiViewTriangulation (H := Sample.externals) Sample.cam_params
      Sample.cams Sample.world_to_cam [Sample.track0] Sample.keypoint_vec
      [Sample.all_inliers Sample.track0]
    = Ok Sample.tool_first.
Proof.
  assert (multiViewTriangulation (H := Sample.externals) Sample.cam_params Sample.cams
            Sample.world_to_cam [Sample.track0] Sample.keypoint_vec
            [Sample.all_inliers Sample.track0] []
          = Ok (Sample.tool_first.1, Sample.tool_first.2)) as Hrun.
  { rewrite <- surjective_pairing. sample_run. }
  assert (forallb (λ xyz, negb (InterestPoint.bad_xyz xyz))
            Sample.tool_first.2 = true) as Hfinite by (vm_compute; reflexivity).
  split; [by rewrite (surjective_pairing Sample.tool_first)|].
  rewrite (surjective_pairing Sample.tool_first).
  apply (triangulation_copies_agree_on_finite_points (H := Sample.externals) _ _ _ _ _ _
           _ _ Hrun).
  intros pid track xyz _ _ Hxyz.
  apply list_elem_of_lookup_2, list_elem_of_In in Hxyz.
  rewrite forallb_forall in Hfinite. apply Hfinite in Hxyz.
  by apply negb_true_iff in Hxyz.
Defined.

Lemma main_final_mask_witness :
  main (H0 := Sample.pipeline) false Sample.flags
    = (Sample.run.1, Ok Sample.final_state)
  ∧ mask_binary (pid_cid_fid_inlier Sample.final_state).
Proof.
  assert (main (H0 := Sample.pipeline) false Sample.flags
          = (Sample.run.1, Ok Sample.final_state)) as Hrun.
  { assert (is_Ok Sample.run.2 = true) as Hok by (vm_compute; reflexivity).
    change (Sample.run = (Sample.run.1, Ok Sample.final_state)).
    unfold Sample.final_state.
    destruct Sample.run as [tr [st|msg|]]; [reflexivity|discriminate Hok..]. }
  split; [exact Hrun|].
  destruct (main_final_mask (H0 := Sample.pipeline) false Sample.flags Sample.run.1
              Sample.final_state Hrun) as (_ & _ & _ & _ & _ & _ & _ & Hbinary & _).
  exact Hbinary.
Defined.

End FurtherWitnesses.
